(** * Piano Tutor: pitch-class codec, note detector and exercise matchers

    A shallow embedding of the JavaScript sources and the properties of the
    pitch-detection to exercise-matching pipeline: common.js and the
    interval exercise (both in src/unnamed/part_000), noteDetector.js
    (src/unnamed/part_001), chords.js, memory.js and reading.js; then of
    what stands around it: playback and the star counter of common.js,
    rhythm.js, the virtual keyboard (in src/chords.js) and the progress
    page (in src/reading.js).

    Conventions of the embedding:
    - a JavaScript number that is a measurement (frequency, clarity,
      clock reading) is a real number [R]; IEEE rounding is outside the
      model, and where a statement reaches the ends of the range of
      doubles, the module [Double] adds overflow, underflow, the
      infinities and NaN;
    - a JavaScript number that the code only uses as an integer (array
      index, MIDI number, octave, star count) is a [Z], and [%] is the
      truncating remainder [Z.rem];
    - a JavaScript string is the [string] of the bytes of its UTF-8
      encoding;
    - module-level variables become the fields of a state record that is
      passed explicitly; an exception is a result value. *)

From Stdlib Require Import Reals Lra Lia ZArith List String Ascii Bool.
From Stdlib Require Import DecimalString DecimalPos.
Import ListNotations.

Open Scope string_scope.
Open Scope Z_scope.

(** ** JavaScript primitives used by the sources *)

Module JS.

(** [Math.round]: nearest integer, ties towards positive infinity. *)
Definition Math_round (x : R) : Z := Int_part (x + / 2)%R.

(** [Math.log2]. *)
Definition Math_log2 (x : R) : R := (ln x / ln 2)%R.

(** [Math.pow] at a positive base. *)
Definition Math_pow (b e : R) : R := Rpower b e.

(** [Array.prototype.indexOf] on an array of strings; [-1] when absent. *)
Fixpoint indexOf_from (i : Z) (xs : list string) (x : string) : Z :=
  match xs with
  | [] => -1
  | y :: ys => if String.eqb y x then i else indexOf_from (i + 1) ys x
  end.

Definition indexOf (xs : list string) (x : string) : Z := indexOf_from 0 xs x.

(** [Array.prototype.includes] on an array of strings. *)
Definition includes (xs : list string) (x : string) : bool :=
  existsb (String.eqb x) xs.

(** [xs[i]] for an integer [i]; [undefined] is [None]. *)
Definition at_index {A} (xs : list A) (i : Z) : option A :=
  if i <? 0 then None else nth_error xs (Z.to_nat i).

(** [String.prototype.repeat] for a non-negative count. *)
Fixpoint repeat_string (s : string) (n : nat) : string :=
  match n with
  | O => ""
  | S k => s ++ repeat_string s k
  end.

(** [s.replace(/#/, '')]: the first ['#'] is removed. *)
Fixpoint remove_first_sharp (s : string) : string :=
  match s with
  | EmptyString => EmptyString
  | String c r => if Ascii.eqb c "#" then r else String c (remove_first_sharp r)
  end.

(** The outcome of a call that may throw: the returned value, or the
    message of the thrown [Error]. *)
Inductive result (A : Type) : Type :=
| Return (a : A)
| Throw (message : string).
Arguments Return {A} a.
Arguments Throw {A} message.

(** White space and line terminators of ECMAScript, as the bytes of their
    UTF-8 encoding: one byte (TAB, LF, VT, FF, CR, SP), two bytes
    (U+00A0) and three bytes (U+1680, U+2000 to U+200A, U+2028, U+2029,
    U+202F, U+205F, U+3000, U+FEFF). *)
Definition ws1 (a : ascii) : bool :=
  let n := nat_of_ascii a in
  ((9 <=? n) && (n <=? 13))%nat || (n =? 32)%nat.

Definition ws2 (a b : ascii) : bool :=
  ((nat_of_ascii a =? 194) && (nat_of_ascii b =? 160))%nat.

Definition ws3 (a b c : ascii) : bool :=
  let x := nat_of_ascii a in
  let y := nat_of_ascii b in
  let z := nat_of_ascii c in
  ((x =? 225) && (y =? 154) && (z =? 128))%nat
  || ((x =? 226) && (y =? 128)
      && (((128 <=? z) && (z <=? 138)) || (z =? 168) || (z =? 169) || (z =? 175)))%nat
  || ((x =? 226) && (y =? 129) && (z =? 159))%nat
  || ((x =? 227) && (y =? 128) && (z =? 128))%nat
  || ((x =? 239) && (y =? 187) && (z =? 191))%nat.

(** Removal of the white space at the front of a string; [fwd] tells
    whether the bytes are read in their order or, for a reversed string,
    backwards. *)
Fixpoint strip (fwd : bool) (s : string) : string :=
  match s with
  | EmptyString => s
  | String a r =>
      if ws1 a then strip fwd r
      else
        match r with
        | EmptyString => s
        | String b r2 =>
            if (if fwd then ws2 a b else ws2 b a) then strip fwd r2
            else
              match r2 with
              | EmptyString => s
              | String c r3 =>
                  if (if fwd then ws3 a b c else ws3 c b a) then strip fwd r3
                  else s
              end
        end
  end.

Fixpoint rev_string (acc s : string) : string :=
  match s with
  | EmptyString => acc
  | String a r => rev_string (String a acc) r
  end.

(** [String.prototype.trim]. *)
Definition trim (s : string) : string :=
  rev_string "" (strip false (rev_string "" (strip true s))).

(** The character class [\d]. *)
Definition isDigit (a : ascii) : bool :=
  let n := nat_of_ascii a in ((48 <=? n) && (n <=? 57))%nat.

Fixpoint allDigits (s : string) : bool :=
  match s with
  | EmptyString => true
  | String a r => isDigit a && allDigits r
  end.

(** The value of a string of decimal digits, read from the left. *)
Fixpoint digitsValue (acc : Z) (s : string) : Z :=
  match s with
  | EmptyString => acc
  | String a r => digitsValue (10 * acc + (Z.of_nat (nat_of_ascii a) - 48)) r
  end.

(** [parseInt(s, 10)] on a string of the shape [-?\d+]. *)
Definition parseInt10 (s : string) : Z :=
  match s with
  | String "-" r => - digitsValue 0 r
  | _ => digitsValue 0 s
  end.

(** [toUpperCase] on one ASCII character. *)
Definition toUpperCase (a : ascii) : ascii :=
  let n := nat_of_ascii a in
  if ((97 <=? n) && (n <=? 122))%nat then ascii_of_nat (n - 32) else a.

End JS.

(** ** common.js (src/unnamed/part_000) *)

Module Common.
Import JS.

Definition NOTE_NAMES : list string :=
  ["C"; "C#"; "D"; "D#"; "E"; "F"; "F#"; "G"; "G#"; "A"; "A#"; "B"].

(** [freqToPitchClass(freq)]; [!freq] holds of the number [0]. *)
Definition freqToPitchClass (freq : R) : option string :=
  if Req_dec_T freq 0 then None
  else if Rle_dec freq 0 then None
  else
    let midi := Math_round (12 * Math_log2 (freq / 440) + 69)%R in
    let index := Z.rem (Z.rem midi 12 + 12) 12 in
    at_index NOTE_NAMES index.

(** The frequency of a MIDI number, [440 * Math.pow(2, (midi - 69) / 12)]. *)
Definition midiToFreq (midi : Z) : R :=
  (440 * Math_pow 2 ((IZR midi - 69) / 12))%R.

(** [pitchClassToFreq(pc, octave)]. *)
Definition pitchClassToFreq (pc : string) (octave : Z) : result R :=
  let semitone := indexOf NOTE_NAMES pc in
  if semitone <? 0 then Throw ("Unknown pitch class: " ++ pc)
  else
    let midi := semitone + (octave + 1) * 12 in
    Return (midiToFreq midi).

(** The note that [parseNoteName] returns. *)
Record Note : Type := mkNote { pc : string; octave : Z }.

(** The character class [[A-Ga-g]]. *)
Definition isNoteLetter (a : ascii) : bool :=
  let n := nat_of_ascii a in
  (((65 <=? n) && (n <=? 71)) || ((97 <=? n) && (n <=? 103)))%nat.

(** The character class [[#b]]. *)
Definition isAccidental (a : ascii) : bool :=
  Ascii.eqb a "#" || Ascii.eqb a "b".

(** What follows the optional minus sign of [-?\d+]. *)
Definition afterMinus (s : string) : string :=
  match s with
  | String "-" d => d
  | _ => s
  end.

(** The match of [/^([A-Ga-g])([#b]?)(-?\d+)$/]: the three groups, or
    [None].  The optional groups are greedy; giving back an accidental or
    a minus sign never helps, since neither starts [-?\d+] or [\d+]. *)
Definition matchNoteName (s : string) : option (ascii * string * string) :=
  match s with
  | EmptyString => None
  | String l r =>
      if isNoteLetter l then
        let '(accidental, r1) :=
          match r with
          | String a r' => if isAccidental a then (String a "", r') else ("", r)
          | EmptyString => ("", r)
          end in
        match afterMinus r1 with
        | EmptyString => None
        | String _ _ as digits =>
            if allDigits digits then Some (l, accidental, r1) else None
        end
      else None
  end.

(** [parseNoteName(name)]; the letter of a match is always in
    [NOTE_NAMES], so that the entry read for a flat is there. *)
Definition parseNoteName (name : string) : result Note :=
  match matchNoteName (trim name) with
  | None => Throw ("Invalid note name: " ++ name)
  | Some (letter, accidental, octave) =>
      let letter := String (toUpperCase letter) "" in
      let pc :=
        if String.eqb accidental "#" then letter ++ "#"
        else if String.eqb accidental "b" then
          let idx := indexOf NOTE_NAMES letter in
          let newIdx := Z.rem (idx + 11) 12 in
          match at_index NOTE_NAMES newIdx with
          | Some p => p
          | None => "undefined"
          end
        else letter in
      Return (mkNote pc (parseInt10 octave))
  end.

(** [intervalNameFromSemitone(semitones)]: the table, and the numeric
    label for a key that is not in it. *)
Definition intervalNames : list string :=
  ["pryma czysta"; "sekunda mała"; "sekunda wielka"; "tercja mała";
   "tercja wielka"; "kwarta czysta"; "tryton"; "kwinta czysta";
   "seksta mała"; "seksta wielka"; "septyma mała"; "septyma wielka"].

Definition showZ (z : Z) : string := NilZero.string_of_int (Z.to_int z).

Definition intervalNameFromSemitone (semitones : Z) : string :=
  match at_index intervalNames semitones with
  | Some n => n
  | None => showZ semitones ++ " półtonów"
  end.

(** [addStars(n)] on the counter kept under the key ["pianoStars"]. *)
Definition addStars (n : Z) (pianoStars : Z) : Z := pianoStars + n.

End Common.

(** ** State and exceptions

    A handler body runs on the module's variables and may throw; what it
    wrote before the throw stays written. *)

Module Eff.
Import JS.

Definition M (S A : Type) : Type := S -> S * result A.

Definition ret {S A} (a : A) : M S A := fun s => (s, Return a).

Definition bind {S A B} (c : M S A) (k : A -> M S B) : M S B :=
  fun s =>
    match c s with
    | (s', Return a) => k a s'
    | (s', Throw e) => (s', Throw e)
    end.

Definition get {S} : M S S := fun s => (s, Return s).
Definition modify {S} (f : S -> S) : M S unit := fun s => (f s, Return tt).
Definition throw {S A} (e : string) : M S A := fun s => (s, Throw e).

(** [if (c) { body }] *)
Definition when {S} (c : bool) (body : M S unit) : M S unit :=
  if c then body else ret tt.

Declare Scope eff_scope.
Delimit Scope eff_scope with eff.
Notation "x <- c ;; k" := (bind c (fun x => k))
  (at level 61, c at next level, right associativity) : eff_scope.
Notation "c ;; k" := (bind c (fun _ => k))
  (at level 61, right associativity) : eff_scope.

End Eff.

(** ** noteDetector.js (src/unnamed/part_001) *)

Module NoteDetector.
Import JS.

(** The fields of a [NoteDetector]; a handle ([audioCtx], [stream],
    [source], [processor], [detector], [detectorClass]) is [true] when it
    is set.  [processor] set means that the script processor is connected
    with this detector's [onaudioprocess] handler on it. *)
Record t : Type := mk {
  clarityThreshold : R;
  bufferLength : Z;
  audioCtx : bool;
  stream : bool;
  source : bool;
  processor : bool;
  detector : bool;
  detectorClass : bool;
  lastDetectTime : R
}.

(** [new NoteDetector({ onFrequency, clarityThreshold = 0.85 })]; the
    callback is the handler of the module that creates the detector. *)
Definition new (threshold : option R) : t :=
  {| clarityThreshold := match threshold with Some c => c | None => 0.85%R end;
     bufferLength := 1024;
     audioCtx := false; stream := false; source := false;
     processor := false; detector := false; detectorClass := false;
     lastDetectTime := 0%R |}.

(** What the browser answers to the two requests of [start]: the import
    of the pitch library and [getUserMedia]; [Throw] carries the error. *)
Record Env : Type := mkEnv {
  pitchyImport : result unit;
  getUserMedia : result unit
}.

(** What [start] shows outside the detector. *)
Inductive Effect : Type :=
| ConsoleError (label err : string)
| Alert (message : string).

(** How the promise of an [async] function settles. *)
Inductive Settled : Type :=
| Resolved
| Rejected (err : string).

Definition micAlert : string :=
  "Nie można uzyskać dostępu do mikrofonu. Upewnij się, że udzieliłeś zgody.".

(** [_loadPitchy()]. *)
Definition loadPitchy (env : Env) (d : t) : t * result unit :=
  if detector d then (d, Return tt)
  else
    match pitchyImport env with
    | Return _ =>
        (mk (clarityThreshold d) (bufferLength d) (audioCtx d) (stream d)
            (source d) (processor d) (detector d) true (lastDetectTime d),
         Return tt)
    | Throw e => (d, Throw e)
    end.

(** [start()]: the detector afterwards, what was shown, and how the
    promise settled. *)
Definition start (env : Env) (d : t) : t * list Effect * Settled :=
  match loadPitchy env d with
  | (d1, Throw e) => (d1, [], Rejected e)
  | (d1, Return _) =>
      if negb (detectorClass d1) then
        (mk (clarityThreshold d1) (bufferLength d1) true (stream d1)
            (source d1) (processor d1) (detector d1) (detectorClass d1)
            (lastDetectTime d1),
         [], Rejected "TypeError")
      else
        let d2 :=
          mk (clarityThreshold d1) (bufferLength d1) true (stream d1)
             (source d1) (processor d1) true (detectorClass d1)
             (lastDetectTime d1) in
        match getUserMedia env with
        | Throw err =>
            (d2,
             [ConsoleError "Microphone access denied:" err; Alert micAlert],
             Resolved)
        | Return _ =>
            (mk (clarityThreshold d2) (bufferLength d2) true true true true
                true (detectorClass d2) (lastDetectTime d2),
             [], Resolved)
        end
  end.

(** [stop()]. *)
Definition stop (d : t) : t :=
  mk (clarityThreshold d) (bufferLength d) false false false false false
     (detectorClass d) (lastDetectTime d).

(** One audio buffer as the handler sees it: the answer of
    [findPitch(buffer, sampleRate)] and the two readings of
    [performance.now()], the one of the handler and the later one inside
    the callback. *)
Record Frame : Type := mkFrame {
  pitch : R;
  clarity : R;
  now : R;
  nowInCallback : R
}.

(** The body of the [onaudioprocess] handler up to the call of
    [onFrequency]: the detector afterwards and the frequency handed to the
    callback, if any. *)
Definition onaudioprocess (f : Frame) (d : t) : t * option R :=
  if Req_dec_T (pitch f) 0 then (d, None)
  else if Rge_dec (clarity f) (clarityThreshold d) then
    if Rgt_dec (now f - lastDetectTime d) 250 then
      (mk (clarityThreshold d) (bufferLength d) (audioCtx d) (stream d)
          (source d) (processor d) (detector d) (detectorClass d) (now f),
       Some (pitch f))
    else (d, None)
  else (d, None).

(** The browser runs the handler only while the processor is set up. *)
Definition deliver (f : Frame) (d : t) : t * option R :=
  if processor d then onaudioprocess f d else (d, None).

(** A run of the detector alone over the buffers that arrive: the
    frequencies handed to the callback, in order. *)
Fixpoint emitted (fs : list Frame) (d : t) : list R :=
  match fs with
  | [] => []
  | f :: rest =>
      match deliver f d with
      | (d', Some p) => p :: emitted rest d'
      | (d', None) => emitted rest d'
      end
  end.

End NoteDetector.

(** ** The detector and the module that listens to it *)

Module Listener.
Import JS Eff.

(** What the four exercise modules have in common: the module variable
    [detector] ([None] is [null]). *)
Class HasDetector (S : Type) : Type := {
  getDetector : S -> option NoteDetector.t;
  setDetector : option NoteDetector.t -> S -> S
}.

Section Pipeline.
Context {S : Type} `{HasDetector S}.

(** The [onFrequency] callback that the module gives to its detector;
    it gets the frequency and reads the clock once. *)
Variable onFrequency : R -> R -> M S unit.

(** [detector.stop(); detector = null;] *)
Definition stopDetector : M S unit :=
  fun s =>
    match getDetector s with
    | Some _ => (setDetector None s, Return tt)
    | None => (s, Throw "TypeError: Cannot read properties of null (reading 'stop')")
    end.

(** [try { this.onFrequency(pitch) } catch (callbackErr) { ... }]: the
    callback runs on the variables of the module and what it throws is
    logged and dropped. *)
Definition callback (freq clock : R) (s : S) : S :=
  fst (onFrequency freq clock s).

(** One note event reaches the module: the detector that the module
    holds is running and calls back. *)
Definition noteEvent (ev : R * R) (s : S) : S :=
  match getDetector s with
  | Some d =>
      if NoteDetector.processor d then callback (fst ev) (snd ev) s else s
  | None => s
  end.

Definition noteEvents (evs : list (R * R)) (s : S) : S :=
  fold_left (fun s ev => noteEvent ev s) evs s.

(** One audio buffer arrives while the module holds the detector. *)
Definition audioprocess (f : NoteDetector.Frame) (s : S) : S :=
  match getDetector s with
  | Some d =>
      match NoteDetector.deliver f d with
      | (d', Some freq) =>
          callback freq (NoteDetector.nowInCallback f) (setDetector (Some d') s)
      | (d', None) => setDetector (Some d') s
      end
  | None => s
  end.

Definition audio (fs : list NoteDetector.Frame) (s : S) : S :=
  fold_left (fun s f => audioprocess f s) fs s.

End Pipeline.

(** The pitch classes of a list of note events, in order: an event whose
    frequency resolves to no pitch class contributes none. *)
Fixpoint detected (evs : list (R * R)) : list string :=
  match evs with
  | [] => []
  | ev :: rest =>
      match Common.freqToPitchClass (fst ev) with
      | Some pc => pc :: detected rest
      | None => detected rest
      end
  end.

(** The status element: [textContent] (or [innerHTML]) and [className]. *)
Record Status : Type := mkStatus { text : string; className : string }.

Definition listening : string := "Nasłuchiwanie...".

(** The star award of a success: [elapsed] is [null] when
    [recordStartTime] is [null] or [0]. *)
Definition stars (recordStartTime : option R) (clock fast mid : R) : Z :=
  match recordStartTime with
  | None => 1
  | Some t0 =>
      if Req_dec_T t0 0 then 1
      else
        let elapsed := ((clock - t0) / 1000)%R in
        if Rle_dec elapsed fast then 3
        else if Rle_dec elapsed mid then 2
        else 1
  end.

Definition starString (n : Z) : string := repeat_string "★" (Z.to_nat n).

(** The verdict that the status element shows. *)
Inductive Verdict : Type := Collecting | Success | Failure.

Definition verdict (st : Status) : Verdict :=
  if String.eqb (className st) "status result-success" then Success
  else if String.eqb (className st) "status result-failure" then Failure
  else Collecting.

End Listener.

(** ** chords.js *)

Module Chords.
Import JS Eff Common Listener.
Local Open Scope eff_scope.

Record Chord : Type := mkChord { name : string; notes : list string }.

Definition CHORDS : list Chord :=
  [ mkChord "C dur" ["C4"; "E4"; "G4"];
    mkChord "G dur" ["G3"; "B3"; "D4"];
    mkChord "F dur" ["F3"; "A3"; "C4"];
    mkChord "D mol" ["D4"; "F4"; "A4"];
    mkChord "A mol" ["A3"; "C4"; "E4"];
    mkChord "E mol" ["E3"; "G3"; "B3"];
    mkChord "B zmniejszony" ["B3"; "D4"; "F4"] ].

(** The variables of the module, the status element and the star counter. *)
Record State : Type := mkState {
  currentChord : option Chord;
  expectedPitchClasses : list string;
  userPitchClasses : list string;
  detector : option NoteDetector.t;
  recordStartTime : option R;
  status : Status;
  pianoStars : Z
}.

Definition withDetector (d : option NoteDetector.t) (s : State) : State :=
  mkState (currentChord s) (expectedPitchClasses s) (userPitchClasses s) d
          (recordStartTime s) (status s) (pianoStars s).

Definition withUser (u : list string) (s : State) : State :=
  mkState (currentChord s) (expectedPitchClasses s) u (detector s)
          (recordStartTime s) (status s) (pianoStars s).

Definition withStatus (st : Status) (s : State) : State :=
  mkState (currentChord s) (expectedPitchClasses s) (userPitchClasses s)
          (detector s) (recordStartTime s) st (pianoStars s).

Definition withStars (n : Z) (s : State) : State :=
  mkState (currentChord s) (expectedPitchClasses s) (userPitchClasses s)
          (detector s) (recordStartTime s) (status s) n.

#[export] Instance hasDetector : HasDetector State :=
  {| getDetector := detector; setDetector := withDetector |}.

(** [notes.map((n) => parseNoteName(n).pc)] *)
Fixpoint pitchClassesOf (ns : list string) : result (list string) :=
  match ns with
  | [] => Return []
  | n :: rest =>
      match parseNoteName n with
      | Throw e => Throw e
      | Return note =>
          match pitchClassesOf rest with
          | Throw e => Throw e
          | Return pcs => Return (pc note :: pcs)
          end
      end
  end.

(** [pickRandomChord()], with the chord that the draw ends on. *)
Definition pickRandomChord (next : Chord) (s : State) : State * result unit :=
  match pitchClassesOf (notes next) with
  | Throw e =>
      (mkState (Some next) (expectedPitchClasses s) (userPitchClasses s)
               (detector s) (recordStartTime s) (status s) (pianoStars s),
       Throw e)
  | Return pcs =>
      (mkState (Some next) pcs [] (detector s) (recordStartTime s)
               (mkStatus "" (className (status s))) (pianoStars s),
       Return tt)
  end.

Definition tooMany : string := "Zagrałeś za dużo nut. Spróbuj ponownie.".

(** The [onFrequency] callback of [startRecording], from the point where
    the pitch class is known. *)
Definition onPitchClass (pitchClass : string) (clock : R) : M State unit :=
  s <- get ;;
  when (negb (includes (userPitchClasses s) pitchClass)) (
    modify (withUser (userPitchClasses s ++ [pitchClass])) ;;
    s <- get ;;
    let allMatch :=
      forallb (fun pc => includes (userPitchClasses s) pc)
              (expectedPitchClasses s) in
    when allMatch (
      let n := stars (recordStartTime s) clock 5 10 in
      modify (withStatus
                (mkStatus ("Brawo! Zagrałeś poprawny akord. " ++ starString n)
                          "status result-success")) ;;
      modify (fun s => withStars (addStars n (pianoStars s)) s) ;;
      stopDetector
    ) ;;
    s <- get ;;
    when (List.length (expectedPitchClasses s)
          <? List.length (userPitchClasses s))%nat (
      modify (withStatus (mkStatus tooMany "status result-failure")) ;;
      stopDetector
    )
  ).

(** The [onFrequency] callback of [startRecording]. *)
Definition onFrequency (freq clock : R) : M State unit :=
  match freqToPitchClass freq with
  | None => ret tt
  | Some pitchClass => onPitchClass pitchClass clock
  end.

Definition noteEvents := Listener.noteEvents onFrequency.
Definition audio := Listener.audio onFrequency.

(** [startRecording()]: the clock reading taken for [recordStartTime] and
    the answers of the browser to [detector.start()].  A detector held
    from before is stopped and replaced by the new one. *)
Definition startRecording (clock : R) (env : NoteDetector.Env) (s : State)
  : State * list NoteDetector.Effect * NoteDetector.Settled :=
  let '(d, shown, settled) :=
    NoteDetector.start env (NoteDetector.new (Some 0.85%R)) in
  (mkState (currentChord s) (expectedPitchClasses s) [] (Some d)
           (Some clock) (mkStatus listening (className (status s)))
           (pianoStars s),
   shown, settled).

End Chords.

(** ** The interval exercise (src/unnamed/part_000, after common.js) *)

Module Intervals.
Import JS Eff Common Listener.
Local Open Scope eff_scope.

Record State : Type := mkState {
  currentIntervalSemitone : option Z;
  currentIntervalDescription : string;
  expectedIntervalNotes : list string;
  userPitchClasses : list string;
  detector : option NoteDetector.t;
  recordStartTime : option R;
  status : Status;
  pianoStars : Z
}.

Definition withDetector (d : option NoteDetector.t) (s : State) : State :=
  mkState (currentIntervalSemitone s) (currentIntervalDescription s)
          (expectedIntervalNotes s) (userPitchClasses s) d
          (recordStartTime s) (status s) (pianoStars s).

Definition withUser (u : list string) (s : State) : State :=
  mkState (currentIntervalSemitone s) (currentIntervalDescription s)
          (expectedIntervalNotes s) u (detector s)
          (recordStartTime s) (status s) (pianoStars s).

Definition withStatus (st : Status) (s : State) : State :=
  mkState (currentIntervalSemitone s) (currentIntervalDescription s)
          (expectedIntervalNotes s) (userPitchClasses s) (detector s)
          (recordStartTime s) st (pianoStars s).

Definition withStars (n : Z) (s : State) : State :=
  mkState (currentIntervalSemitone s) (currentIntervalDescription s)
          (expectedIntervalNotes s) (userPitchClasses s) (detector s)
          (recordStartTime s) (status s) n.

#[export] Instance hasDetector : HasDetector State :=
  {| getDetector := detector; setDetector := withDetector |}.

Definition failureMessage (actual : string) : string :=
  "Niestety, to " ++ actual ++ ". Spróbuj ponownie.".

(** [evaluateInterval()], with the clock reading of a success. *)
Definition evaluateInterval (clock : R) : M State unit :=
  s <- get ;;
  match userPitchClasses s with
  | n1 :: n2 :: _ =>
      let idx1 := indexOf NOTE_NAMES n1 in
      let idx2 := indexOf NOTE_NAMES n2 in
      if (idx1 =? -1) || (idx2 =? -1) then ret tt
      else
        let diff := Z.rem (Z.rem (idx2 - idx1) 12 + 12) 12 in
        if match currentIntervalSemitone s with
           | Some t => diff =? t
           | None => false
           end
        then
          let n := stars (recordStartTime s) clock 4 8 in
          modify (withStatus
                    (mkStatus
                       ("Świetnie! Poprawnie rozpoznałeś interwał. " ++ starString n)
                       "status result-success")) ;;
          modify (fun s => withStars (addStars n (pianoStars s)) s)
        else
          let actual := intervalNameFromSemitone diff in
          modify (withStatus
                    (mkStatus (failureMessage actual) "status result-failure"))
  | _ => ret tt
  end.

(** The [onFrequency] callback of [startRecording], from the point where
    the pitch class is known. *)
Definition onPitchClass (pc : string) (clock : R) : M State unit :=
  s <- get ;;
  when (negb (includes (userPitchClasses s) pc)) (
    modify (withUser (userPitchClasses s ++ [pc])) ;;
    s <- get ;;
    when (List.length (userPitchClasses s) =? 2)%nat (
      stopDetector ;;
      evaluateInterval clock
    )
  ).

(** The [onFrequency] callback of [startRecording]. *)
Definition onFrequency (freq clock : R) : M State unit :=
  match freqToPitchClass freq with
  | None => ret tt
  | Some pc => onPitchClass pc clock
  end.

Definition noteEvents := Listener.noteEvents onFrequency.
Definition audio := Listener.audio onFrequency.

(** [startRecording()]. *)
Definition startRecording (clock : R) (env : NoteDetector.Env) (s : State)
  : State * list NoteDetector.Effect * NoteDetector.Settled :=
  let '(d, shown, settled) :=
    NoteDetector.start env (NoteDetector.new (Some 0.85%R)) in
  (mkState (currentIntervalSemitone s) (currentIntervalDescription s)
           (expectedIntervalNotes s) [] (Some d) (Some clock)
           (mkStatus listening "status") (pianoStars s),
   shown, settled).

End Intervals.

(** ** memory.js *)

Module Memory.
Import JS Eff Common Listener.
Local Open Scope eff_scope.

Definition SEQ_LENGTH : Z := 3.

Definition naturals : list string := ["C"; "D"; "E"; "F"; "G"; "A"; "B"].

Record State : Type := mkState {
  expectedSequence : list string;
  userSequence : list string;
  detector : option NoteDetector.t;
  recordStartTime : option R;
  status : Status;
  pianoStars : Z
}.

Definition withDetector (d : option NoteDetector.t) (s : State) : State :=
  mkState (expectedSequence s) (userSequence s) d (recordStartTime s)
          (status s) (pianoStars s).

Definition withUser (u : list string) (s : State) : State :=
  mkState (expectedSequence s) u (detector s) (recordStartTime s)
          (status s) (pianoStars s).

Definition withStatus (st : Status) (s : State) : State :=
  mkState (expectedSequence s) (userSequence s) (detector s)
          (recordStartTime s) st (pianoStars s).

Definition withStars (n : Z) (s : State) : State :=
  mkState (expectedSequence s) (userSequence s) (detector s)
          (recordStartTime s) (status s) n.

#[export] Instance hasDetector : HasDetector State :=
  {| getDetector := detector; setDetector := withDetector |}.

(** The loop of [evaluateSequence] over the indices of the expected
    sequence: [false] at the first index whose two entries differ, an
    index past the end of the user sequence reading [undefined]. *)
Fixpoint allEqual (expected user : list string) : bool :=
  match expected with
  | [] => true
  | e :: es =>
      match user with
      | u :: us => if String.eqb e u then allEqual es us else false
      | [] => false
      end
  end.

Definition wrongCount : string :=
  "Liczba dźwięków się nie zgadza. Spróbuj ponownie.".
Definition wrongSequence : string :=
  "Niestety, sekwencja była inna. Spróbuj ponownie.".

(** [evaluateSequence()], with the clock reading of a success. *)
Definition evaluateSequence (clock : R) : M State unit :=
  s <- get ;;
  if negb (List.length (userSequence s) =? List.length (expectedSequence s))%nat
  then modify (withStatus (mkStatus wrongCount "status result-failure"))
  else if allEqual (expectedSequence s) (userSequence s) then
    let fastThreshold := IZR (SEQ_LENGTH * 2) in
    let midThreshold := IZR (SEQ_LENGTH * 4) in
    let n := stars (recordStartTime s) clock fastThreshold midThreshold in
    modify (withStatus
              (mkStatus
                 ("Doskonale! Powtórzyłeś sekwencję poprawnie. " ++ starString n)
                 "status result-success")) ;;
    modify (fun s => withStars (addStars n (pianoStars s)) s)
  else modify (withStatus (mkStatus wrongSequence "status result-failure")).

(** The [onFrequency] callback of [startRecording], from the point where
    the pitch class is known. *)
Definition onPitchClass (pc : string) (clock : R) : M State unit :=
  if negb (includes naturals pc) then ret tt
  else
    s <- get ;;
    when (List.length (userSequence s) <? List.length (expectedSequence s))%nat (
      modify (withUser (userSequence s ++ [pc])) ;;
      s <- get ;;
      when (List.length (userSequence s) =? List.length (expectedSequence s))%nat (
        stopDetector ;;
        evaluateSequence clock
      )
    ).

(** The [onFrequency] callback of [startRecording]. *)
Definition onFrequency (freq clock : R) : M State unit :=
  match freqToPitchClass freq with
  | None => ret tt
  | Some pc => onPitchClass pc clock
  end.

Definition noteEvents := Listener.noteEvents onFrequency.
Definition audio := Listener.audio onFrequency.

(** [startRecording()]. *)
Definition startRecording (clock : R) (env : NoteDetector.Env) (s : State)
  : State * list NoteDetector.Effect * NoteDetector.Settled :=
  let '(d, shown, settled) :=
    NoteDetector.start env (NoteDetector.new (Some 0.85%R)) in
  (mkState (expectedSequence s) [] (Some d) (Some clock)
           (mkStatus listening "status") (pianoStars s),
   shown, settled).

End Memory.

(** ** reading.js *)

Module Reading.
Import JS Eff Common Listener.
Local Open Scope eff_scope.

Definition NATURAL_NOTES : list string :=
  ["E4"; "F4"; "G4"; "A4"; "B4"; "C5"; "D5"; "E5"; "F5"].

Record State : Type := mkState {
  currentNote : option string;
  detector : option NoteDetector.t;
  recordStartTime : option R;
  status : Status;
  pianoStars : Z
}.

Definition withDetector (d : option NoteDetector.t) (s : State) : State :=
  mkState (currentNote s) d (recordStartTime s) (status s) (pianoStars s).

Definition withStatus (st : Status) (s : State) : State :=
  mkState (currentNote s) (detector s) (recordStartTime s) st (pianoStars s).

Definition withStars (n : Z) (s : State) : State :=
  mkState (currentNote s) (detector s) (recordStartTime s) (status s) n.

#[export] Instance hasDetector : HasDetector State :=
  {| getDetector := detector; setDetector := withDetector |}.

(** [parseNoteName(currentNote)] inside the callback: [null] has no
    [trim]. *)
Definition parseCurrent (s : State) : State * result Note :=
  match currentNote s with
  | None => (s, Throw "TypeError: Cannot read properties of null (reading 'trim')")
  | Some n => (s, parseNoteName n)
  end.

Definition wrongNote (naturalPc : string) : string :=
  "To był dźwięk " ++ naturalPc ++ ". Spróbuj ponownie.".

(** The [onFrequency] callback of [startRecording], from the point where
    the pitch class is known. *)
Definition onPitchClass (pc : string) (clock : R) : M State unit :=
  let naturalPc := remove_first_sharp pc in
  note <- parseCurrent ;;
  let expectedPc := remove_first_sharp (Common.pc note) in
  (if String.eqb naturalPc expectedPc then
     s <- get ;;
     let n := stars (recordStartTime s) clock 3 6 in
     modify (withStatus
               (mkStatus ("Brawo! Poprawna nuta. " ++ starString n)
                         "status result-success")) ;;
     modify (fun s => withStars (addStars n (pianoStars s)) s)
   else
     modify (withStatus
               (mkStatus (wrongNote naturalPc) "status result-failure"))) ;;
  stopDetector.

(** The [onFrequency] callback of [startRecording]. *)
Definition onFrequency (freq clock : R) : M State unit :=
  match freqToPitchClass freq with
  | None => ret tt
  | Some pc => onPitchClass pc clock
  end.

Definition noteEvents := Listener.noteEvents onFrequency.
Definition audio := Listener.audio onFrequency.

(** [generateNewNote()], with the note that the draw gives. *)
Definition generateNewNote (note : string) (s : State) : State :=
  mkState (Some note) None (recordStartTime s) (mkStatus "" "status")
          (pianoStars s).

(** [startRecording()]; nothing happens without a current note. *)
Definition startRecording (clock : R) (env : NoteDetector.Env) (s : State)
  : State * list NoteDetector.Effect * NoteDetector.Settled :=
  match currentNote s with
  | None => (s, [], NoteDetector.Resolved)
  | Some _ =>
      let '(d, shown, settled) :=
        NoteDetector.start env (NoteDetector.new (Some 0.85%R)) in
      (mkState (currentNote s) (Some d) (Some clock)
               (mkStatus listening "status") (pianoStars s),
       shown, settled)
  end.

End Reading.

(** ** The note-name grammar, as the specification words it *)

Module NoteNameSpec.
Import Common.

(** A letter A to G in either case, and the upper-case letter it names. *)
Definition letters : list (ascii * string) :=
  [ ("A"%char, "A"); ("B"%char, "B"); ("C"%char, "C"); ("D"%char, "D");
    ("E"%char, "E"); ("F"%char, "F"); ("G"%char, "G");
    ("a"%char, "A"); ("b"%char, "B"); ("c"%char, "C"); ("d"%char, "D");
    ("e"%char, "E"); ("f"%char, "F"); ("g"%char, "G") ].

(** The semitone of a letter above C. *)
Definition semitoneOf (letter : string) : Z :=
  if String.eqb letter "C" then 0
  else if String.eqb letter "D" then 2
  else if String.eqb letter "E" then 4
  else if String.eqb letter "F" then 5
  else if String.eqb letter "G" then 7
  else if String.eqb letter "A" then 9
  else 11.

(** The pitch class of a letter with its accidental: the letter, the
    letter with its sharp, or, for a flat, the name one semitone below the
    letter, B following below C. *)
Definition spelled (letter accidental : string) : option string :=
  if String.eqb accidental "" then Some letter
  else if String.eqb accidental "#" then Some (letter ++ "#")
  else if String.eqb accidental "b" then
    nth_error NOTE_NAMES (Z.to_nat ((semitoneOf letter - 1) mod 12))
  else None.

(** A text of the shape letter, optional accidental, optional minus sign
    and decimal digits, and the note it denotes. *)
Inductive Denotes : string -> Note -> Prop :=
| denotes (l : ascii) (letter accidental pc digits : string)
          (negative : bool) (u : Decimal.uint) :
    In (l, letter) letters ->
    spelled letter accidental = Some pc ->
    NilZero.uint_of_string digits = Some u ->
    Denotes
      (String l (accidental ++ (if negative then "-" else "") ++ digits))
      (mkNote pc (if negative then - Z.of_uint u else Z.of_uint u)).

End NoteNameSpec.

(** ** Inputs of the examples *)

Module Examples.
Import JS Common NoteDetector.

(** The browser grants the microphone, or refuses it. *)
Definition granted : Env := mkEnv (Return tt) (Return tt).
Definition denied : Env := mkEnv (Return tt) (Throw "NotAllowedError").

(** A detector as the exercise modules create it, after [start()] with
    the microphone granted. *)
Definition running : NoteDetector.t :=
  fst (fst (start granted (new (Some 0.85%R)))).

(** Clear buffers: A4 at 1000 ms, then a C4 at 1250 ms and at 1300 ms. *)
Definition bufferA : Frame := mkFrame 440 0.9 1000 1001.
Definition bufferAt1250 : Frame := mkFrame 262 0.95 1250 1251.
Definition bufferAt1300 : Frame := mkFrame 262 0.95 1300 1301.

(** The tones C4, C#4, D4, E4, F4, G4 and A#4. *)
Definition C4 : R := midiToFreq 60.
Definition Cs4 : R := midiToFreq 61.
Definition D4 : R := midiToFreq 62.
Definition E4 : R := midiToFreq 64.
Definition F4 : R := midiToFreq 65.
Definition G4 : R := midiToFreq 67.
Definition As4 : R := midiToFreq 70.

(** The chord exercise on C major, listening. *)
Definition chordListening : Chords.State :=
  fst (fst (Chords.startRecording 500 granted
              (fst (Chords.pickRandomChord
                      (Chords.mkChord "C dur" ["C4"; "E4"; "G4"])
                      (Chords.mkState None [] [] None None
                                      (Listener.mkStatus "" "status") 0))))).

(** The interval exercise on a perfect fifth from C3, listening. *)
Definition intervalListening : Intervals.State :=
  fst (fst (Intervals.startRecording 500 granted
              (Intervals.mkState (Some 7) "kwinta czysta" ["C3"; "G3"] []
                                 None None (Listener.mkStatus "" "status") 0))).

(** The memory exercise on the sequence C, E, G, listening. *)
Definition memoryListening : Memory.State :=
  fst (fst (Memory.startRecording 500 granted
              (Memory.mkState ["C"; "E"; "G"] [] None None
                              (Listener.mkStatus "" "status") 0))).

(** The note-reading exercise on A4, before and after the recording
    starts. *)
Definition readingA4 : Reading.State :=
  Reading.generateNewNote "A4"
    (Reading.mkState None None None (Listener.mkStatus "" "status") 0).


End Examples.

(** ** common.js: settings, playback and distances *)

Module Playback.
Import JS Common.

(** The two module-level settings, [currentWaveform] and [slowFactor]. *)
Record Settings : Type := mkSettings { currentWaveform : string; slowFactor : R }.

Definition initialSettings : Settings := mkSettings "sine" 1.

(** [setWaveform(wf)]. *)
Definition setWaveform (wf : string) (g : Settings) : Settings :=
  mkSettings
    (if includes ["sine"; "square"; "triangle"; "sawtooth"] wf then wf else "sine")
    (slowFactor g).

(** What [setSlowMode] is documented to take: a number or a boolean. *)
Inductive Flag : Type :=
| Number (x : R)
| Boolean (b : bool).

(** [setSlowMode(enable)]; a number is truthy when it is not [0]. *)
Definition setSlowMode (enable : Flag) (g : Settings) : Settings :=
  mkSettings (currentWaveform g)
    match enable with
    | Number x =>
        if Rge_dec x 1 then x
        else if Req_dec_T x 0 then 1%R
        else 2%R
    | Boolean true => 2%R
    | Boolean false => 1%R
    end.

(** [pitchClassToFreq(pc, octave)] at an octave that is any number, as
    [playSingleNote] calls it. *)
Definition pitchClassToFreqAt (pc : string) (octave : R) : result R :=
  let semitone := indexOf NOTE_NAMES pc in
  if semitone <? 0 then Throw ("Unknown pitch class: " ++ pc)
  else
    let midi := (IZR semitone + (octave + 1) * 12)%R in
    Return (440 * Math_pow 2 ((midi - 69) / 12))%R.

(** [noteNameToFreq(name)]. *)
Definition noteNameToFreq (name : string) : result R :=
  match parseNoteName name with
  | Throw e => Throw e
  | Return note => pitchClassToFreq (pc note) (octave note)
  end.


(** One oscillator as it is set up: its frequency, type and gain, and when
    it starts and stops, in seconds after the [currentTime] that the audio
    context had when it was created. *)
Record Tone : Type := mkTone {
  frequency : R;
  waveform : string;
  volume : R;
  startAt : R;
  stopAt : R
}.

(** What a playback function has done when it returns or throws: the
    oscillators started so far, and the delay in milliseconds after which
    the audio context is closed, or the error thrown. *)
Definition Played : Type := (list Tone * result R)%type.

(** An argument that was left out is [None]. *)
Definition orDefault (x : option R) (d : R) : R :=
  match x with Some v => v | None => d end.

(** [playSingleNote(pcOrName, octave, duration = 1, volume = 0.3)], with
    the second argument a number or left out. *)
Definition playSingleNote (g : Settings) (pcOrName : string)
           (octave duration volume : option R) : Played :=
  let picked :=
    match octave with
    | Some o =>
        (pitchClassToFreqAt pcOrName o, orDefault duration 1, orDefault volume 0.3)
    | None =>
        (noteNameToFreq pcOrName, orDefault octave 1, orDefault duration 0.3)
    end in
  let '(freq, duration, volume) := picked in
  match freq with
  | Throw e => ([], Throw e)
  | Return f =>
      let dur := (duration * slowFactor g)%R in
      ([mkTone f (currentWaveform g) volume 0 dur], Return (dur * 1000 + 100)%R)
  end.

(** A note given to [playChord] or [playInterval]: a name, or an object
    with [pc] and [octave]. *)
Inductive NoteArg : Type :=
| Named (name : string)
| Pitched (pc : string) (octave : R).

Definition noteFreq (n : NoteArg) : result R :=
  match n with
  | Named name => noteNameToFreq name
  | Pitched pc octave => pitchClassToFreqAt pc octave
  end.

(** The [forEach] of [playChord]: the oscillators it has started when it
    ends or throws. *)
Fixpoint chordTones (g : Settings) (duration volume : R) (notes : list NoteArg)
  : list Tone * result unit :=
  match notes with
  | [] => ([], Return tt)
  | n :: rest =>
      match noteFreq n with
      | Throw e => ([], Throw e)
      | Return f =>
          let '(tones, r) := chordTones g duration volume rest in
          (mkTone f (currentWaveform g) volume 0 (duration * slowFactor g) :: tones, r)
      end
  end.

(** [playChord(notes, duration = 1, volume = 0.25)]. *)
Definition playChord (g : Settings) (notes : list NoteArg)
           (duration volume : option R) : Played :=
  let duration := orDefault duration 1 in
  let volume := orDefault volume 0.25 in
  match chordTones g duration volume notes with
  | (tones, Throw e) => (tones, Throw e)
  | (tones, Return _) => (tones, Return (duration * slowFactor g * 1000 + 200)%R)
  end.

(** The [forEach] of [playInterval], from the index [idx] on. *)
Fixpoint intervalTones (g : Settings) (dur volume : R) (idx : Z)
         (notes : list NoteArg) : list Tone * result unit :=
  match notes with
  | [] => ([], Return tt)
  | n :: rest =>
      match noteFreq n with
      | Throw e => ([], Throw e)
      | Return f =>
          let '(tones, r) := intervalTones g dur volume (idx + 1) rest in
          (mkTone f (currentWaveform g) volume (IZR idx * dur) (IZR (idx + 1) * dur)
             :: tones, r)
      end
  end.

(** [playInterval(notes, duration = 0.8, volume = 0.3)] on an array. *)
Definition playInterval (g : Settings) (notes : list NoteArg)
           (duration volume : option R) : Played :=
  let duration := orDefault duration 0.8 in
  let volume := orDefault volume 0.3 in
  if negb (List.length notes =? 2)%nat
  then ([], Throw "playInterval expects an array of two notes")
  else
    let dur := (duration * slowFactor g)%R in
    match intervalTones g dur volume 0 notes with
    | (tones, Throw e) => (tones, Throw e)
    | (tones, Return _) =>
        (tones, Return (dur * IZR (Z.of_nat (List.length notes)) * 1000 + 200)%R)
    end.

End Playback.

(** ** Runs of the two setters of common.js *)

Module SettingRuns.
Import JS Playback.

(** A call of [setWaveform] or of [setSlowMode]. *)
Inductive SettingCall : Type :=
| CallSetWaveform (wf : string)
| CallSetSlowMode (enable : Flag).

Definition applyCall (c : SettingCall) (g : Settings) : Settings :=
  match c with
  | CallSetWaveform wf => setWaveform wf g
  | CallSetSlowMode enable => setSlowMode enable g
  end.

(** The settings after a series of calls, from the values the module
    starts with. *)
Definition settingsAfter (calls : list SettingCall) : Settings :=
  fold_left (fun g c => applyCall c g) calls initialSettings.

End SettingRuns.

(** ** Runs of the note detector *)

Module DetectorRuns.
Import NoteDetector.

(** The buffers that a run of the detector hands to the callback. *)
Fixpoint handedOver (fs : list Frame) (d : t) : list Frame :=
  match fs with
  | [] => []
  | f :: rest =>
      match deliver f d with
      | (d', Some _) => f :: handedOver rest d'
      | (d', None) => handedOver rest d'
      end
  end.

(** Each buffer of the list was read more than 250 ms after the one before
    it, the first more than 250 ms after [last]. *)
Fixpoint spaced (last : R) (hs : list Frame) : Prop :=
  match hs with
  | [] => True
  | f :: rest => (now f - last > 250)%R /\ spaced (now f) rest
  end.

End DetectorRuns.

(** ** The interval exercise: a new interval and its playback *)

Module IntervalsSetup.
Import JS Eff Common Listener Intervals Playback.

Record IntervalOption : Type := mkOption { semitone : Z; name : string }.

Definition INTERVAL_OPTIONS : list IntervalOption :=
  [ mkOption 1 "sekunda mała"; mkOption 2 "sekunda wielka";
    mkOption 3 "tercja mała"; mkOption 4 "tercja wielka";
    mkOption 5 "kwarta czysta"; mkOption 6 "tryton";
    mkOption 7 "kwinta czysta"; mkOption 8 "seksta mała";
    mkOption 9 "seksta wielka"; mkOption 10 "septyma mała";
    mkOption 11 "septyma wielka" ].

Definition BASE_NOTES : list string :=
  ["C3"; "D3"; "E3"; "F3"; "G3"; "A3"; "B3"; "C4"; "D4"; "E4"].

(** The name of the second note, [`${secondPc}${secondOct}`], from the MIDI
    number of the base and the semitones of the interval. *)
Definition secondNoteName (midiBase semitones : Z) : string :=
  let midiSecond := midiBase + semitones in
  let secondPc :=
    match at_index NOTE_NAMES (Z.rem (Z.rem midiSecond 12 + 12) 12) with
    | Some p => p
    | None => "undefined"
    end in
  let secondOct := midiSecond / 12 - 1 in
  secondPc ++ showZ secondOct.

(** The loop that shows the pitch classes of the expected notes: it
    parses each name. *)
Fixpoint parseAll (names : list string) : result unit :=
  match names with
  | [] => Return tt
  | n :: rest =>
      match parseNoteName n with
      | Throw e => Throw e
      | Return _ => parseAll rest
      end
  end.

(** [pickRandomInterval()], with the option and the base note that the two
    draws give. *)
Definition pickRandomInterval (option : IntervalOption) (baseName : string)
           (s : State) : State * result unit :=
  let s1 :=
    mkState (Some (semitone option)) (name option) (expectedIntervalNotes s)
            (userPitchClasses s) (detector s) (recordStartTime s) (status s)
            (pianoStars s) in
  match parseNoteName baseName with
  | Throw e => (s1, Throw e)
  | Return base =>
      let midiBase := indexOf NOTE_NAMES (pc base) + (octave base + 1) * 12 in
      let expected := [baseName; secondNoteName midiBase (semitone option)] in
      let s2 :=
        mkState (Some (semitone option)) (name option) expected
                (userPitchClasses s) (detector s) (recordStartTime s) (status s)
                (pianoStars s) in
      match parseAll expected with
      | Throw e => (s2, Throw e)
      | Return _ =>
          (mkState (Some (semitone option)) (name option) expected []
                   (detector s) (recordStartTime s) (mkStatus "" "status")
                   (pianoStars s),
           Return tt)
      end
  end.

(** The click handler of the play button. *)
Definition playClick (g : Settings) (s : State) : option Played :=
  if negb (List.length (expectedIntervalNotes s) =? 2)%nat then None
  else Some (playInterval g (map Named (expectedIntervalNotes s)) (Some 0.8%R) None).

End IntervalsSetup.

(** ** The chord exercise: playback, and words for its runs *)

Module ChordsSetup.
Import JS Common Listener Chords Playback.

(** The click handler of the play button. *)
Definition playClick (g : Settings) (s : State) : option Played :=
  match currentChord s with
  | None => None
  | Some chord => Some (playChord g (map Named (notes chord)) (Some 1.5%R) None)
  end.

(** A pitch class joins the ones heard unless it is among them. *)
Definition recordNew (heard : list string) (pc : string) : list string :=
  if includes heard pc then heard else (heard ++ [pc])%list.

(** The different pitch classes of a list, each at its first place. *)
Definition distinct (pcs : list string) : list string :=
  fold_left recordNew pcs [].

(** Every pitch class of the target is among the ones heard. *)
Definition covers (target heard : list string) : bool :=
  forallb (fun pc => includes heard pc) target.

End ChordsSetup.

(** ** common.js: the star counter in [localStorage]; the progress page
    (src/reading.js, after the reading exercise) *)

Module Storage.
Import JS Common.

(** [localStorage] as far as the sources use it: the text under the key
    ["pianoStars"] ([None] while the key is absent), and whether reading
    and writing work or throw. *)
Record Store : Type := mkStore {
  readable : bool;
  writable : bool;
  pianoStars : option string
}.

(** A number that is an integer, or [NaN] ([None]). *)
Definition Count : Type := option Z.

(** The longest prefix of decimal digits. *)
Fixpoint digitPrefix (s : string) : string :=
  match s with
  | EmptyString => EmptyString
  | String a r => if isDigit a then String a (digitPrefix r) else EmptyString
  end.

(** [parseInt(s, 10)]: white space at the front is skipped, one sign is
    read, then the digits that follow; without a digit the result is
    [NaN]. *)
Definition parseInt (s : string) : Count :=
  let body := strip true s in
  let '(negative, rest) :=
    match body with
    | String "-" r => (true, r)
    | String "+" r => (false, r)
    | _ => (false, body)
    end in
  match digitPrefix rest with
  | EmptyString => None
  | String _ _ as digits =>
      Some (if negative then - digitsValue 0 digits else digitsValue 0 digits)
  end.

(** The text that [setItem] stores for a number. *)
Definition numberToString (x : Count) : string :=
  match x with
  | Some z => showZ z
  | None => "NaN"
  end.

(** [current + n]. *)
Definition plus (x : Count) (n : Z) : Count :=
  match x with
  | Some z => Some (z + n)
  | None => None
  end.

(** [localStorage.getItem('pianoStars') || '0'] where reading works. *)
Definition storedText (st : Store) : string :=
  match pianoStars st with
  | None => "0"
  | Some EmptyString => "0"
  | Some (String _ _ as t) => t
  end.

(** [addStars(n)]: an error of the storage is caught and dropped. *)
Definition addStars (n : Z) (st : Store) : Store :=
  if readable st then
    let current := parseInt (storedText st) in
    if writable st then
      mkStore (readable st) (writable st) (Some (numberToString (plus current n)))
    else st
  else st.

(** [getStarCount()]. *)
Definition getStarCount (st : Store) : Count :=
  if readable st then parseInt (storedText st) else Some 0.

(** The click handler of the reset button, up to [renderStars()]. *)
Definition reset (st : Store) : Store :=
  if writable st then mkStore (readable st) (writable st) (Some "0") else st.

(** The text that [renderStars()] shows for a count. *)
Definition renderStars (count : Count) : string :=
  match count with
  | None => ""
  | Some c =>
      let stars := repeat_string "★" (Z.to_nat (Z.min c 10)) in
      if c >? 10 then stars ++ " (" ++ showZ c ++ ")"
      else if c =? 0 then "–"
      else stars
  end.

(** The stars of a series of awards, one call of [addStars] each. *)
Definition awards (ns : list Z) (st : Store) : Store :=
  fold_left (fun st n => addStars n st) ns st.

End Storage.

(** ** rhythm.js *)

Module Rhythm.
Import JS.

Record Pattern : Type := mkPattern { durations : list R; name : string }.

Definition patterns : list Pattern :=
  [ mkPattern [1; 0.5; 0.5; 1]%R "Rytm 1";
    mkPattern [0.5; 0.5; 1; 0.5; 1.5]%R "Rytm 2";
    mkPattern [0.75; 0.75; 0.75; 0.75]%R "Rytm prosty";
    mkPattern [1.5; 0.5; 0.5; 0.5; 1]%R "Rytm asymetryczny" ].

Definition tolerance : R := 0.3.

(** The variables of the module, the status element and the star counter. *)
Record State : Type := mkState {
  currentPattern : option Pattern;
  userTaps : list R;
  listening : bool;
  lastTapTime : option R;
  status : Listener.Status;
  pianoStars : Z
}.

Definition wrongCount : string := "Nie nacisnąłeś odpowiedniej liczby razy.".
Definition inexact : string := "Rytm nie był dokładny. Spróbuj ponownie.".
Definition yourTurn : string := "Teraz Twój ruch! Klikaj w rytmie.".

(** The [diff] of each round of the loop of [evaluateRhythm]; the loop runs
    where the two arrays have the same length. *)
Fixpoint deviations (expected user : list R) : list R :=
  match expected, user with
  | e :: es, u :: us => Rabs (u - e) :: deviations es us
  | _, _ => []
  end.

(** [diff > tolerance] does not hold. *)
Definition withinTolerance (diff : R) : bool :=
  if Rgt_dec diff tolerance then false else true.

(** The stars for a total deviation over [n] beats; for no beat the
    average is [0 / 0], which no comparison holds of. *)
Definition starsFor (totalDeviation : R) (n : nat) : Z :=
  match n with
  | O => 1
  | S _ =>
      let avgDev := (totalDeviation / INR n)%R in
      if Rle_dec avgDev 0.1 then 3
      else if Rle_dec avgDev 0.2 then 2
      else 1
  end.

(** [evaluateRhythm()]. *)
Definition evaluateRhythm (s : State) : State :=
  match currentPattern s with
  | None => s
  | Some p =>
      let expected := durations p in
      if negb (List.length (userTaps s) =? List.length expected)%nat then
        mkState (currentPattern s) (userTaps s) (listening s) (lastTapTime s)
                (Listener.mkStatus wrongCount "status result-failure")
                (pianoStars s)
      else
        let diffs := deviations expected (userTaps s) in
        let ok := forallb withinTolerance diffs in
        let totalDeviation := fold_left Rplus diffs 0%R in
        if ok then
          let stars := starsFor totalDeviation (List.length expected) in
          mkState (currentPattern s) (userTaps s) false (lastTapTime s)
                  (Listener.mkStatus
                     ("Świetnie! Prawidłowo powtórzyłeś rytm. "
                      ++ Listener.starString stars)
                     "status result-success")
                  (Common.addStars stars (pianoStars s))
        else
          mkState (currentPattern s) (userTaps s) false (lastTapTime s)
                  (Listener.mkStatus inexact "status result-failure")
                  (pianoStars s)
  end.

(** [handleTap()], with the reading of the clock. *)
Definition handleTap (now : R) (s : State) : State * result unit :=
  if negb (listening s) then (s, Return tt)
  else
    match lastTapTime s with
    | None =>
        (mkState (currentPattern s) (userTaps s) (listening s) (Some now)
                 (status s) (pianoStars s),
         Return tt)
    | Some last =>
        let interval := ((now - last) / 1000)%R in
        let s1 :=
          mkState (currentPattern s) (userTaps s ++ [interval]) (listening s)
                  (Some now) (status s) (pianoStars s) in
        match currentPattern s1 with
        | None =>
            (s1, Throw "TypeError: Cannot read properties of null (reading 'durations')")
        | Some p =>
            if (List.length (userTaps s1) =? List.length (durations p))%nat then
              let s2 := evaluateRhythm s1 in
              (mkState (currentPattern s2) (userTaps s2) (listening s2) None
                       (status s2) (pianoStars s2),
               Return tt)
            else (s1, Return tt)
        end
    end.

(** [playPattern()] up to the timers it sets, with the pattern drawn. *)
Definition playPattern (pattern : Pattern) (s : State) : State :=
  mkState (Some pattern) (userTaps s) (listening s) (lastTapTime s)
          (Listener.mkStatus "Słuchaj rytmu..." "status") (pianoStars s).

(** The last timer of [playPattern]: tapping is enabled. *)
Definition tappingEnabled (s : State) : State :=
  mkState (currentPattern s) [] true (lastTapTime s)
          (Listener.mkStatus yourTurn (Listener.className (status s)))
          (pianoStars s).

(** Clicks that reach the handler of the tap button (the button is
    disabled while a pattern plays), at the given readings of the clock;
    what a handler throws ends that handler only. *)
Definition taps (times : list R) (s : State) : State :=
  fold_left (fun s now => fst (handleTap now s)) times s.

(** The intervals, in seconds, between consecutive taps from [t0] on. *)
Fixpoint intervalsOf (t0 : R) (ts : list R) : list R :=
  match ts with
  | [] => []
  | t :: rest => ((t - t0) / 1000)%R :: intervalsOf t rest
  end.

End Rhythm.

(** ** reading.js: the staff *)

Module ReadingStaff.
Import JS Common Reading Playback.

Definition LINE_SPACING : Z := 14.
Definition BASE_Y : Z := 130.

Definition DIATONIC_ORDER : list string := ["C"; "D"; "E"; "F"; "G"; "A"; "B"].

(** [s.replace(/[#b]/, '')]: the first ['#'] or ['b'] is removed. *)
Fixpoint remove_first_accidental (s : string) : string :=
  match s with
  | EmptyString => EmptyString
  | String c r =>
      if isAccidental c then r else String c (remove_first_accidental r)
  end.

(** [diatonicDistanceFromE4(name)]. *)
Definition diatonicDistanceFromE4 (name : string) : result Z :=
  match parseNoteName name with
  | Throw e => Throw e
  | Return note =>
      let letter := remove_first_accidental (pc note) in
      let idx := indexOf DIATONIC_ORDER letter in
      let e4Idx := indexOf DIATONIC_ORDER "E" in
      Return ((octave note - 4) * 7 + (idx - e4Idx))
  end.

(** [for (let d = from; d <= to; d += 2)]: the values of [d] in the rounds
    of the loop, at most [fuel] of them. *)
Fixpoint ledgerLoop (fuel : nat) (d limit : Z) : list Z :=
  match fuel with
  | O => []
  | S k => if d <=? limit then d :: ledgerLoop k (d + 2) limit else []
  end.

(** The loop with rounds enough to reach its end. *)
Definition ledgerSteps (d limit : Z) : list Z :=
  ledgerLoop (Z.to_nat (limit - d + 2)) d limit.

(** What [drawNote] draws besides the staff: the heights of the ledger
    lines, in the order drawn, and the height of the note head. *)
Record Drawing : Type := mkDrawing { ledgerLines : list Z; noteHead : Z }.

(** The height of the diatonic step [d]. *)
Definition stepY (d : Z) : Z := BASE_Y - d * (LINE_SPACING / 2).

(** [drawNote(noteName)]. *)
Definition drawNote (noteName : string) : result Drawing :=
  match diatonicDistanceFromE4 noteName with
  | Throw e => Throw e
  | Return dist =>
      let y := stepY dist in
      let below := if dist <? 0 then map stepY (ledgerSteps dist (-2)) else [] in
      let above := if dist >? 8 then map stepY (ledgerSteps 10 dist) else [] in
      Return (mkDrawing (below ++ above) y)
  end.

(** [playCurrentNote()]; nothing happens without a current note. *)
Definition playCurrentNote (g : Settings) (s : State) : option Played :=
  match currentNote s with
  | None => None
  | Some note => Some (playSingleNote g note (Some 0.8%R) (Some 0.35%R) None)
  end.

End ReadingStaff.

(** ** memory.js: a new sequence and its playback *)

Module MemorySetup.
Import JS Common Listener Memory Playback.

(** [Math.floor]. *)
Definition Math_floor (x : R) : Z := Int_part x.

(** [randomPitchClass()], with the number that [Math.random()] gives. *)
Definition randomPitchClass (random : R) : string :=
  match at_index naturals
                 (Math_floor (random * IZR (Z.of_nat (List.length naturals))))
  with
  | Some p => p
  | None => "undefined"
  end.

(** [playSequence()] on the expected sequence as it is when the function
    starts: the oscillators started, and how the promise settles.  A note
    that throws ends the loop. *)
Fixpoint playSequence (g : Settings) (expected : list string)
  : list Tone * result unit :=
  match expected with
  | [] => ([], Return tt)
  | pc :: rest =>
      match playSingleNote g (pc ++ "4") (Some 0.6%R) (Some 0.35%R) None with
      | (tones, Throw e) => (tones, Throw e)
      | (tones, Return _) =>
          let '(more, r) := playSequence g rest in ((tones ++ more)%list, r)
      end
  end.

(** The direction arrow between two consecutive notes. *)
Definition hint (prev curr : string) : string :=
  let prevIdx := indexOf NOTE_NAMES prev in
  let currIdx := indexOf NOTE_NAMES curr in
  if (prevIdx <? 0) || (currIdx <? 0) then ""
  else if currIdx >? prevIdx then "↑"
  else if currIdx <? prevIdx then "↓"
  else "→".

Fixpoint hints (expected : list string) : list string :=
  match expected with
  | [] => []
  | prev :: rest =>
      match rest with
      | [] => []
      | curr :: _ => hint prev curr :: hints rest
      end
  end.

(** The exercise with the hints that [generateSequence] keeps. *)
Record Page : Type := mkPage { exercise : State; currentHints : list string }.

(** [generateSequence()], with the numbers that the calls of
    [Math.random()] give, in order; the playback it starts is not waited
    for. *)
Definition generateSequence (random : nat -> R) (g : Settings) (pg : Page)
  : Page * (list Tone * result unit) :=
  let expected :=
    map (fun i => randomPitchClass (random i)) (seq 0 (Z.to_nat SEQ_LENGTH)) in
  let s := exercise pg in
  (mkPage (mkState expected [] (detector s) (recordStartTime s)
                   (mkStatus "" (className (status s))) (pianoStars s))
          (hints expected),
   playSequence g expected).

(** What a recording of the memory exercise can have led to, at any
    moment. *)
Definition Outcome (s0 : State) (d : NoteDetector.t) (s : State) : Prop :=
  expectedSequence s = expectedSequence s0 /\
  recordStartTime s = recordStartTime s0 /\
  ((detector s = Some d /\ status s = status s0 /\
    pianoStars s = pianoStars s0 /\
    (List.length (userSequence s) < List.length (expectedSequence s0))%nat) \/
   (detector s = None /\
    exists n : Z,
      1 <= n <= 3 /\
      status s = mkStatus ("Doskonale! Powtórzyłeś sekwencję poprawnie. "
                           ++ starString n) "status result-success" /\
      pianoStars s = pianoStars s0 + n) \/
   (detector s = None /\
    status s = mkStatus wrongSequence "status result-failure" /\
    pianoStars s = pianoStars s0)).

(** The texts that a click on the hints button shows. *)
Definition shownHints (pg : Page) : list string :=
  match currentHints pg with
  | [] => ["Brak wskazówek."]
  | _ :: _ => "" :: currentHints pg
  end.

End MemorySetup.

(** ** The virtual keyboard (src/chords.js, after the chord exercise) *)

Module Keyboard.
Import JS Common Playback.

Definition KEY_MAP : list (string * string) :=
  [ ("q", "C4"); ("w", "D4"); ("e", "E4"); ("r", "F4"); ("t", "G4");
    ("y", "A4"); ("u", "B4"); ("2", "C#4"); ("3", "D#4"); ("5", "F#4");
    ("6", "G#4"); ("7", "A#4") ].

Definition WHITE_NOTES : list string :=
  ["C4"; "D4"; "E4"; "F4"; "G4"; "A4"; "B4"].

Definition BLACK_POSITIONS : list (string * Z) :=
  [ ("C#4", 0); ("D#4", 1); ("F#4", 3); ("G#4", 4); ("A#4", 5) ].

(** [obj[key]] on an object written as its entries, for a key that does
    not name a property that every object inherits. *)
Fixpoint lookup {A} (entries : list (string * A)) (key : string) : option A :=
  match entries with
  | [] => None
  | (k, v) :: rest => if String.eqb k key then Some v else lookup rest key
  end.

(** The click handler of a key built by [createWhiteKey] or
    [createBlackKey]. *)
Definition clickKey (g : Settings) (note : string) : Played :=
  playSingleNote g note (Some 0.8%R) (Some 0.35%R) None.

(** The notes of the keys that [buildPiano()] builds. *)
Definition builtKeys : list string :=
  (WHITE_NOTES ++ map fst BLACK_POSITIONS)%list.

(** [handleKeydown(event)], with [event.key.toLowerCase()]. *)
Definition handleKeydown (g : Settings) (lowered : string) : option Played :=
  match lookup KEY_MAP lowered with
  | None => None
  | Some note => Some (playSingleNote g note (Some 0.8%R) (Some 0.35%R) None)
  end.

(** [positionBlackKeys()]: the left edge and the width of the black key
    at [posIndex], for the width of the piano element. *)
Definition blackKeyBox (pianoWidth : R) (posIndex : Z) : R * R :=
  let whiteKeyWidth := (pianoWidth / IZR (Z.of_nat (List.length WHITE_NOTES)))%R in
  let blackKeyWidth := (whiteKeyWidth * 0.6)%R in
  ((IZR (posIndex + 1) * whiteKeyWidth - blackKeyWidth / 2)%R, blackKeyWidth).

End Keyboard.

(** ** The range of JavaScript numbers

    Where a statement reaches the ends of the range of doubles, a number
    is modelled with the infinities and NaN: a result whose exact value
    leaves the range overflows or underflows as round-to-nearest has it;
    inside the range a result is taken as exact. *)

Module Double.
Import JS Common.

Inductive number : Type :=
| Finite (x : R)
| PlusInfinity
| MinusInfinity
| NaN.

(** An exact result of [2^1024 - 2^970] or more rounds to [Infinity]. *)
Definition overflowAt : R := (Rpower 2 1024 - Rpower 2 970)%R.

(** An exact result of at most [2^-1075] in size rounds to [0]. *)
Definition underflowAt : R := Rpower 2 (-1075).

(** The number that an operation gives whose exact result is [x]. *)
Definition ofExact (x : R) : number :=
  if Rle_dec overflowAt x then PlusInfinity
  else if Rle_dec x (- overflowAt) then MinusInfinity
  else if Rle_dec (Rabs x) underflowAt then Finite 0
  else Finite x.

(** [Math.pow(2, e)] for a finite [e]. *)
Definition pow2 (e : R) : number := ofExact (Math_pow 2 e).

(** [440 * p]. *)
Definition times440 (p : number) : number :=
  match p with
  | Finite y => ofExact (440 * y)
  | PlusInfinity => PlusInfinity
  | MinusInfinity => MinusInfinity
  | NaN => NaN
  end.

(** [pitchClassToFreq(pc, octave)]. *)
Definition pitchClassToFreq (pc : string) (octave : Z) : result number :=
  let semitone := indexOf NOTE_NAMES pc in
  if semitone <? 0 then Throw ("Unknown pitch class: " ++ pc)
  else
    let midi := semitone + (octave + 1) * 12 in
    Return (times440 (pow2 ((IZR midi - 69) / 12))).

(** [freq / 440]. *)
Definition over440 (freq : number) : number :=
  match freq with
  | Finite x => ofExact (x / 440)
  | PlusInfinity => PlusInfinity
  | MinusInfinity => MinusInfinity
  | NaN => NaN
  end.

(** [Math.log2]. *)
Definition log2 (q : number) : number :=
  match q with
  | Finite x =>
      if Req_dec_T x 0 then MinusInfinity
      else if Rlt_dec x 0 then NaN
      else Finite (Math_log2 x)
  | PlusInfinity => PlusInfinity
  | MinusInfinity => NaN
  | NaN => NaN
  end.

(** [!freq || freq <= 0]. *)
Definition rejected (freq : number) : bool :=
  match freq with
  | Finite x =>
      if Req_dec_T x 0 then true
      else if Rle_dec x 0 then true
      else false
  | PlusInfinity => false
  | MinusInfinity => true
  | NaN => true
  end.

(** [freqToPitchClass(freq)]. [Math.round] of an infinity or of NaN is
    the same again, its remainder by 12 is NaN, and [NOTE_NAMES[NaN]] is
    [undefined], for which [null] is returned. *)
Definition freqToPitchClass (freq : number) : option string :=
  if rejected freq then None
  else
    match log2 (over440 freq) with
    | Finite l =>
        let midi := Math_round (12 * l + 69)%R in
        let index := Z.rem (Z.rem midi 12 + 12) 12 in
        at_index NOTE_NAMES index
    | PlusInfinity | MinusInfinity | NaN => None
    end.

(** The double nearest to an integer, ties to the even one: the number
    that [parseInt] returns for digits that denote the integer (for up to
    twenty significant digits). *)
Definition nearestDouble (m : Z) : Z :=
  let a := Z.abs m in
  if a <? 2 ^ 53 then m
  else
    let ulp := 2 ^ (Z.log2 a - 52) in
    let q := a / ulp in
    let r := a mod ulp in
    let q' := if (2 * r >? ulp) || ((2 * r =? ulp) && Z.odd q) then q + 1 else q in
    Z.sgn m * (q' * ulp).

(** [parseNoteName(name)] with the octave as the number that [parseInt]
    returns. *)
Definition parseNoteName (name : string) : result Note :=
  match Common.parseNoteName name with
  | Throw e => Throw e
  | Return note => Return (mkNote (pc note) (nearestDouble (octave note)))
  end.

(** [noteNameToFreq(name)]. *)
Definition noteNameToFreq (name : string) : result number :=
  match parseNoteName name with
  | Throw e => Throw e
  | Return note => pitchClassToFreq (pc note) (octave note)
  end.

End Double.

(** ** The accidental folding of the note-reading exercise, as the
    specification words it *)

Module FoldingSpec.


End FoldingSpec.

(** * Properties *)

(** ** The pitch-class codec *)

Module CodecFacts.
Import JS Common.

Lemma Math_round_IZR (m : Z) : Math_round (IZR m) = m.
Proof.
  unfold Math_round, Int_part.
  rewrite <- (up_tech (IZR m + / 2) m).
  - lia.
  - lra.
  - rewrite plus_IZR. lra.
Qed.

Lemma ln2_pos : (0 < ln 2)%R.
Proof. rewrite <- ln_1. apply ln_increasing; lra. Qed.

Lemma log2_pow2 (y : R) : Math_log2 (Math_pow 2 y) = y.
Proof.
  unfold Math_log2, Math_pow, Rpower. rewrite ln_exp.
  field. pose proof ln2_pos. lra.
Qed.

(** The double remainder of the sources is the non-negative residue. *)
Lemma js_mod12 (m : Z) : Z.rem (Z.rem m 12 + 12) 12 = m mod 12.
Proof.
  pose proof (Z.rem_bound_abs m 12).
  Z.to_euclidean_division_equations. lia.
Qed.

Lemma midiToFreq_pos (m : Z) : (0 < midiToFreq m)%R.
Proof.
  unfold midiToFreq, Math_pow, Rpower.
  pose proof (exp_pos ((IZR m - 69) / 12 * ln 2)). lra.
Qed.

Lemma midi_of_midiToFreq (m : Z) :
  Math_round (12 * Math_log2 (midiToFreq m / 440) + 69) = m.
Proof.
  unfold midiToFreq.
  replace (440 * Math_pow 2 ((IZR m - 69) / 12) / 440)%R
    with (Math_pow 2 ((IZR m - 69) / 12)) by field.
  rewrite log2_pow2.
  replace (12 * ((IZR m - 69) / 12) + 69)%R with (IZR m) by field.
  apply Math_round_IZR.
Qed.

(** On a positive frequency the two guards of [freqToPitchClass] pass. *)
Lemma freqToPitchClass_pos (freq : R) :
  (0 < freq)%R ->
  freqToPitchClass freq =
  at_index NOTE_NAMES
    (Math_round (12 * Math_log2 (freq / 440) + 69) mod 12).
Proof.
  intros Hpos. unfold freqToPitchClass.
  destruct (Req_dec_T freq 0) as [E | _]; [lra |].
  destruct (Rle_dec freq 0) as [L | _]; [lra |].
  cbv zeta. now rewrite js_mod12.
Qed.

Lemma freqToPitchClass_nonpos (freq : R) :
  (freq <= 0)%R -> freqToPitchClass freq = None.
Proof.
  intros Hle. unfold freqToPitchClass.
  destruct (Req_dec_T freq 0); [reflexivity |].
  destruct (Rle_dec freq 0); [reflexivity | contradiction].
Qed.

Lemma at_index_NOTE_NAMES (i : Z) :
  0 <= i < 12 -> exists pc, at_index NOTE_NAMES i = Some pc /\ In pc NOTE_NAMES.
Proof.
  intros Hi.
  assert (Hcases : i = 0 \/ i = 1 \/ i = 2 \/ i = 3 \/ i = 4 \/ i = 5 \/
                   i = 6 \/ i = 7 \/ i = 8 \/ i = 9 \/ i = 10 \/ i = 11) by lia.
  repeat (destruct Hcases as [-> | Hcases]); try subst i;
    eexists; (split; [reflexivity | simpl; tauto]).
Qed.

Lemma indexOf_NOTE_NAMES (pc : string) :
  In pc NOTE_NAMES ->
  0 <= indexOf NOTE_NAMES pc < 12 /\
  at_index NOTE_NAMES (indexOf NOTE_NAMES pc) = Some pc.
Proof.
  intros Hin. simpl in Hin.
  repeat (destruct Hin as [<- | Hin]); try contradiction;
    (split; [vm_compute; split; congruence | reflexivity]).
Qed.

(** Whatever [freqToPitchClass] returns is one of the twelve names. *)
Lemma freqToPitchClass_In (freq : R) (pc : string) :
  freqToPitchClass freq = Some pc -> In pc NOTE_NAMES.
Proof.
  intros H. destruct (Rle_dec freq 0) as [L | G].
  - rewrite freqToPitchClass_nonpos in H by exact L. discriminate.
  - rewrite freqToPitchClass_pos in H by lra.
    destruct (at_index_NOTE_NAMES
                (Math_round (12 * Math_log2 (freq / 440) + 69) mod 12))
      as (p & Hp & Hin).
    + apply Z.mod_pos_bound. lia.
    + congruence.
Qed.

(** The pitch class of the frequency of a MIDI number. *)
Lemma freqToPitchClass_midiToFreq (m : Z) :
  freqToPitchClass (midiToFreq m) = at_index NOTE_NAMES (m mod 12).
Proof.
  rewrite freqToPitchClass_pos by apply midiToFreq_pos.
  now rewrite midi_of_midiToFreq.
Qed.

Lemma pitchClassToFreq_valid (pc : string) (octave : Z) :
  In pc NOTE_NAMES ->
  pitchClassToFreq pc octave =
  Return (midiToFreq (indexOf NOTE_NAMES pc + (octave + 1) * 12)).
Proof.
  intros Hin. destruct (indexOf_NOTE_NAMES pc Hin) as [Hr _].
  unfold pitchClassToFreq.
  destruct (indexOf NOTE_NAMES pc <? 0) eqn:E; [lia | reflexivity].
Qed.

Lemma roundtrip_helper (pc : string) (octave : Z) :
  In pc NOTE_NAMES ->
  freqToPitchClass (midiToFreq (indexOf NOTE_NAMES pc + (octave + 1) * 12))
  = Some pc.
Proof.
  intros Hin. destruct (indexOf_NOTE_NAMES pc Hin) as [Hr Hat].
  rewrite freqToPitchClass_midiToFreq.
  replace ((indexOf NOTE_NAMES pc + (octave + 1) * 12) mod 12)
    with (indexOf NOTE_NAMES pc); [exact Hat |].
  rewrite Z.mod_add by lia. now rewrite Z.mod_small.
Qed.

(** *** The ends of the range of doubles *)

Lemma pow2_lt (a b : R) : (a < b)%R -> (Rpower 2 a < Rpower 2 b)%R.
Proof. intros H. apply Rpower_lt; lra. Qed.

Lemma pow2_pos (a : R) : (0 < Rpower 2 a)%R.
Proof. unfold Rpower. apply exp_pos. Qed.

Lemma pow2_nat (n : nat) : Rpower 2 (INR n) = (2 ^ n)%R.
Proof. apply Rpower_pow. lra. Qed.

Lemma pow2_9 : Rpower 2 9 = 512%R.
Proof.
  replace 9%R with (INR 9) by (simpl; lra). rewrite pow2_nat. simpl. lra.
Qed.


Lemma overflowAt_bounds :
  (Rpower 2 1023 < Double.overflowAt < Rpower 2 1024)%R.
Proof.
  unfold Double.overflowAt.
  replace 1024%R with (1023 + 1)%R by lra.
  rewrite Rpower_plus, Rpower_1 by lra.
  pose proof (pow2_lt 970 1023 ltac:(lra)). pose proof (pow2_pos 970). lra.
Qed.

Lemma underflowAt_pos : (0 < Double.underflowAt)%R.
Proof. apply pow2_pos. Qed.

(** Inside the range a result is the exact one. *)
Lemma ofExact_in_range (x : R) :
  (Double.underflowAt < x < Double.overflowAt)%R ->
  Double.ofExact x = Double.Finite x.
Proof.
  intros [Hlo Hhi]. unfold Double.ofExact.
  pose proof underflowAt_pos as Hu.
  destruct (Rle_dec Double.overflowAt x); [lra |].
  destruct (Rle_dec x (- Double.overflowAt)); [lra |].
  destruct (Rle_dec (Rabs x) Double.underflowAt) as [L | _]; [| reflexivity].
  rewrite Rabs_pos_eq in L by lra. lra.
Qed.

(** The frequency of an octave from -1000 to 1000 is inside the range. *)
Lemma pitchClassToFreq_in_range (pc : string) (octave : Z) :
  In pc NOTE_NAMES -> -1000 <= octave <= 1000 ->
  Double.pitchClassToFreq pc octave
  = Return (Double.Finite
              (midiToFreq (indexOf NOTE_NAMES pc + (octave + 1) * 12))) /\
  (Double.underflowAt
   < midiToFreq (indexOf NOTE_NAMES pc + (octave + 1) * 12) / 440
   < Double.overflowAt)%R.
Proof.
  intros Hin Ho. destruct (indexOf_NOTE_NAMES pc Hin) as [Hr _].
  set (m := indexOf NOTE_NAMES pc + (octave + 1) * 12).
  set (e := ((IZR m - 69) / 12)%R).
  assert (He : (-1005 < e < 997)%R).
  { assert (H1 : (IZR (-11988) <= IZR m)%R) by (apply IZR_le; unfold m; lia).
    assert (H2 : (IZR m <= IZR 12023)%R) by (apply IZR_le; unfold m; lia).
    unfold e. lra. }
  pose proof (pow2_lt (-1075) e ltac:(lra)) as Hlow.
  pose proof (pow2_lt e 997 ltac:(lra)) as Hhigh.
  pose proof (pow2_lt 997 1023 ltac:(lra)) as H997.
  pose proof (pow2_lt 1006 1023 ltac:(lra)) as H1006.
  pose proof overflowAt_bounds as [Hover _].
  pose proof (pow2_pos e) as Hpos.
  assert (H512 : (512 * Rpower 2 997 = Rpower 2 1006)%R).
  { rewrite <- pow2_9, <- Rpower_plus. f_equal. lra. }
  fold Double.underflowAt in Hlow.
  assert (Hexact : Double.pitchClassToFreq pc octave
                   = Return (Double.Finite (midiToFreq m))).
  { unfold Double.pitchClassToFreq.
    destruct (Z.ltb_spec (indexOf NOTE_NAMES pc) 0); [lia |].
    cbv zeta. fold m e. unfold Double.pow2, Math_pow.
    rewrite ofExact_in_range by lra.
    unfold Double.times440. rewrite ofExact_in_range by lra.
    reflexivity. }
  split; [exact Hexact |].
  unfold midiToFreq, Math_pow. fold e.
  replace (440 * Rpower 2 e / 440)%R with (Rpower 2 e) by field.
  lra.
Qed.

(** On a frequency whose quotient by 440 is inside the range,
    [freqToPitchClass] is what it is on real numbers. *)
Lemma freqToPitchClass_in_range (x : R) :
  (Double.underflowAt < x / 440 < Double.overflowAt)%R ->
  Double.freqToPitchClass (Double.Finite x) = freqToPitchClass x.
Proof.
  intros Hr. pose proof underflowAt_pos as Hu.
  assert (Hpos : (0 < x)%R) by lra.
  unfold Double.freqToPitchClass, Double.rejected.
  destruct (Req_dec_T x 0); [lra |]. destruct (Rle_dec x 0); [lra |].
  unfold Double.over440. rewrite ofExact_in_range by exact Hr.
  unfold Double.log2.
  destruct (Req_dec_T (x / 440) 0); [lra |].
  destruct (Rlt_dec (x / 440) 0); [lra |].
  cbv zeta. rewrite (freqToPitchClass_pos x Hpos). now rewrite js_mod12.
Qed.






End CodecFacts.

(** ** The note-name parser *)

Module ParserFacts.
Import JS Common NoteNameSpec.

Lemma isDigit_cases (a : ascii) :
  isDigit a = true ->
  (a = "0" \/ a = "1" \/ a = "2" \/ a = "3" \/ a = "4" \/
   a = "5" \/ a = "6" \/ a = "7" \/ a = "8" \/ a = "9")%char.
Proof.
  destruct a as [[|] [|] [|] [|] [|] [|] [|] [|]]; intros H;
    try (vm_compute in H; discriminate H); tauto.
Qed.

Lemma uint_of_string_digits (ds : string) (u : Decimal.uint) :
  NilEmpty.uint_of_string ds = Some u -> allDigits ds = true.
Proof.
  revert u. induction ds as [| a ds IH]; intros u H; [reflexivity |].
  simpl in H. destruct (NilEmpty.uint_of_string ds) as [v |] eqn:E;
    [| discriminate H].
  simpl. rewrite (IH v eq_refl), andb_true_r.
  apply uint_of_char_spec in H.
  repeat (destruct H as [[-> _] | H]; [reflexivity |]).
  destruct H as [-> _]. reflexivity.
Qed.

Lemma digits_uint_of_string (ds : string) :
  allDigits ds = true -> exists u, NilEmpty.uint_of_string ds = Some u.
Proof.
  induction ds as [| a ds IH]; intros H; [now exists Decimal.Nil |].
  simpl in H. apply andb_true_iff in H. destruct H as [Ha Hds].
  destruct (IH Hds) as [v Hv]. simpl. rewrite Hv.
  apply isDigit_cases in Ha.
  repeat (destruct Ha as [-> | Ha]; [eexists; reflexivity |]).
  subst a. eexists; reflexivity.
Qed.

Lemma digitsValue_acc (ds : string) :
  forall (u : Decimal.uint) (acc : positive),
    NilEmpty.uint_of_string ds = Some u ->
    digitsValue (Z.pos acc) ds = Z.pos (Pos.of_uint_acc u acc).
Proof.
  induction ds as [| a ds IH]; intros u acc H.
  - injection H as <-. reflexivity.
  - simpl in H. destruct (NilEmpty.uint_of_string ds) as [v |] eqn:E;
      [| discriminate H].
    apply uint_of_char_spec in H.
    repeat (destruct H as [[-> ->] | H];
            [cbn [digitsValue Pos.of_uint_acc];
             rewrite <- (IH v _ eq_refl); f_equal; vm_compute Z.of_nat; lia |]).
    destruct H as [-> ->]. cbn [digitsValue Pos.of_uint_acc].
    rewrite <- (IH v _ eq_refl); f_equal; vm_compute Z.of_nat; lia.
Qed.

Lemma digitsValue_uint (ds : string) :
  forall u : Decimal.uint,
    NilEmpty.uint_of_string ds = Some u ->
    digitsValue 0 ds = Z.of_uint u.
Proof.
  induction ds as [| a ds IH]; intros u H.
  - injection H as <-. reflexivity.
  - simpl in H. destruct (NilEmpty.uint_of_string ds) as [v |] eqn:E;
      [| discriminate H].
    apply uint_of_char_spec in H.
    destruct H as [[-> ->] | H].
    { cbn [digitsValue]. change (10 * 0 + (Z.of_nat (nat_of_ascii "0") - 48)) with 0.
      rewrite (IH v eq_refl). reflexivity. }
    repeat (destruct H as [[-> ->] | H];
            [cbn [digitsValue];
             match goal with
             | |- digitsValue ?k _ = _ =>
                 let k' := eval vm_compute in k in change k with k'
             end;
             rewrite (digitsValue_acc ds v _ E); reflexivity |]).
    destruct H as [-> ->]. cbn [digitsValue].
    match goal with
    | |- digitsValue ?k _ = _ =>
        let k' := eval vm_compute in k in change k with k'
    end.
    rewrite (digitsValue_acc ds v _ E); reflexivity.
Qed.

Lemma digit_first (d : ascii) (r : string) :
  isDigit d = true ->
  isAccidental d = false /\ afterMinus (String d r) = String d r /\
  parseInt10 (String d r) = digitsValue 0 (String d r).
Proof.
  intros H. apply isDigit_cases in H.
  repeat (destruct H as [-> | H]; [repeat split |]).
  subst d. repeat split.
Qed.

Lemma afterMinus_cases (s : string) :
  (exists d, s = String "-" d /\ afterMinus s = d) \/ afterMinus s = s.
Proof.
  destruct s as [| a r]; [now right |].
  destruct a as [[|] [|] [|] [|] [|] [|] [|] [|]];
    try (right; reflexivity).
  left. now exists r.
Qed.

Lemma isAccidental_cases (a : ascii) :
  isAccidental a = true -> a = "#"%char \/ a = "b"%char.
Proof.
  unfold isAccidental. intros H. apply orb_true_iff in H.
  destruct H as [H | H]; apply Ascii.eqb_eq in H; auto.
Qed.

(** What a match of the pattern says about the text. *)
Lemma matchNoteName_sound (s : string) (l : ascii) (acc oct : string) :
  matchNoteName s = Some (l, acc, oct) ->
  isNoteLetter l = true /\ s = String l (acc ++ oct) /\
  (acc = "" \/ acc = "#" \/ acc = "b") /\
  exists (negative : bool) (ds : string),
    oct = (if negative then "-" else "") ++ ds /\
    NilZero.uint_of_string ds <> None.
Proof.
  unfold matchNoteName. destruct s as [| l0 r]; [discriminate |].
  destruct (isNoteLetter l0) eqn:Hl; [| discriminate].
  assert (Hoct : forall r1,
             match afterMinus r1 with
             | EmptyString => None
             | String _ _ as digits =>
                 if allDigits digits then Some r1 else None
             end = Some oct ->
             exists (negative : bool) (ds : string),
               oct = (if negative then "-" else "") ++ ds /\
               NilZero.uint_of_string ds <> None).
  { intros r1 H.
    assert (Hds : forall ds, ds <> "" -> allDigits ds = true ->
                             NilZero.uint_of_string ds <> None).
    { intros ds Hne Hall. destruct (digits_uint_of_string ds Hall) as [u Hu].
      destruct ds; [congruence |]. simpl. simpl in Hu. rewrite Hu. discriminate. }
    destruct (afterMinus_cases r1) as [(d & -> & Hd) | Hd]; rewrite Hd in H.
    - destruct d as [| c d']; [discriminate |].
      destruct (allDigits (String c d')) eqn:Hall; [| discriminate].
      injection H as <-. exists true, (String c d'). split; [reflexivity |].
      apply Hds; [discriminate | exact Hall].
    - destruct r1 as [| c d']; [discriminate |].
      destruct (allDigits (String c d')) eqn:Hall; [| discriminate].
      injection H as <-. exists false, (String c d'). split; [reflexivity |].
      apply Hds; [discriminate | exact Hall]. }
  destruct r as [| a r'].
  - simpl. discriminate.
  - destruct (isAccidental a) eqn:Ha.
    + intros H.
      destruct (afterMinus r') eqn:Hd; [discriminate |].
      destruct (allDigits (String a0 s)) eqn:Hall; [| discriminate].
      injection H as <- <- <-.
      split; [exact Hl |]. split; [reflexivity |].
      split; [apply isAccidental_cases in Ha; destruct Ha as [-> | ->]; auto |].
      apply (Hoct r'). now rewrite Hd, Hall.
    + intros H.
      destruct (afterMinus (String a r')) eqn:Hd; [discriminate |].
      destruct (allDigits (String a0 s)) eqn:Hall; [| discriminate].
      injection H as <- <- <-.
      split; [exact Hl |]. split; [reflexivity |].
      split; [auto |].
      apply (Hoct (String a r')). now rewrite Hd, Hall.
Qed.

Lemma uint_of_string_shape (ds : string) (u : Decimal.uint) :
  NilZero.uint_of_string ds = Some u ->
  exists d r, ds = String d r /\ isDigit d = true /\
              allDigits ds = true /\ digitsValue 0 ds = Z.of_uint u.
Proof.
  intros H. destruct ds as [| d r]; [discriminate |].
  change (NilEmpty.uint_of_string (String d r) = Some u) in H.
  pose proof (uint_of_string_digits _ _ H) as Hall.
  exists d, r. split; [reflexivity |].
  split; [simpl in Hall; now apply andb_true_iff in Hall |].
  split; [exact Hall | now apply digitsValue_uint].
Qed.

(** A letter of the pattern is a letter of the grammar, and
    [toUpperCase] gives the letter it names. *)
Lemma isNoteLetter_letters (l : ascii) :
  isNoteLetter l = true ->
  In (l, String (toUpperCase l) "") letters.
Proof.
  destruct l as [[|] [|] [|] [|] [|] [|] [|] [|]]; intros H;
    try (vm_compute in H; discriminate H); vm_compute; tauto.
Qed.

Lemma letters_isNoteLetter (l : ascii) (letter : string) :
  In (l, letter) letters ->
  isNoteLetter l = true /\ String (toUpperCase l) "" = letter.
Proof.
  intros H. simpl in H.
  repeat (destruct H as [[= <- <-] | H]; [split; reflexivity |]).
  contradiction.
Qed.

(** The pitch class that [parseNoteName] builds from the upper-case
    letter and the accidental. *)
Lemma spelled_code (l : ascii) (letter acc : string) :
  In (l, letter) letters ->
  acc = "" \/ acc = "#" \/ acc = "b" ->
  spelled letter acc =
  Some (if String.eqb acc "#" then letter ++ "#"
        else if String.eqb acc "b" then
               match at_index NOTE_NAMES
                       (Z.rem (indexOf NOTE_NAMES letter + 11) 12) with
               | Some p => p
               | None => "undefined"
               end
             else letter).
Proof.
  intros Hl Hacc. simpl in Hl.
  repeat (destruct Hl as [[= <- <-] | Hl];
          [destruct Hacc as [-> | [-> | ->]]; reflexivity |]).
  contradiction.
Qed.

Lemma spelled_accidental (letter acc pc : string) :
  spelled letter acc = Some pc -> acc = "" \/ acc = "#" \/ acc = "b".
Proof.
  unfold spelled.
  destruct (String.eqb_spec acc ""); [auto |].
  destruct (String.eqb_spec acc "#"); [auto |].
  destruct (String.eqb_spec acc "b"); [auto | discriminate].
Qed.

(** The pattern matches every text of the grammar, with these groups. *)
Lemma matchNoteName_complete (l : ascii) (acc ds : string)
      (negative : bool) (u : Decimal.uint) :
  isNoteLetter l = true ->
  acc = "" \/ acc = "#" \/ acc = "b" ->
  NilZero.uint_of_string ds = Some u ->
  matchNoteName (String l (acc ++ (if negative then "-" else "") ++ ds)) =
  Some (l, acc, (if negative then "-" else "") ++ ds).
Proof.
  intros Hl Hacc Hu.
  destruct (uint_of_string_shape ds u Hu) as (d & r & -> & Hd & Hall & _).
  destruct (digit_first d r Hd) as (Hnacc & Hminus & _).
  unfold matchNoteName. rewrite Hl.
  destruct Hacc as [-> | [-> | ->]]; destruct negative; simpl append;
    cbn [isAccidental Ascii.eqb orb Bool.eqb];
    try rewrite Hnacc;
    try (change (afterMinus (String "-" (String d r))) with (String d r));
    try rewrite Hminus; cbv iota beta; rewrite Hall; reflexivity.
Qed.

Lemma parseInt10_signed (ds : string) (negative : bool) (u : Decimal.uint) :
  NilZero.uint_of_string ds = Some u ->
  parseInt10 ((if negative then "-" else "") ++ ds) =
  if negative then - Z.of_uint u else Z.of_uint u.
Proof.
  intros Hu.
  destruct (uint_of_string_shape ds u Hu) as (d & r & -> & Hd & _ & Hv).
  destruct negative; simpl append.
  - change (parseInt10 (String "-" (String d r)))
      with (- digitsValue 0 (String d r)).
    now rewrite Hv.
  - destruct (digit_first d r Hd) as (_ & _ & ->). exact Hv.
Qed.

(** [parseNoteName] on a text whose trimmed form is in the grammar. *)
Lemma parseNoteName_denotes (name : string) (note : Note) :
  Denotes (trim name) note -> parseNoteName name = Return note.
Proof.
  intros H. unfold parseNoteName.
  inversion H as [l letter acc p ds negative u Hl Hsp Hu Hs Hn].
  destruct (letters_isNoteLetter l letter Hl) as [Hletter Hup].
  pose proof (spelled_accidental _ _ _ Hsp) as Hacc.
  rewrite (matchNoteName_complete l acc ds negative u Hletter Hacc Hu).
  cbv zeta. rewrite Hup.
  rewrite (parseInt10_signed ds negative u Hu).
  rewrite (spelled_code l letter acc Hl Hacc) in Hsp.
  injection Hsp as <-. reflexivity.
Qed.

Lemma parseNoteName_returns (name : string) (note : Note) :
  parseNoteName name = Return note -> Denotes (trim name) note.
Proof.
  unfold parseNoteName.
  destruct (matchNoteName (trim name)) as [[[l acc] oct] |] eqn:M;
    [| discriminate].
  intros H. injection H as <-.
  apply matchNoteName_sound in M.
  destruct M as (Hl & -> & Hacc & negative & ds & -> & Hds).
  destruct (NilZero.uint_of_string ds) as [u |] eqn:Hu; [| congruence].
  rewrite (parseInt10_signed ds negative u Hu).
  apply isNoteLetter_letters in Hl.
  apply denotes with (letter := String (toUpperCase l) ""); try assumption.
  apply (spelled_code l _ acc Hl Hacc).
Qed.

(** *** Texts of the grammar have no white space to trim *)

Ltac bool_to_nat :=
  repeat (rewrite ?orb_true_iff, ?andb_true_iff, ?Nat.eqb_eq, ?Nat.leb_le in * );
  lia.

Lemma printable_not_ws (a : ascii) :
  (33 <= nat_of_ascii a < 128)%nat ->
  ws1 a = false /\
  (forall b, ws2 a b = false /\ ws2 b a = false) /\
  (forall b c, ws3 a b c = false /\ ws3 c b a = false).
Proof.
  intros Ha. split; [| split; intros; split].
  - destruct (ws1 a) eqn:E; [| reflexivity]. unfold ws1 in E.
    cbv zeta in E. bool_to_nat.
  - destruct (ws2 a b) eqn:E; [| reflexivity]. unfold ws2 in E. bool_to_nat.
  - destruct (ws2 b a) eqn:E; [| reflexivity]. unfold ws2 in E. bool_to_nat.
  - destruct (ws3 a b c) eqn:E; [| reflexivity]. unfold ws3 in E.
    cbv zeta in E. bool_to_nat.
  - destruct (ws3 c b a) eqn:E; [| reflexivity]. unfold ws3 in E.
    cbv zeta in E. bool_to_nat.
Qed.

Lemma strip_printable (fwd : bool) (a : ascii) (r : string) :
  (33 <= nat_of_ascii a < 128)%nat -> strip fwd (String a r) = String a r.
Proof.
  intros Ha. destruct (printable_not_ws a Ha) as (H1 & H2 & H3).
  cbn [strip]. rewrite H1.
  destruct r as [| b r2]; [reflexivity |].
  destruct (H2 b) as [H2a H2b]. destruct fwd; rewrite ?H2a, ?H2b.
  - destruct r2 as [| c r3]; [reflexivity |].
    now rewrite (proj1 (H3 b c)).
  - destruct r2 as [| c r3]; [reflexivity |].
    now rewrite (proj2 (H3 b c)).
Qed.

Lemma isNoteLetter_printable (l : ascii) :
  isNoteLetter l = true -> (33 <= nat_of_ascii l < 128)%nat.
Proof. unfold isNoteLetter. cbv zeta. intros H. bool_to_nat. Qed.

Lemma isDigit_printable (d : ascii) :
  isDigit d = true -> (33 <= nat_of_ascii d < 128)%nat.
Proof. unfold isDigit. cbv zeta. intros H. bool_to_nat. Qed.

Lemma append_empty_r (s : string) : s ++ "" = s.
Proof. induction s as [| a s IH]; [reflexivity | simpl; now rewrite IH]. Qed.

Lemma rev_string_app (s1 s2 acc : string) :
  rev_string acc (s1 ++ s2) = rev_string (rev_string acc s1) s2.
Proof.
  revert acc. induction s1 as [| a s1 IH]; intros acc; [reflexivity |].
  simpl. apply IH.
Qed.

Lemma rev_string_rev (s : string) :
  forall a b, rev_string a (rev_string b s) = rev_string (s ++ a) b.
Proof.
  induction s as [| c s IH]; intros a b; [reflexivity |].
  simpl. now rewrite IH.
Qed.

Lemma rev_digits (ds : string) :
  ds <> "" -> allDigits ds = true ->
  forall acc, exists d r, rev_string acc ds = String d r /\ isDigit d = true.
Proof.
  induction ds as [| a ds IH]; intros Hne Hall acc; [congruence |].
  simpl in Hall. apply andb_true_iff in Hall. destruct Hall as [Ha Hds].
  simpl. destruct ds as [| b ds'].
  - exists a, acc. now split.
  - apply IH; [discriminate | exact Hds].
Qed.

Lemma trim_denotes (s : string) (note : Note) :
  Denotes s note -> trim s = s.
Proof.
  intros H. inversion H as [l letter acc p ds negative u Hl Hsp Hu Hs Hn].
  destruct (letters_isNoteLetter l letter Hl) as [Hletter _].
  destruct (uint_of_string_shape ds u Hu) as (d & r & Hds & _ & Hall & _).
  unfold trim.
  rewrite (strip_printable true l _ (isNoteLetter_printable l Hletter)).
  assert (Hrev : exists d' r',
             rev_string "" (String l (acc ++ (if negative then "-" else "") ++ ds))
             = String d' r' /\ isDigit d' = true).
  { cbn [rev_string]. rewrite !rev_string_app.
    apply rev_digits; [rewrite Hds; discriminate | exact Hall]. }
  destruct Hrev as (d' & r' & Hrev & Hd').
  rewrite Hrev, (strip_printable false d' r' (isDigit_printable d' Hd')).
  rewrite <- Hrev, rev_string_rev. now rewrite append_empty_r.
Qed.

(** C8 (as amended). After the white space around the text is trimmed,
    [parseNoteName] returns a note exactly on a letter A to G in either
    case, an optional ['#'] or ['b'], an optional minus sign and one or
    more decimal digits; the pitch class is the upper-case letter, the
    letter with its sharp, or for a flat the name one semitone below with
    B below C, and the octave is the signed decimal number.  On every
    other trimmed text, and on no text of that shape, it throws the
    invalid-note-name error.  A text of the shape is accepted as it
    stands.  ["Ab5"] and ["G#5"] both give pitch class G# and octave 5. *)
Theorem parseNoteName_grammar (name : string) (note : Note) :
  (parseNoteName name = Return note <-> Denotes (trim name) note) /\
  (parseNoteName name = Throw ("Invalid note name: " ++ name) <->
   forall n, ~ Denotes (trim name) n) /\
  (Denotes name note -> parseNoteName name = Return note) /\
  parseNoteName "Ab5" = Return (mkNote "G#" 5) /\
  parseNoteName "G#5" = Return (mkNote "G#" 5).
Proof.
  split; [| split; [| split; [| split; reflexivity]]].
  - split; [apply parseNoteName_returns | apply parseNoteName_denotes].
  - split.
    + intros Hthrow n Hn. apply parseNoteName_denotes in Hn. congruence.
    + intros Hnone. destruct (parseNoteName name) as [n | msg] eqn:E.
      * apply parseNoteName_returns in E. now apply Hnone in E.
      * revert E. unfold parseNoteName.
        destruct (matchNoteName (trim name)) as [[[l acc] oct] |];
          [discriminate | now intros [= <-]].
  - intros H. apply parseNoteName_denotes.
    now rewrite (trim_denotes name note H).
Qed.

Lemma parseNoteName_grammar_witness :
  Denotes "eb-12" (mkNote "D#" (-12)) /\
  parseNoteName "eb-12" = Return (mkNote "D#" (-12)).
Proof.
  assert (H : Denotes "eb-12" (mkNote "D#" (-12))).
  { apply (denotes "e" "E" "b" "D#" "12" true
                   (Decimal.D1 (Decimal.D2 Decimal.Nil)));
      [simpl; tauto | reflexivity | reflexivity]. }
  split; [exact H |].
  exact (proj1 (proj2 (proj2 (parseNoteName_grammar "eb-12" (mkNote "D#" (-12))))) H).
Defined.

(** C8 as it was stated fails: a text with white space around a note name
    is not of the shape letter, accidental, octave, and [parseNoteName]
    returns a note on it all the same. *)
Lemma parseNoteName_padded_counterexample :
  (forall n, ~ Denotes " C4" n) /\
  parseNoteName " C4" = Return (mkNote "C" 4).
Proof.
  split; [| reflexivity].
  intros n H. inversion H as [l letter acc p ds negative u Hl Hsp Hu Hs Hn].
  subst l. simpl in Hl.
  repeat (destruct Hl as [Hl | Hl]; [discriminate Hl |]). contradiction.
Qed.

(** *** A flat on C *)

Lemma to_uint_nonnil (p : positive) : Pos.to_uint p <> Decimal.Nil.
Proof.
  intros E. pose proof (DecimalPos.Unsigned.of_to p) as H.
  rewrite E in H. discriminate H.
Qed.

Lemma of_uint_to_uint (p : positive) : Z.of_uint (Pos.to_uint p) = Z.pos p.
Proof.
  unfold Z.of_uint. now rewrite DecimalPos.Unsigned.of_to.
Qed.

(** The decimal text of an integer: an optional minus sign and digits
    whose value is the integer. *)
Lemma showZ_shape (o : Z) :
  exists (negative : bool) (ds : string) (u : Decimal.uint),
    showZ o = (if negative then "-" else "") ++ ds /\
    NilZero.uint_of_string ds = Some u /\
    o = if negative then - Z.of_uint u else Z.of_uint u.
Proof.
  destruct o as [| p | p].
  - exists false, "0", (Decimal.D0 Decimal.Nil). repeat split.
  - exists false, (NilZero.string_of_uint (Pos.to_uint p)), (Pos.to_uint p).
    split; [reflexivity |]. split.
    + apply NilZero.usu, to_uint_nonnil.
    + now rewrite of_uint_to_uint.
  - exists true, (NilZero.string_of_uint (Pos.to_uint p)), (Pos.to_uint p).
    split; [reflexivity |]. split.
    + apply NilZero.usu, to_uint_nonnil.
    + now rewrite of_uint_to_uint.
Qed.

(** An integer of size up to 2^53 is a double. *)
Lemma nearestDouble_exact (o : Z) :
  Z.abs o <= 2 ^ 53 -> Double.nearestDouble o = o.
Proof.
  intros H. change (2 ^ 53) with 9007199254740992 in H.
  assert (Hc : Z.abs o < 9007199254740992
               \/ o = 9007199254740992 \/ o = - 9007199254740992) by lia.
  destruct Hc as [Hlt | [-> | ->]]; [| reflexivity | reflexivity].
  unfold Double.nearestDouble. cbv zeta.
  change (2 ^ 53) with 9007199254740992.
  apply Z.ltb_lt in Hlt. now rewrite Hlt.
Qed.

(** C10. For every integer octave [o] that a double holds exactly (of size
    up to 2^53), [parseNoteName] on ["Cb"] followed by the decimal text of
    [o] returns pitch class B with octave [o] itself, not [o - 1]; so where
    the frequencies are finite, the note it denotes sounds eleven
    equal-tempered semitones above the C of octave [o], not below it. *)
Theorem parseNoteName_C_flat (o : Z) :
  Z.abs o <= 2 ^ 53 ->
  parseNoteName ("Cb" ++ showZ o) = Return (mkNote "B" o) /\
  Double.parseNoteName ("Cb" ++ showZ o) = Return (mkNote "B" o) /\
  (-1000 <= o <= 1000 ->
   exists fB fC : R,
     Double.pitchClassToFreq "B" o = Return (Double.Finite fB) /\
     Double.pitchClassToFreq "C" o = Return (Double.Finite fC) /\
     fB = (fC * Math_pow 2 (11 / 12))%R /\ (0 < fC < fB)%R).
Proof.
  intros Hsafe.
  assert (Hparse : parseNoteName ("Cb" ++ showZ o) = Return (mkNote "B" o)).
  { destruct (showZ_shape o) as (negative & ds & u & Hshow & Hu & Ho).
    rewrite Hshow.
    assert (H : Denotes ("Cb" ++ (if negative then "-" else "") ++ ds)
                        (mkNote "B" o)).
    { rewrite Ho.
      apply (denotes "C" "C" "b" "B" ds negative u);
        [simpl; tauto | reflexivity | exact Hu]. }
    apply parseNoteName_denotes. now rewrite (trim_denotes _ _ H). }
  split; [exact Hparse |]. split.
  - unfold Double.parseNoteName. rewrite Hparse. cbn [pc octave].
    now rewrite (nearestDouble_exact o Hsafe).
  - intros Ho.
    destruct (CodecFacts.pitchClassToFreq_in_range "B" o
                ltac:(simpl; tauto) Ho) as [HB _].
    destruct (CodecFacts.pitchClassToFreq_in_range "C" o
                ltac:(simpl; tauto) Ho) as [HC _].
    change (indexOf NOTE_NAMES "B") with 11 in HB.
    change (indexOf NOTE_NAMES "C") with 0 in HC.
    exists (midiToFreq (11 + (o + 1) * 12)), (midiToFreq (0 + (o + 1) * 12)).
    split; [exact HB |]. split; [exact HC |].
    assert (Hup : midiToFreq (11 + (o + 1) * 12)
                  = (midiToFreq (0 + (o + 1) * 12) * Math_pow 2 (11 / 12))%R).
    { unfold midiToFreq, Math_pow. rewrite Rmult_assoc, <- Rpower_plus.
      do 2 f_equal. rewrite !plus_IZR. lra. }
    split; [exact Hup |].
    pose proof (CodecFacts.midiToFreq_pos (0 + (o + 1) * 12)) as Hpos.
    split; [exact Hpos |]. rewrite Hup.
    pose proof (CodecFacts.pow2_lt 0 (11 / 12) ltac:(lra)) as H1.
    rewrite Rpower_O in H1 by lra. unfold Math_pow. nra.
Qed.

Lemma parseNoteName_C_flat_witness :
  Z.abs 4 <= 2 ^ 53 /\
  parseNoteName ("Cb" ++ showZ 4) = Return (mkNote "B" 4).
Proof.
  assert (H : Z.abs 4 <= 2 ^ 53) by (vm_compute; discriminate).
  split; [exact H |].
  exact (proj1 (parseNoteName_C_flat 4 H)).
Defined.

(** C10 as it was stated fails beyond the integers that a double holds:
    for the digits of 2^53 + 1 the octave returned is the number that
    [parseInt] gives, 2^53. *)
Lemma parseNoteName_C_flat_counterexample :
  Double.parseNoteName ("Cb" ++ showZ (2 ^ 53 + 1))
  = Return (mkNote "B" (2 ^ 53)) /\
  2 ^ 53 <> 2 ^ 53 + 1.
Proof. split; [vm_compute; reflexivity | vm_compute; discriminate]. Qed.

End ParserFacts.

(** ** The note detector *)

Module DetectorFacts.
Import JS NoteDetector.

Lemma onaudioprocess_emits (f : Frame) (d : t) :
  pitch f <> 0%R ->
  (clarity f >= clarityThreshold d)%R ->
  (now f - lastDetectTime d > 250)%R ->
  onaudioprocess f d =
  (mk (clarityThreshold d) (bufferLength d) (audioCtx d) (stream d)
      (source d) (processor d) (detector d) (detectorClass d) (now f),
   Some (pitch f)).
Proof.
  intros Hp Hc Ht. unfold onaudioprocess.
  destruct (Req_dec_T (pitch f) 0); [contradiction |].
  destruct (Rge_dec (clarity f) (clarityThreshold d)); [| contradiction].
  destruct (Rgt_dec (now f - lastDetectTime d) 250); [reflexivity | contradiction].
Qed.

Lemma onaudioprocess_silent (f : Frame) (d : t) :
  pitch f = 0%R \/ (clarity f < clarityThreshold d)%R \/
  (now f - lastDetectTime d <= 250)%R ->
  onaudioprocess f d = (d, None).
Proof.
  intros H. unfold onaudioprocess.
  destruct (Req_dec_T (pitch f) 0); [reflexivity |].
  destruct (Rge_dec (clarity f) (clarityThreshold d)); [| reflexivity].
  destruct (Rgt_dec (now f - lastDetectTime d) 250); [| reflexivity].
  destruct H as [H | [H | H]]; [contradiction | lra | lra].
Qed.

(** The handler hands a frequency to the callback exactly on a pitch that
    is not zero, of clarity at least the threshold, read more than 250 ms
    after the last one handed over. *)
Lemma onaudioprocess_iff (f : Frame) (d : t) :
  (exists p, snd (onaudioprocess f d) = Some p) <->
  pitch f <> 0%R /\ (clarity f >= clarityThreshold d)%R /\
  (now f - lastDetectTime d > 250)%R.
Proof.
  split.
  - intros [p Hp].
    destruct (Req_dec_T (pitch f) 0) as [E | NE].
    { rewrite onaudioprocess_silent in Hp by auto. discriminate. }
    destruct (Rge_dec (clarity f) (clarityThreshold d)) as [G | NG].
    2:{ rewrite onaudioprocess_silent in Hp by (right; left; lra). discriminate. }
    destruct (Rgt_dec (now f - lastDetectTime d) 250) as [T | NT].
    2:{ rewrite onaudioprocess_silent in Hp by (right; right; lra). discriminate. }
    auto.
  - intros (Hp & Hc & Ht). rewrite onaudioprocess_emits by assumption.
    now exists (pitch f).
Qed.

Lemma running_eq :
  Examples.running = mk 0.85 1024 true true true true true true 0.
Proof. reflexivity. Qed.

(** C1 (as amended). While the processor is set up, a buffer is handed to
    the callback exactly when its pitch is not zero, its clarity is at
    least the threshold and it is read more than 250 ms (a constant of the
    handler) after the last buffer that was handed over; the time of the
    last hand-over moves only on a hand-over, and the two pitches play no
    part.  So of two buffers in a row that pass the pitch and clarity
    tests, the first of which is handed over: the second is dropped when
    it comes at most 250 ms after the first (one event), and handed over
    when it comes more than 250 ms after it (two events). *)
Theorem debounce_global (d : t) (f1 f2 : Frame) :
  processor d = true ->
  ((exists p, snd (deliver f1 d) = Some p) <->
   pitch f1 <> 0%R /\ (clarity f1 >= clarityThreshold d)%R /\
   (now f1 - lastDetectTime d > 250)%R) /\
  (snd (deliver f1 d) = None -> fst (deliver f1 d) = d) /\
  (pitch f1 <> 0%R -> (clarity f1 >= clarityThreshold d)%R ->
   pitch f2 <> 0%R -> (clarity f2 >= clarityThreshold d)%R ->
   (now f1 - lastDetectTime d > 250)%R ->
   lastDetectTime (fst (deliver f1 d)) = now f1 /\
   ((now f2 - now f1 <= 250)%R -> emitted [f1; f2] d = [pitch f1]) /\
   ((now f2 - now f1 > 250)%R -> emitted [f1; f2] d = [pitch f1; pitch f2])).
Proof.
  intros Hproc. unfold deliver. rewrite Hproc. split; [| split].
  - apply onaudioprocess_iff.
  - unfold onaudioprocess.
    destruct (Req_dec_T (pitch f1) 0); [reflexivity |].
    destruct (Rge_dec (clarity f1) (clarityThreshold d)); [| reflexivity].
    destruct (Rgt_dec (now f1 - lastDetectTime d) 250);
      [discriminate | reflexivity].
  - intros Hp1 Hc1 Hp2 Hc2 Ht1. cbn [emitted]. unfold deliver. rewrite Hproc.
    rewrite (onaudioprocess_emits f1 d Hp1 Hc1 Ht1). cbn [fst processor].
    rewrite Hproc.
    split; [reflexivity |]. split; intros Ht2.
    + rewrite onaudioprocess_silent by (right; right; exact Ht2). reflexivity.
    + rewrite onaudioprocess_emits by assumption. reflexivity.
Qed.

Lemma debounce_global_witness :
  processor Examples.running = true /\
  emitted [Examples.bufferA; Examples.bufferAt1300] Examples.running
  = [440%R; 262%R].
Proof.
  split; [reflexivity |].
  refine (proj2 (proj2 (proj2 (proj2
            (debounce_global Examples.running Examples.bufferA
                             Examples.bufferAt1300 eq_refl))
            _ _ _ _ _)) _);
    rewrite ?running_eq; simpl; lra.
Defined.

(** C1 as it was stated fails at the boundary: a buffer read exactly
    250 ms after the last event passes "at least 250 ms have elapsed", and
    the handler drops it. *)
Lemma debounce_at_250_counterexample :
  (clarity Examples.bufferAt1250 >= clarityThreshold Examples.running)%R /\
  pitch Examples.bufferAt1250 <> 0%R /\
  (now Examples.bufferAt1250 - now Examples.bufferA >= 250)%R /\
  emitted [Examples.bufferA; Examples.bufferAt1250] Examples.running
  = [440%R].
Proof.
  rewrite running_eq.
  split; [simpl; lra |]. split; [simpl; lra |]. split; [simpl; lra |].
  cbn [emitted]. unfold deliver. cbn [processor].
  rewrite (onaudioprocess_emits Examples.bufferA) by (simpl; lra).
  cbn [processor].
  rewrite onaudioprocess_silent by (right; right; simpl; lra).
  reflexivity.
Qed.

End DetectorFacts.

(** ** A module and its detector *)

Module ListenerFacts.
Import JS Eff Listener.

Section Generic.
Context {S : Type} `{HasDetector S}.
Variable onFrequency : R -> R -> M S unit.

Lemma listener_noteEvents_app (a b : list (R * R)) (s : S) :
  noteEvents onFrequency (a ++ b) s =
  noteEvents onFrequency b (noteEvents onFrequency a s).
Proof. unfold noteEvents. apply fold_left_app. Qed.

(** Once the module has let its detector go, no event reaches it. *)
Lemma listener_noteEvents_stopped (evs : list (R * R)) (s : S) :
  getDetector s = None -> noteEvents onFrequency evs s = s.
Proof.
  intros Hd. induction evs as [| ev evs IH]; [reflexivity |].
  unfold noteEvents in *. cbn [fold_left]. unfold noteEvent at 2.
  rewrite Hd. exact IH.
Qed.

(** A detector whose processor was never set up calls nothing, however
    many buffers the microphone would have given. *)
Lemma audio_without_processor (fs : list NoteDetector.Frame) (s : S)
      (d : NoteDetector.t) :
  getDetector s = Some d ->
  setDetector (Some d) s = s ->
  NoteDetector.processor d = false ->
  audio onFrequency fs s = s.
Proof.
  intros Hd Hset Hproc. induction fs as [| f fs IH]; [reflexivity |].
  unfold audio in *. cbn [fold_left]. unfold audioprocess at 2.
  rewrite Hd. unfold NoteDetector.deliver. rewrite Hproc, Hset. exact IH.
Qed.


End Generic.

Lemma stars_fast (t0 clock fast mid : R) :
  t0 <> 0%R -> ((clock - t0) / 1000 <= fast)%R ->
  stars (Some t0) clock fast mid = 3.
Proof.
  intros H0 Hf. unfold stars.
  destruct (Req_dec_T t0 0); [contradiction |].
  cbv zeta. destruct (Rle_dec ((clock - t0) / 1000) fast);
    [reflexivity | contradiction].
Qed.

(** The tones of the examples and their pitch classes. *)
Lemma example_tones :
  Common.freqToPitchClass Examples.C4 = Some "C" /\
  Common.freqToPitchClass Examples.Cs4 = Some "C#" /\
  Common.freqToPitchClass Examples.D4 = Some "D" /\
  Common.freqToPitchClass Examples.E4 = Some "E" /\
  Common.freqToPitchClass Examples.F4 = Some "F" /\
  Common.freqToPitchClass Examples.G4 = Some "G" /\
  Common.freqToPitchClass Examples.As4 = Some "A#".
Proof.
  unfold Examples.C4, Examples.Cs4, Examples.D4, Examples.E4, Examples.F4,
    Examples.G4, Examples.As4.
  rewrite !CodecFacts.freqToPitchClass_midiToFreq. repeat split.
Qed.

Lemma emitted_without_processor (fs : list NoteDetector.Frame)
      (d : NoteDetector.t) :
  NoteDetector.processor d = false -> NoteDetector.emitted fs d = [].
Proof.
  intros Hproc. induction fs as [| f fs IH]; [reflexivity |].
  cbn [NoteDetector.emitted]. unfold NoteDetector.deliver.
  rewrite Hproc. exact IH.
Qed.

(** [start()] when [getUserMedia] fails, on a detector that was just
    created. *)
Lemma start_when_refused (err : string) (threshold : option R) :
  exists d,
    NoteDetector.start (NoteDetector.mkEnv (Return tt) (Throw err))
                       (NoteDetector.new threshold)
    = (d,
       [NoteDetector.ConsoleError "Microphone access denied:" err;
        NoteDetector.Alert NoteDetector.micAlert],
       NoteDetector.Resolved) /\
    NoteDetector.processor d = false.
Proof. eexists. split; reflexivity. Qed.

(** C2 (as amended). When [getUserMedia] fails, [start()] does not fail:
    it logs the error, shows the alert that the microphone cannot be
    reached, and its promise resolves, so that the caller gets no error.
    The processor is not set up, the detector hands nothing to the
    callback whatever buffers follow, and each of the four exercises that
    started the recording stays as it was set up, its status reading the
    listening text, with no verdict (the note-reading exercise does
    nothing at all when it has no current note). *)
Theorem microphone_denied (err : string) (clock : R)
        (fs : list NoteDetector.Frame)
        (c : Chords.State) (i : Intervals.State)
        (m : Memory.State) (r : Reading.State) :
  let env := NoteDetector.mkEnv (Return tt) (Throw err) in
  let shown := [NoteDetector.ConsoleError "Microphone access denied:" err;
                NoteDetector.Alert NoteDetector.micAlert] in
  (exists d,
      NoteDetector.start env (NoteDetector.new (Some 0.85%R))
      = (d, shown, NoteDetector.Resolved) /\
      NoteDetector.processor d = false /\
      NoteDetector.emitted fs d = []) /\
  (exists c',
      Chords.startRecording clock env c = (c', shown, NoteDetector.Resolved) /\
      text (Chords.status c') = listening /\
      Chords.userPitchClasses c' = [] /\
      Chords.audio fs c' = c') /\
  (exists i',
      Intervals.startRecording clock env i = (i', shown, NoteDetector.Resolved) /\
      verdict (Intervals.status i') = Collecting /\
      text (Intervals.status i') = listening /\
      Intervals.audio fs i' = i') /\
  (exists m',
      Memory.startRecording clock env m = (m', shown, NoteDetector.Resolved) /\
      verdict (Memory.status m') = Collecting /\
      text (Memory.status m') = listening /\
      Memory.audio fs m' = m') /\
  (Reading.currentNote r = None ->
   Reading.startRecording clock env r = (r, [], NoteDetector.Resolved)) /\
  (Reading.currentNote r <> None ->
   exists r',
     Reading.startRecording clock env r = (r', shown, NoteDetector.Resolved) /\
     verdict (Reading.status r') = Collecting /\
     text (Reading.status r') = listening /\
     Reading.audio fs r' = r').
Proof.
  intros env shown.
  destruct (start_when_refused err (Some 0.85%R)) as (d & Hstart & Hproc).
  fold env shown in Hstart.
  split; [| split; [| split; [| split; [| split]]]].
  - exists d. repeat split; try assumption.
    now apply emitted_without_processor.
  - unfold Chords.startRecording. rewrite Hstart.
    eexists. split; [reflexivity |]. repeat split.
    apply (audio_without_processor Chords.onFrequency fs _ d);
      [reflexivity | reflexivity | exact Hproc].
  - unfold Intervals.startRecording. rewrite Hstart.
    eexists. split; [reflexivity |]. repeat split.
    apply (audio_without_processor Intervals.onFrequency fs _ d);
      [reflexivity | reflexivity | exact Hproc].
  - unfold Memory.startRecording. rewrite Hstart.
    eexists. split; [reflexivity |]. repeat split.
    apply (audio_without_processor Memory.onFrequency fs _ d);
      [reflexivity | reflexivity | exact Hproc].
  - intros Hnote. unfold Reading.startRecording. now rewrite Hnote.
  - intros Hnote. unfold Reading.startRecording.
    destruct (Reading.currentNote r) as [note |] eqn:E; [| congruence].
    rewrite Hstart. eexists. split; [reflexivity |]. repeat split.
    apply (audio_without_processor Reading.onFrequency fs _ d);
      [reflexivity | reflexivity | exact Hproc].
Qed.

Lemma microphone_denied_witness :
  Reading.currentNote Examples.readingA4 <> None /\
  exists r',
    Reading.startRecording 500 Examples.denied Examples.readingA4
    = (r',
       [NoteDetector.ConsoleError "Microphone access denied:" "NotAllowedError";
        NoteDetector.Alert NoteDetector.micAlert],
       NoteDetector.Resolved) /\
    verdict (Reading.status r') = Collecting /\
    text (Reading.status r') = listening /\
    Reading.audio [Examples.bufferA; Examples.bufferAt1300] r' = r'.
Proof.
  assert (H : Reading.currentNote Examples.readingA4 <> None) by discriminate.
  split; [exact H |].
  exact (proj2 (proj2 (proj2 (proj2 (proj2
           (microphone_denied "NotAllowedError" 500
              [Examples.bufferA; Examples.bufferAt1300]
              Examples.chordListening Examples.intervalListening
              Examples.memoryListening Examples.readingA4))))) H).
Defined.

(** C2 as it was stated fails: with the microphone refused, the promise of
    [start()] resolves, and no error of any kind reaches the caller. *)
Lemma start_denied_counterexample :
  snd (NoteDetector.start Examples.denied (NoteDetector.new (Some 0.85%R)))
  = NoteDetector.Resolved /\
  forall e,
    snd (NoteDetector.start Examples.denied (NoteDetector.new (Some 0.85%R)))
    <> NoteDetector.Rejected e.
Proof. split; [reflexivity | discriminate]. Qed.

End ListenerFacts.

(** ** The chord exercise *)

Module ChordsFacts.
Import JS Eff Common Listener Chords.

Lemma chords_event_resolved (s : State) (d : NoteDetector.t)
      (freq clock : R) (pc : string) :
  detector s = Some d -> NoteDetector.processor d = true ->
  freqToPitchClass freq = Some pc ->
  noteEvent onFrequency (freq, clock) s = fst (onPitchClass pc clock s).
Proof.
  intros Hd Hp Hpc. unfold noteEvent, callback, onFrequency.
  cbn [getDetector hasDetector fst snd]. now rewrite Hd, Hp, Hpc.
Qed.

(** The run that C3 fails on, with any detector that is running, any
    clock readings and any four frequencies of the pitch classes C, E, D
    and G. *)
Lemma covered_by_the_fourth (d : NoteDetector.t) (cur : option Chord)
      (rs : option R) (cls : string) (total : Z)
      (f1 f2 f3 f4 t1 t2 t3 t4 : R) :
  NoteDetector.processor d = true ->
  freqToPitchClass f1 = Some "C" -> freqToPitchClass f2 = Some "E" ->
  freqToPitchClass f3 = Some "D" -> freqToPitchClass f4 = Some "G" ->
  let s0 := mkState cur ["C"; "E"; "G"] [] (Some d) rs
                    (mkStatus listening cls) total in
  let s3 := noteEvents [(f1, t1); (f2, t2); (f3, t3)] s0 in
  s3 = mkState cur ["C"; "E"; "G"] ["C"; "E"; "D"] (Some d) rs
               (mkStatus listening cls) total /\
  onPitchClass "G" t4 s3 =
  (mkState cur ["C"; "E"; "G"] ["C"; "E"; "D"; "G"] None rs
           (mkStatus tooMany "status result-failure")
           (total + stars rs t4 5 10),
   Throw "TypeError: Cannot read properties of null (reading 'stop')") /\
  noteEvents [(f1, t1); (f2, t2); (f3, t3); (f4, t4)] s0 =
  mkState cur ["C"; "E"; "G"] ["C"; "E"; "D"; "G"] None rs
          (mkStatus tooMany "status result-failure")
          (total + stars rs t4 5 10).
Proof.
  intros Hp H1 H2 H3 H4 s0 s3.
  assert (E3 : s3 = mkState cur ["C"; "E"; "G"] ["C"; "E"; "D"] (Some d) rs
                            (mkStatus listening cls) total).
  { pose (st := fun u => mkState cur ["C"; "E"; "G"] u (Some d) rs
                                 (mkStatus listening cls) total).
    assert (E1 : noteEvent onFrequency (f1, t1) (st []) = st ["C"])
      by (now rewrite (chords_event_resolved (st []) d f1 t1 "C" eq_refl Hp H1)).
    assert (E2 : noteEvent onFrequency (f2, t2) (st ["C"]) = st ["C"; "E"])
      by (now rewrite (chords_event_resolved (st ["C"]) d f2 t2 "E" eq_refl Hp H2)).
    assert (E3 : noteEvent onFrequency (f3, t3) (st ["C"; "E"])
                 = st ["C"; "E"; "D"])
      by (now rewrite (chords_event_resolved (st ["C"; "E"]) d f3 t3 "D" eq_refl Hp H3)).
    unfold s3, s0, noteEvents, Listener.noteEvents. cbn [fold_left].
    fold (st []). now rewrite E1, E2, E3. }
  split; [exact E3 |]. split.
  - rewrite E3. reflexivity.
  - change [(f1, t1); (f2, t2); (f3, t3); (f4, t4)]
      with ([(f1, t1); (f2, t2); (f3, t3)] ++ [(f4, t4)])%list.
    unfold noteEvents. rewrite ListenerFacts.listener_noteEvents_app.
    change (Listener.noteEvents onFrequency [(f1, t1); (f2, t2); (f3, t3)] s0)
      with s3.
    rewrite E3.
    unfold Listener.noteEvents. cbn [fold_left].
    now rewrite (chords_event_resolved (mkState cur ["C"; "E"; "G"] ["C"; "E"; "D"]
                                         (Some d) rs (mkStatus listening cls)
                                         total)
                                d f4 t4 "G" eq_refl Hp H4).
Qed.

(** A pitch class that was already recorded changes nothing. *)
Lemma duplicate_ignored (s : State) (pc : string) (clock : R) :
  includes (userPitchClasses s) pc = true ->
  onPitchClass pc clock s = (s, Return tt).
Proof.
  intros Hin. unfold onPitchClass, bind, get, when. now rewrite Hin.
Qed.

(** C3 fails on the code (a defect of the code). The target is the chord
    C, E, G and the notes heard are C, E, D, G.  With the fourth note the
    observed set covers the target, so the exercise should end in success,
    and the callback does run the success branch: three stars are awarded
    and the detector is let go.  It then falls through to the count test,
    finds four notes against three, writes the failure text and class over
    the success, and calls [stop] on the detector variable that is [null]
    by then.  Both verdicts are reached on one event. *)
Theorem chord_success_overwritten :
  expectedPitchClasses Examples.chordListening = ["C"; "E"; "G"] /\
  verdict (status (noteEvents
                     [(Examples.C4, 1000%R); (Examples.E4, 2000%R);
                      (Examples.D4, 3000%R)]
                     Examples.chordListening)) = Collecting /\
  snd (onPitchClass "G" 4000
         (noteEvents [(Examples.C4, 1000%R); (Examples.E4, 2000%R);
                      (Examples.D4, 3000%R)]
                     Examples.chordListening))
  = Throw "TypeError: Cannot read properties of null (reading 'stop')" /\
  noteEvents [(Examples.C4, 1000%R); (Examples.E4, 2000%R);
              (Examples.D4, 3000%R); (Examples.G4, 4000%R)]
             Examples.chordListening
  = mkState (Some (mkChord "C dur" ["C4"; "E4"; "G4"]))
            ["C"; "E"; "G"] ["C"; "E"; "D"; "G"] None (Some 500%R)
            (mkStatus tooMany "status result-failure") 3.
Proof.
  destruct ListenerFacts.example_tones as (HC & _ & HD & HE & _ & HG & _).
  pose proof (covered_by_the_fourth
                Examples.running (Some (mkChord "C dur" ["C4"; "E4"; "G4"]))
                (Some 500%R) "status" 0
                Examples.C4 Examples.E4 Examples.D4 Examples.G4
                1000 2000 3000 4000 eq_refl HC HE HD HG) as H.
  cbv zeta in H. destruct H as (H3 & H4 & Hall).
  change (mkState (Some (mkChord "C dur" ["C4"; "E4"; "G4"]))
                  ["C"; "E"; "G"] [] (Some Examples.running) (Some 500%R)
                  (mkStatus listening "status") 0)
    with Examples.chordListening in *.
  assert (Hstars : stars (Some 500%R) 4000 5 10 = 3)
    by (apply ListenerFacts.stars_fast; lra).
  rewrite Hstars in *.
  split; [reflexivity |].
  split; [now rewrite H3 |].
  split; [now rewrite H4 |].
  exact Hall.
Qed.

End ChordsFacts.

(** ** The interval exercise *)

Module IntervalsFacts.
Import JS Eff Common Listener Intervals.

Lemma intervals_event_resolved (s : State) (d : NoteDetector.t)
      (freq clock : R) (pc : string) :
  detector s = Some d -> NoteDetector.processor d = true ->
  freqToPitchClass freq = Some pc ->
  noteEvent onFrequency (freq, clock) s = fst (onPitchClass pc clock s).
Proof.
  intros Hd Hp Hpc. unfold noteEvent, callback, onFrequency.
  cbn [getDetector hasDetector fst snd]. now rewrite Hd, Hp, Hpc.
Qed.

Lemma intervals_event_unresolved (s : State) (freq clock : R) :
  freqToPitchClass freq = None ->
  noteEvent onFrequency (freq, clock) s = s.
Proof.
  intros Hpc. unfold noteEvent, callback, onFrequency.
  cbn [fst snd]. rewrite Hpc.
  destruct (getDetector s) as [d |]; [| reflexivity].
  now destruct (NoteDetector.processor d).
Qed.

(** The second distinct pitch class ends the round. *)
Lemma second_pitch_class (target : Z) (desc : string) (notes : list string)
      (d : NoteDetector.t) (rs : option R) (st : Status) (total : Z)
      (n1 n2 : string) (clock : R) :
  In n1 NOTE_NAMES -> In n2 NOTE_NAMES -> n2 <> n1 ->
  fst (onPitchClass n2 clock
         (mkState (Some target) desc notes [n1] (Some d) rs st total)) =
  if (indexOf NOTE_NAMES n2 - indexOf NOTE_NAMES n1) mod 12 =? target
  then mkState (Some target) desc notes [n1; n2] None rs
               (mkStatus ("Świetnie! Poprawnie rozpoznałeś interwał. "
                          ++ starString (stars rs clock 4 8))
                         "status result-success")
               (total + stars rs clock 4 8)
  else mkState (Some target) desc notes [n1; n2] None rs
               (mkStatus (failureMessage
                            (intervalNameFromSemitone
                               ((indexOf NOTE_NAMES n2 - indexOf NOTE_NAMES n1)
                                  mod 12)))
                         "status result-failure")
               total.
Proof.
  intros H1 H2 Hne.
  destruct (CodecFacts.indexOf_NOTE_NAMES n1 H1) as [Hr1 _].
  destruct (CodecFacts.indexOf_NOTE_NAMES n2 H2) as [Hr2 _].
  unfold onPitchClass, bind, get, when, modify, includes.
  cbn [userPitchClasses existsb orb negb].
  apply String.eqb_neq in Hne. rewrite Hne. cbn [orb negb].
  cbn -[stars indexOf NOTE_NAMES intervalNameFromSemitone Z.rem].
  unfold evaluateInterval, bind, get, modify, ret.
  cbn [userPitchClasses].
  replace (indexOf NOTE_NAMES n1 =? -1) with false by (symmetry; lia).
  replace (indexOf NOTE_NAMES n2 =? -1) with false by (symmetry; lia).
  cbn [orb]. rewrite CodecFacts.js_mod12.
  cbn [currentIntervalSemitone].
  destruct (_ =? target); reflexivity.
Qed.

Lemma intervals_noteEvents_cons (ev : R * R) (evs : list (R * R)) (s : State) :
  noteEvents (ev :: evs) s = noteEvents evs (noteEvent onFrequency ev s).
Proof. reflexivity. Qed.

Lemma intervals_noteEvents_app (a b : list (R * R)) (s : State) :
  noteEvents (a ++ b) s = noteEvents b (noteEvents a s).
Proof. apply ListenerFacts.listener_noteEvents_app. Qed.

Lemma intervals_noteEvents_stopped (evs : list (R * R)) (s : State) :
  detector s = None -> noteEvents evs s = s.
Proof. exact (ListenerFacts.listener_noteEvents_stopped onFrequency evs s). Qed.

(** Nothing heard yet: the state does not move. *)
Lemma intervals_run_unresolved (evs : list (R * R)) (s : State) :
  detected evs = [] -> noteEvents evs s = s.
Proof.
  induction evs as [| [freq clock] evs IH]; intros Hdet; [reflexivity |].
  cbn [detected fst] in Hdet.
  destruct (freqToPitchClass freq) as [pc |] eqn:Hpc; [discriminate |].
  rewrite intervals_noteEvents_cons, (intervals_event_unresolved s freq clock Hpc). now apply IH.
Qed.

(** The first pitch class again: the state does not move. *)
Lemma run_duplicates (n1 : string) (evs : list (R * R)) (s : State)
      (d : NoteDetector.t) :
  detector s = Some d -> NoteDetector.processor d = true ->
  userPitchClasses s = [n1] ->
  Forall (eq n1) (detected evs) -> noteEvents evs s = s.
Proof.
  intros Hd Hp Hu.
  induction evs as [| [freq clock] evs IH]; intros Hall; [reflexivity |].
  cbn [detected fst] in Hall. rewrite intervals_noteEvents_cons.
  destruct (freqToPitchClass freq) as [pc |] eqn:Hpc.
  - inversion Hall as [| ? ? Heq Hrest]; subst.
    rewrite (intervals_event_resolved s d freq clock pc Hd Hp Hpc).
    assert (Hsame : fst (onPitchClass pc clock s) = s).
    { unfold onPitchClass, bind, get, when, includes. rewrite Hu.
      cbn [existsb]. now rewrite String.eqb_refl. }
    rewrite Hsame. now apply IH.
  - rewrite (intervals_event_unresolved s freq clock Hpc). now apply IH.
Qed.

(** After the first pitch class and its repetitions, it alone is
    recorded. *)
Lemma run_first (n1 : string) (dups : list string) (evs : list (R * R))
      (s : State) (d : NoteDetector.t) :
  detector s = Some d -> NoteDetector.processor d = true ->
  userPitchClasses s = [] ->
  detected evs = n1 :: dups -> Forall (eq n1) dups ->
  noteEvents evs s = withUser [n1] s.
Proof.
  intros Hd Hp Hu.
  induction evs as [| [freq clock] evs IH]; intros Hdet Hall; [discriminate |].
  cbn [detected fst] in Hdet. rewrite intervals_noteEvents_cons.
  destruct (freqToPitchClass freq) as [pc |] eqn:Hpc.
  - injection Hdet as -> Hrest.
    rewrite (intervals_event_resolved s d freq clock n1 Hd Hp Hpc).
    assert (Hpush : fst (onPitchClass n1 clock s) = withUser [n1] s).
    { unfold onPitchClass, bind, get, when, modify, includes. rewrite Hu.
      reflexivity. }
    rewrite Hpush.
    apply (run_duplicates n1 evs (withUser [n1] s) d);
      [exact Hd | exact Hp | reflexivity | now rewrite Hrest].
  - rewrite (intervals_event_unresolved s freq clock Hpc). now apply IH.
Qed.

(** A recording of the interval exercise up to and past the first event of
    a second pitch class. *)
Lemma intervals_run_verdict (s0 : State) (d : NoteDetector.t) (target : Z)
        (n1 n2 : string) (dups : list string)
        (heard later : list (R * R)) (e2 : R * R) :
  detector s0 = Some d -> NoteDetector.processor d = true ->
  userPitchClasses s0 = [] -> status s0 = mkStatus listening "status" ->
  currentIntervalSemitone s0 = Some target ->
  detected heard = n1 :: dups -> Forall (eq n1) dups ->
  freqToPitchClass (fst e2) = Some n2 -> n2 <> n1 ->
  let dist := (indexOf NOTE_NAMES n2 - indexOf NOTE_NAMES n1) mod 12 in
  let s' := noteEvents (heard ++ e2 :: later) s0 in
  verdict (status (noteEvents heard s0)) = Collecting /\
  userPitchClasses s' = [n1; n2] /\
  (verdict (status s') = Success <-> dist = target) /\
  (verdict (status s') = Failure <-> dist <> target) /\
  (dist <> target ->
   text (status s') = failureMessage (intervalNameFromSemitone dist)) /\
  ((indexOf NOTE_NAMES "F" - indexOf NOTE_NAMES "C") mod 12 = 5 /\
   failureMessage (intervalNameFromSemitone 5)
   = "Niestety, to kwarta czysta. Spróbuj ponownie.").
Proof.
  intros Hd Hp Hu Hst Ht Hheard Hdups Hn2 Hne dist s'.
  assert (Hin1 : In n1 NOTE_NAMES).
  { assert (Hex : exists f, freqToPitchClass f = Some n1).
    { clear - Hheard. induction heard as [| [f c] evs IH]; [discriminate |].
      cbn [detected fst] in Hheard.
      destruct (freqToPitchClass f) as [pc |] eqn:E.
      - injection Hheard as -> _. now exists f.
      - now apply IH. }
    destruct Hex as [f Hf]. exact (CodecFacts.freqToPitchClass_In f n1 Hf). }
  pose proof (CodecFacts.freqToPitchClass_In _ _ Hn2) as Hin2.
  pose proof (run_first n1 dups heard s0 d Hd Hp Hu Hheard Hdups) as Hrun.
  assert (Hs' : s' = fst (onPitchClass n2 (snd e2) (withUser [n1] s0))).
  { unfold s'. rewrite intervals_noteEvents_app, Hrun, intervals_noteEvents_cons.
    destruct e2 as [f2 c2]. cbn [fst snd] in *.
    rewrite (intervals_event_resolved (withUser [n1] s0) d f2 c2 n2 Hd Hp Hn2).
    apply intervals_noteEvents_stopped.
    destruct s0 as [t0 desc notes u det rs st total].
    cbn in Ht, Hd. subst t0 det. unfold withUser.
    cbn [currentIntervalSemitone currentIntervalDescription
         expectedIntervalNotes detector recordStartTime status pianoStars].
    rewrite (second_pitch_class target desc notes d rs st total n1 n2 c2
                                Hin1 Hin2 Hne).
    destruct (_ =? target); reflexivity. }
  split; [rewrite Hrun; cbn; now rewrite Hst |].
  destruct s0 as [t0 desc notes u det rs st total].
  cbn in Ht, Hd, Hst. subst t0 det st. unfold withUser in Hs'.
  cbn [currentIntervalSemitone currentIntervalDescription
       expectedIntervalNotes detector recordStartTime status pianoStars] in Hs'.
  rewrite (second_pitch_class target desc notes d rs _ total n1 n2 (snd e2)
                              Hin1 Hin2 Hne) in Hs'.
  fold dist in Hs'. rewrite Hs'.
  destruct (Z.eqb_spec dist target) as [E | NE].
  - cbn [userPitchClasses status text className]. split; [reflexivity |].
    split; [split; [intros _; exact E | reflexivity] |].
    split; [split; [discriminate | contradiction] |].
    split; [contradiction | split; reflexivity].
  - cbn [userPitchClasses status text className]. split; [reflexivity |].
    split; [split; [discriminate | contradiction] |].
    split; [split; [intros _; exact NE | reflexivity] |].
    split; [reflexivity | split; reflexivity].
Qed.

(** C4. From the start of a recording, the interval exercise stays in
    collecting while it has heard one pitch class only, however often.
    With the first event of a second pitch class it records the two in the
    order heard, takes the distance upwards from the first to the second
    modulo 12, and ends: in success exactly when that distance is the
    target, in failure otherwise, and then the status text is "Niestety,
    to", the name of the interval of the distance heard, and "Spróbuj
    ponownie.", the name being the entry of that distance in the twelve
    names from "pryma czysta" to "septyma wielka".  Later events change
    nothing.  C then F is distance 5, named "kwarta czysta". *)
Theorem interval_verdict (s0 : State) (d : NoteDetector.t) (target : Z)
        (n1 n2 : string) (dups : list string)
        (heard later : list (R * R)) (e2 : R * R) :
  detector s0 = Some d -> NoteDetector.processor d = true ->
  userPitchClasses s0 = [] -> status s0 = mkStatus listening "status" ->
  currentIntervalSemitone s0 = Some target ->
  detected heard = n1 :: dups -> Forall (eq n1) dups ->
  freqToPitchClass (fst e2) = Some n2 -> n2 <> n1 ->
  let dist := (indexOf NOTE_NAMES n2 - indexOf NOTE_NAMES n1) mod 12 in
  let s' := noteEvents (heard ++ e2 :: later) s0 in
  verdict (status (noteEvents heard s0)) = Collecting /\
  userPitchClasses s' = [n1; n2] /\
  (verdict (status s') = Success <-> dist = target) /\
  (verdict (status s') = Failure <-> dist <> target) /\
  (dist <> target ->
   text (status s') = failureMessage (intervalNameFromSemitone dist)) /\
  (dist <> target ->
   exists name : string,
     nth_error
       ["pryma czysta"; "sekunda mała"; "sekunda wielka"; "tercja mała";
        "tercja wielka"; "kwarta czysta"; "tryton"; "kwinta czysta";
        "seksta mała"; "seksta wielka"; "septyma mała"; "septyma wielka"]
       (Z.to_nat dist) = Some name /\
     status s' = mkStatus ("Niestety, to " ++ name ++ ". Spróbuj ponownie.")
                          "status result-failure") /\
  ((indexOf NOTE_NAMES "F" - indexOf NOTE_NAMES "C") mod 12 = 5 /\
   failureMessage (intervalNameFromSemitone 5)
   = "Niestety, to kwarta czysta. Spróbuj ponownie.").
Proof.
  intros Hd Hp Hu Hst Ht Hheard Hdups Hn2 Hne dist s'.
  destruct (intervals_run_verdict s0 d target n1 n2 dups heard later e2
              Hd Hp Hu Hst Ht Hheard Hdups Hn2 Hne)
    as (H1 & H2 & H3 & H4 & H5 & H6).
  fold dist s' in H2, H3, H4, H5.
  split; [exact H1 |]. split; [exact H2 |]. split; [exact H3 |].
  split; [exact H4 |]. split; [exact H5 |]. split; [| exact H6].
  intros NE.
  assert (Hrange : 0 <= dist < 12) by (apply Z.mod_pos_bound; lia).
  assert (Hclass : className (status s') = "status result-failure").
  { apply H4 in NE. unfold verdict in NE.
    destruct (String.eqb (className (status s')) "status result-success");
      [discriminate |].
    destruct (String.eqb_spec (className (status s')) "status result-failure");
      [assumption | discriminate]. }
  specialize (H5 NE). unfold intervalNameFromSemitone, at_index in H5.
  destruct (Z.ltb_spec dist 0) as [| _]; [lia |].
  destruct (nth_error intervalNames (Z.to_nat dist)) as [name |] eqn:E.
  - exists name. split; [exact E |].
    destruct (status s') as [t c]. cbn [text className] in *.
    now rewrite H5, Hclass.
  - apply nth_error_None in E. cbn [List.length intervalNames] in E. lia.
Qed.

Lemma interval_verdict_witness :
  detected [(Examples.C4, 1000%R); (Examples.C4, 1400%R)] = ["C"; "C"] /\
  freqToPitchClass Examples.F4 = Some "F" /\
  currentIntervalSemitone Examples.intervalListening = Some 7 /\
  verdict (status (noteEvents
                     ([(Examples.C4, 1000%R); (Examples.C4, 1400%R)]
                        ++ (Examples.F4, 2000%R) :: [(Examples.G4, 3000%R)])
                     Examples.intervalListening)) = Failure /\
  text (status (noteEvents
                  ([(Examples.C4, 1000%R); (Examples.C4, 1400%R)]
                     ++ (Examples.F4, 2000%R) :: [(Examples.G4, 3000%R)])
                  Examples.intervalListening))
  = "Niestety, to kwarta czysta. Spróbuj ponownie.".
Proof.
  destruct ListenerFacts.example_tones as (HC & _ & _ & _ & HF & _ & _).
  assert (Hheard : detected [(Examples.C4, 1000%R); (Examples.C4, 1400%R)]
                   = ["C"; "C"])
    by (cbn [detected fst]; now rewrite HC).
  pose proof (interval_verdict
                Examples.intervalListening Examples.running 7 "C" "F" ["C"]
                [(Examples.C4, 1000%R); (Examples.C4, 1400%R)]
                [(Examples.G4, 3000%R)] (Examples.F4, 2000%R)
                eq_refl eq_refl eq_refl eq_refl eq_refl Hheard
                (Forall_cons "C" eq_refl (Forall_nil _)) HF
                ltac:(discriminate)) as H.
  cbv zeta in H. destruct H as (_ & _ & _ & Hfail & _ & Hname & _).
  split; [exact Hheard |]. split; [exact HF |]. split; [reflexivity |].
  split.
  - apply Hfail. vm_compute. discriminate.
  - destruct Hname as (name & Hnth & Hstatus); [vm_compute; discriminate |].
    rewrite Hstatus. cbn [text].
    change (Z.to_nat ((indexOf NOTE_NAMES "F" - indexOf NOTE_NAMES "C") mod 12))
      with 5%nat in Hnth.
    injection Hnth as <-. reflexivity.
Defined.

End IntervalsFacts.

(** ** The memory exercise *)

Module MemoryFacts.
Import JS Eff Common Listener Memory.

Lemma memory_event_resolved (s : State) (d : NoteDetector.t)
      (freq clock : R) (pc : string) :
  detector s = Some d -> NoteDetector.processor d = true ->
  freqToPitchClass freq = Some pc ->
  noteEvent onFrequency (freq, clock) s = fst (onPitchClass pc clock s).
Proof.
  intros Hd Hp Hpc. unfold noteEvent, callback, onFrequency.
  cbn [getDetector hasDetector fst snd]. now rewrite Hd, Hp, Hpc.
Qed.

Lemma memory_noteEvents_app (a b : list (R * R)) (s : State) :
  noteEvents (a ++ b) s = noteEvents b (noteEvents a s).
Proof. apply ListenerFacts.listener_noteEvents_app. Qed.

Lemma memory_noteEvents_stopped (evs : list (R * R)) (s : State) :
  detector s = None -> noteEvents evs s = s.
Proof. exact (ListenerFacts.listener_noteEvents_stopped onFrequency evs s). Qed.

(** The callback returns at once on a pitch class that is not natural. *)
Lemma non_natural_returns (s : State) (pc : string) (clock : R) :
  includes naturals pc = false -> onPitchClass pc clock s = (s, Return tt).
Proof. intros H. unfold onPitchClass. now rewrite H. Qed.

(** An event that the exercise does not take: no pitch class, or one that
    is not natural. *)
Lemma event_skipped (s : State) (freq clock : R) :
  match freqToPitchClass freq with
  | Some pc => includes naturals pc = false
  | None => True
  end ->
  noteEvent onFrequency (freq, clock) s = s.
Proof.
  intros H. unfold noteEvent, callback, onFrequency. cbn [fst snd].
  destruct (getDetector s) as [d |]; [| reflexivity].
  destruct (NoteDetector.processor d); [| reflexivity].
  destruct (freqToPitchClass freq) as [pc |]; [| reflexivity].
  now rewrite non_natural_returns.
Qed.

Lemma allEqual_eq (expected user : list string) :
  List.length user = List.length expected ->
  (allEqual expected user = true <-> expected = user).
Proof.
  revert user. induction expected as [| e es IH]; intros [| u us] Hlen;
    try discriminate.
  - split; reflexivity.
  - cbn [allEqual]. injection Hlen as Hlen.
    destruct (String.eqb_spec e u) as [-> | NE].
    + rewrite (IH us Hlen). split; [now intros -> | now intros [= ->]].
    + split; [discriminate | intros [= E _]; contradiction].
Qed.

(** [evaluateSequence] once as many notes are recorded as expected. *)
Lemma evaluate_full (s : State) (clock : R) :
  List.length (userSequence s) = List.length (expectedSequence s) ->
  userSequence (fst (evaluateSequence clock s)) = userSequence s /\
  detector (fst (evaluateSequence clock s)) = detector s /\
  expectedSequence (fst (evaluateSequence clock s)) = expectedSequence s /\
  (expectedSequence s = userSequence s ->
   verdict (status (fst (evaluateSequence clock s))) = Success) /\
  (expectedSequence s <> userSequence s ->
   status (fst (evaluateSequence clock s))
   = mkStatus wrongSequence "status result-failure").
Proof.
  intros Hlen. unfold evaluateSequence, bind, get, modify.
  rewrite Hlen, Nat.eqb_refl. cbn [negb].
  pose proof (allEqual_eq _ _ Hlen) as Heq.
  destruct (allEqual (expectedSequence s) (userSequence s)).
  - repeat split. intros NE. exfalso. apply NE. now apply Heq.
  - repeat split. intros E. apply Heq in E. discriminate.
Qed.

(** The callback on a natural pitch class while the detector runs. *)
Lemma natural_step (s : State) (d : NoteDetector.t) (pc : string) (clock : R) :
  detector s = Some d -> includes naturals pc = true ->
  fst (onPitchClass pc clock s) =
  if (List.length (userSequence s) <? List.length (expectedSequence s))%nat
  then
    if (List.length (userSequence s ++ [pc])
        =? List.length (expectedSequence s))%nat
    then fst (evaluateSequence clock
                (withDetector None (withUser (userSequence s ++ [pc]) s)))
    else withUser (userSequence s ++ [pc]) s
  else s.
Proof.
  intros Hd Hnat. unfold onPitchClass. rewrite Hnat. cbn [negb].
  unfold bind at 1, get at 1.
  destruct (List.length (userSequence s) <? List.length (expectedSequence s))%nat;
    [| reflexivity].
  unfold when at 1, bind at 1, modify at 1, bind at 1, get at 1.
  cbn [userSequence withUser expectedSequence].
  destruct (List.length (userSequence s ++ [pc])
            =? List.length (expectedSequence s))%nat; [| reflexivity].
  unfold when, bind, stopDetector.
  cbn [getDetector setDetector hasDetector detector withUser]. rewrite Hd.
  destruct (evaluateSequence clock _) as [s' [[] | e]]; reflexivity.
Qed.

Lemma detected_app (a b : list (R * R)) :
  detected (a ++ b) = (detected a ++ detected b)%list.
Proof.
  induction a as [| [f c] a IH]; [reflexivity |].
  cbn [detected fst app]. destruct (freqToPitchClass f); [| exact IH].
  cbn [app]. now rewrite IH.
Qed.

(** The state of the exercise after any events, by the natural pitch
    classes among them: they are recorded one by one while fewer than the
    expected number came, and the round ends with the one that completes
    the number. *)
Lemma run_characterised (s0 : State) (d : NoteDetector.t)
      (evs : list (R * R)) :
  detector s0 = Some d -> NoteDetector.processor d = true ->
  userSequence s0 = [] -> expectedSequence s0 <> [] ->
  let target := expectedSequence s0 in
  let obs := filter (includes naturals) (detected evs) in
  let s := noteEvents evs s0 in
  ((List.length obs < List.length target)%nat -> s = withUser obs s0) /\
  ((List.length target <= List.length obs)%nat ->
   detector s = None /\
   userSequence s = firstn (List.length target) obs /\
   (target = firstn (List.length target) obs ->
    verdict (status s) = Success) /\
   (target <> firstn (List.length target) obs ->
    status s = mkStatus wrongSequence "status result-failure")).
Proof.
  intros Hd Hp Hu Hne target.
  assert (Hlen0 : (0 < List.length target)%nat).
  { unfold target. destruct (expectedSequence s0); [congruence | simpl; lia]. }
  induction evs as [| [freq clock] evs IH] using rev_ind.
  - cbn. split; [| lia]. intros _. destruct s0; cbn in Hu; now subst.
  - cbv zeta in IH. cbv zeta. rewrite memory_noteEvents_app, detected_app, filter_app.
    change (noteEvents [(freq, clock)] (noteEvents evs s0))
      with (noteEvent onFrequency (freq, clock) (noteEvents evs s0)).
    set (obs := filter (includes naturals) (detected evs)) in *.
    set (s := noteEvents evs s0) in *.
    cbn [detected fst].
    destruct (freqToPitchClass freq) as [pc |] eqn:Hpc.
    2:{ cbn [filter]. rewrite app_nil_r.
        rewrite (event_skipped s freq clock) by now rewrite Hpc.
        exact IH. }
    cbn [filter]. destruct (includes naturals pc) eqn:Hnat.
    2:{ rewrite app_nil_r.
        rewrite (event_skipped s freq clock) by now rewrite Hpc.
        exact IH. }
    destruct IH as [IHlt IHge]. rewrite length_app. cbn [List.length].
    destruct (Nat.lt_ge_cases (List.length obs) (List.length target))
      as [Hlt | Hge].
    + specialize (IHlt Hlt). rewrite IHlt.
      rewrite (memory_event_resolved (withUser obs s0) d freq clock pc Hd Hp Hpc).
      rewrite (natural_step (withUser obs s0) d pc clock Hd Hnat).
      cbn [userSequence expectedSequence withUser]. fold target.
      apply Nat.ltb_lt in Hlt as Hltb. rewrite Hltb.
      rewrite length_app. cbn [List.length].
      destruct (Nat.eqb_spec (List.length obs + 1) (List.length target))
        as [Heq | Hneq].
      * split; [lia |]. intros _.
        assert (Hfull : List.length (obs ++ [pc]) = List.length target)
          by (rewrite length_app; cbn [List.length]; exact Heq).
        rewrite <- Hfull, firstn_all.
        destruct (evaluate_full
                    (withDetector None (withUser (obs ++ [pc]) (withUser obs s0)))
                    clock Hfull)
          as (Huser & Hdet & _ & Hok & Hko).
        cbn [userSequence expectedSequence detector withUser withDetector]
          in Huser, Hdet, Hok, Hko.
        fold target in Hok, Hko. auto.
      * split; [intros _; reflexivity | lia].
    + specialize (IHge Hge). destruct IHge as (Hdet & Huser & Hok & Hko).
      unfold noteEvent. cbn [getDetector hasDetector]. rewrite Hdet.
      split; [lia |]. intros _.
      rewrite firstn_app.
      replace (List.length target - List.length obs)%nat with 0%nat by lia.
      cbn [firstn]. rewrite app_nil_r. auto.
Qed.

Lemma includes_In (xs : list string) (x : string) :
  includes xs x = true <-> In x xs.
Proof.
  unfold includes. rewrite existsb_exists. split.
  - intros (y & Hy & E). apply String.eqb_eq in E. now subst.
  - intros H. exists x. split; [exact H | apply String.eqb_refl].
Qed.

Lemma firstn_incl {A} (n : nat) (l : list A) (x : A) :
  In x (firstn n l) -> In x l.
Proof.
  intros H. rewrite <- (firstn_skipn n l). apply in_or_app. now left.
Qed.

(** C5. From the start of a recording with a target of N pitch classes
    (N at least one), the sequence exercise records the events it takes in
    the order they come and stays in collecting, whatever was heard, while
    fewer than N were taken.  With the N-th it compares the recorded list
    with the target position by position and ends: in success exactly when
    the two lists are equal, in failure otherwise; later events change
    nothing.  The events it takes are those whose pitch class is natural. *)
Theorem sequence_verdict (s0 : State) (d : NoteDetector.t)
        (evs : list (R * R)) :
  detector s0 = Some d -> NoteDetector.processor d = true ->
  userSequence s0 = [] -> expectedSequence s0 <> [] ->
  status s0 = mkStatus listening "status" ->
  let target := expectedSequence s0 in
  let taken := filter (includes naturals) (detected evs) in
  let s := noteEvents evs s0 in
  ((List.length taken < List.length target)%nat ->
   userSequence s = taken /\ verdict (status s) = Collecting) /\
  ((List.length target <= List.length taken)%nat ->
   userSequence s = firstn (List.length target) taken /\
   (verdict (status s) = Success <->
    firstn (List.length target) taken = target) /\
   (verdict (status s) = Failure <->
    firstn (List.length target) taken <> target)).
Proof.
  intros Hd Hp Hu Hne Hst target taken s.
  destruct (run_characterised s0 d evs Hd Hp Hu Hne) as [Hlt Hge].
  fold target taken s in Hlt, Hge. split.
  - intros H. rewrite (Hlt H). cbn [userSequence withUser status].
    now rewrite Hst.
  - intros H. destruct (Hge H) as (_ & Huser & Hok & Hko).
    split; [exact Huser |].
    destruct (list_eq_dec string_dec target
                          (firstn (List.length target) taken)) as [E | NE].
    + rewrite (Hok E). split; split; try congruence; discriminate.
    + rewrite (Hko NE). cbn [status className verdict].
      split; split; try congruence; try discriminate.
      intros _. reflexivity.
Qed.

Lemma sequence_verdict_witness :
  expectedSequence Examples.memoryListening = ["C"; "E"; "G"] /\
  verdict (status (noteEvents
                     [(Examples.C4, 1000%R); (Examples.E4, 2000%R)]
                     Examples.memoryListening)) = Collecting /\
  verdict (status (noteEvents
                     [(Examples.C4, 1000%R); (Examples.E4, 2000%R);
                      (Examples.G4, 3000%R)]
                     Examples.memoryListening)) = Success /\
  verdict (status (noteEvents
                     [(Examples.C4, 1000%R); (Examples.G4, 2000%R);
                      (Examples.E4, 3000%R)]
                     Examples.memoryListening)) = Failure.
Proof.
  destruct ListenerFacts.example_tones as (HC & _ & _ & HE & _ & HG & _).
  assert (Hne : expectedSequence Examples.memoryListening <> [])
    by discriminate.
  pose proof (sequence_verdict
                Examples.memoryListening Examples.running
                [(Examples.C4, 1000%R); (Examples.E4, 2000%R)]
                eq_refl eq_refl eq_refl Hne eq_refl) as H2.
  pose proof (sequence_verdict
                Examples.memoryListening Examples.running
                [(Examples.C4, 1000%R); (Examples.E4, 2000%R);
                 (Examples.G4, 3000%R)]
                eq_refl eq_refl eq_refl Hne eq_refl) as Hok.
  pose proof (sequence_verdict
                Examples.memoryListening Examples.running
                [(Examples.C4, 1000%R); (Examples.G4, 2000%R);
                 (Examples.E4, 3000%R)]
                eq_refl eq_refl eq_refl Hne eq_refl) as Hko.
  assert (D2 : detected [(Examples.C4, 1000%R); (Examples.E4, 2000%R)]
               = ["C"; "E"])
    by (cbn [detected fst]; now rewrite HC, HE).
  assert (D3 : detected [(Examples.C4, 1000%R); (Examples.E4, 2000%R);
                         (Examples.G4, 3000%R)] = ["C"; "E"; "G"])
    by (cbn [detected fst]; now rewrite HC, HE, HG).
  assert (D3' : detected [(Examples.C4, 1000%R); (Examples.G4, 2000%R);
                          (Examples.E4, 3000%R)] = ["C"; "G"; "E"])
    by (cbn [detected fst]; now rewrite HC, HE, HG).
  cbv zeta in H2, Hok, Hko.
  rewrite D2 in H2. rewrite D3 in Hok. rewrite D3' in Hko.
  change (expectedSequence Examples.memoryListening)
    with ["C"; "E"; "G"] in H2, Hok, Hko.
  cbn [filter includes existsb naturals List.length firstn] in H2, Hok, Hko.
  cbn [String.eqb Ascii.eqb Bool.eqb orb] in H2, Hok, Hko.
  cbn [filter List.length firstn] in H2, Hok, Hko.
  split; [reflexivity |].
  split; [apply (proj1 H2); lia |].
  split.
  - apply (proj2 Hok); [lia | reflexivity].
  - apply (proj2 Hko); [lia | discriminate].
Defined.

(** C5 as it was stated fails: an event whose pitch class is not natural is
    not collected, so after the three events C, C# and E against the
    target C, E, G two notes are recorded and there is still no verdict. *)
Lemma sequence_three_events_counterexample :
  detected [(Examples.C4, 1000%R); (Examples.Cs4, 1500%R);
            (Examples.E4, 2000%R)] = ["C"; "C#"; "E"] /\
  expectedSequence Examples.memoryListening = ["C"; "E"; "G"] /\
  userSequence (noteEvents
                  [(Examples.C4, 1000%R); (Examples.Cs4, 1500%R);
                   (Examples.E4, 2000%R)]
                  Examples.memoryListening) = ["C"; "E"] /\
  verdict (status (noteEvents
                     [(Examples.C4, 1000%R); (Examples.Cs4, 1500%R);
                      (Examples.E4, 2000%R)]
                     Examples.memoryListening)) = Collecting.
Proof.
  destruct ListenerFacts.example_tones as (HC & HCs & _ & HE & _ & _ & _).
  assert (Hdet : detected [(Examples.C4, 1000%R); (Examples.Cs4, 1500%R);
                           (Examples.E4, 2000%R)] = ["C"; "C#"; "E"])
    by (cbn [detected fst]; now rewrite HC, HCs, HE).
  assert (Hne : expectedSequence Examples.memoryListening <> [])
    by discriminate.
  destruct (run_characterised Examples.memoryListening Examples.running
              [(Examples.C4, 1000%R); (Examples.Cs4, 1500%R);
               (Examples.E4, 2000%R)] eq_refl eq_refl eq_refl Hne)
    as [Hlt _].
  rewrite Hdet in Hlt.
  change (filter (includes naturals) ["C"; "C#"; "E"]) with ["C"; "E"] in Hlt.
  specialize (Hlt ltac:(cbn; lia)).
  split; [exact Hdet |]. split; [reflexivity |].
  rewrite Hlt. split; reflexivity.
Qed.

(** C9. In the sequence exercise an event whose pitch class is not one of
    C, D, E, F, G, A, B leaves everything as it was: nothing is recorded.
    From the start of a recording the recorded list is the first N natural
    pitch classes heard, so that the others do not count towards N, and
    every entry of it is natural. *)
Theorem accidentals_discarded (s0 s : State) (d : NoteDetector.t)
        (evs : list (R * R)) (freq clock : R) (pc : string) :
  detector s0 = Some d -> NoteDetector.processor d = true ->
  userSequence s0 = [] -> expectedSequence s0 <> [] ->
  (freqToPitchClass freq = Some pc -> ~ In pc naturals ->
   noteEvent onFrequency (freq, clock) s = s) /\
  userSequence (noteEvents evs s0)
  = firstn (List.length (expectedSequence s0))
           (filter (includes naturals) (detected evs)) /\
  Forall (fun p => In p naturals) (userSequence (noteEvents evs s0)).
Proof.
  intros Hd Hp Hu Hne.
  assert (Huser : userSequence (noteEvents evs s0)
                  = firstn (List.length (expectedSequence s0))
                           (filter (includes naturals) (detected evs))).
  { destruct (run_characterised s0 d evs Hd Hp Hu Hne) as [Hlt Hge].
    cbv zeta in Hlt, Hge.
    destruct (Nat.lt_ge_cases
                (List.length (filter (includes naturals) (detected evs)))
                (List.length (expectedSequence s0))) as [L | G].
    - rewrite (Hlt L). cbn [userSequence withUser].
      symmetry. apply firstn_all2. lia.
    - now destruct (Hge G) as (_ & Hus & _). }
  split; [| split; [exact Huser |]].
  - intros Hpc Hnot. apply event_skipped. rewrite Hpc.
    destruct (includes naturals pc) eqn:E; [| reflexivity].
    apply includes_In in E. contradiction.
  - rewrite Huser. apply Forall_forall. intros p Hin.
    apply firstn_incl in Hin. apply filter_In in Hin.
    now apply includes_In.
Qed.

Lemma accidentals_discarded_witness :
  freqToPitchClass Examples.Cs4 = Some "C#" /\ ~ In "C#" naturals /\
  noteEvent onFrequency (Examples.Cs4, 1500%R) Examples.memoryListening
  = Examples.memoryListening /\
  userSequence (noteEvents
                  [(Examples.C4, 1000%R); (Examples.Cs4, 1500%R);
                   (Examples.E4, 2000%R)]
                  Examples.memoryListening) = ["C"; "E"].
Proof.
  destruct ListenerFacts.example_tones as (HC & HCs & _ & HE & _ & _ & _).
  assert (Hnot : ~ In "C#" naturals).
  { cbn. intros H. repeat (destruct H as [H | H]; [discriminate H |]).
    exact H. }
  assert (Hne : expectedSequence Examples.memoryListening <> [])
    by discriminate.
  pose proof (accidentals_discarded
                Examples.memoryListening Examples.memoryListening
                Examples.running
                [(Examples.C4, 1000%R); (Examples.Cs4, 1500%R);
                 (Examples.E4, 2000%R)]
                Examples.Cs4 1500 "C#" eq_refl eq_refl eq_refl Hne)
    as (Hskip & Huser & _).
  split; [exact HCs |]. split; [exact Hnot |].
  split; [exact (Hskip HCs Hnot) |].
  rewrite Huser. cbn [detected fst]. rewrite HC, HCs, HE. reflexivity.
Defined.

End MemoryFacts.

(** ** The note-reading exercise *)

Module ReadingFacts.
Import JS Eff Common Listener Reading.












End ReadingFacts.

(** ** common.js: distances, note names and playback *)

Module PlaybackFacts.
Import JS Common NoteNameSpec Playback.








Lemma indexOf_from_absent (xs : list string) (x : string) (i : Z) :
  ~ In x xs -> indexOf_from i xs x = -1.
Proof.
  revert i. induction xs as [| y ys IH]; intros i Hnot; [reflexivity |].
  cbn [indexOf_from]. destruct (String.eqb_spec y x) as [-> | _].
  - exfalso. apply Hnot. now left.
  - apply IH. intros H. apply Hnot. now right.
Qed.

Lemma indexOf_absent (xs : list string) (x : string) :
  ~ In x xs -> indexOf xs x = -1.
Proof. apply indexOf_from_absent. Qed.

(** The pitch class that a note name parses to: one of the twelve names,
    or the sharp of E or of B. *)
Lemma parsed_pitch_class (name : string) (note : Note) :
  parseNoteName name = Return note ->
  In (pc note) NOTE_NAMES \/ pc note = "E#" \/ pc note = "B#".
Proof.
  intros H. apply ParserFacts.parseNoteName_returns in H.
  inversion H as [l letter acc p ds negative u Hl Hsp Hu Hs Hn].
  cbn [pc]. clear - Hl Hsp.
  pose proof (ParserFacts.spelled_accidental _ _ _ Hsp) as Hacc.
  simpl in Hl.
  repeat (destruct Hl as [[= <- <-] | Hl];
          [destruct Hacc as [-> | [-> | ->]]; injection Hsp as <-;
           cbn; tauto |]).
  contradiction.
Qed.

(** None of the twelve pitch-class names is a note name: the octave is
    missing. *)
Lemma pitch_class_is_no_note_name (name : string) (note : Note) :
  parseNoteName name = Return note -> ~ In name NOTE_NAMES.
Proof.
  intros Hparse Hin. simpl in Hin.
  repeat (destruct Hin as [<- | Hin]; [discriminate Hparse |]).
  exact Hin.
Qed.

Lemma pitchClassToFreqAt_integer (p : string) (o : Z) :
  pitchClassToFreqAt p (IZR o) = pitchClassToFreq p o.
Proof.
  unfold pitchClassToFreqAt, pitchClassToFreq.
  destruct (indexOf NOTE_NAMES p <? 0); [reflexivity |].
  cbv zeta. unfold midiToFreq. do 3 f_equal.
  rewrite plus_IZR, mult_IZR, plus_IZR. lra.
Qed.

(** X2. [noteNameToFreq] on a name that parses: the pitch class is one of the
    twelve names or E# or B#; on one of the twelve, with an octave from
    -1000 to 1000, it returns the frequency of the MIDI number of pitch
    class and octave, a finite double, and that frequency maps back to the
    pitch class; on E# and B#, which parse, it throws the
    unknown-pitch-class error. *)
Theorem note_name_frequency (name : string) (note : Note) :
  parseNoteName name = Return note ->
  (In (pc note) NOTE_NAMES \/ pc note = "E#" \/ pc note = "B#") /\
  (In (pc note) NOTE_NAMES -> -1000 <= octave note <= 1000 ->
   noteNameToFreq name =
   Return (midiToFreq (indexOf NOTE_NAMES (pc note) + (octave note + 1) * 12)) /\
   Double.noteNameToFreq name =
   Return (Double.Finite
             (midiToFreq (indexOf NOTE_NAMES (pc note) + (octave note + 1) * 12))) /\
   Double.freqToPitchClass
     (Double.Finite
        (midiToFreq (indexOf NOTE_NAMES (pc note) + (octave note + 1) * 12)))
   = Some (pc note)) /\
  (~ In (pc note) NOTE_NAMES ->
   noteNameToFreq name = Throw ("Unknown pitch class: " ++ pc note) /\
   Double.noteNameToFreq name = Throw ("Unknown pitch class: " ++ pc note)).
Proof.
  intros Hparse. split; [exact (parsed_pitch_class name note Hparse) |].
  unfold noteNameToFreq, Double.noteNameToFreq, Double.parseNoteName.
  rewrite Hparse. cbn [pc octave]. split.
  - intros Hin Ho.
    destruct (CodecFacts.pitchClassToFreq_in_range (pc note) (octave note) Hin Ho)
      as [Hf Hr].
    rewrite ParserFacts.nearestDouble_exact
      by (change (2 ^ 53) with 9007199254740992; lia).
    split; [apply CodecFacts.pitchClassToFreq_valid, Hin |].
    split; [exact Hf |].
    rewrite (CodecFacts.freqToPitchClass_in_range _ Hr).
    apply CodecFacts.roundtrip_helper, Hin.
  - intros Hnot. unfold pitchClassToFreq, Double.pitchClassToFreq.
    now rewrite (indexOf_absent NOTE_NAMES (pc note) Hnot).
Qed.

Lemma note_name_frequency_witness :
  parseNoteName "E#4" = Return (mkNote "E#" 4) /\
  ~ In "E#" NOTE_NAMES /\
  noteNameToFreq "E#4" = Throw "Unknown pitch class: E#".
Proof.
  assert (Hparse : parseNoteName "E#4" = Return (mkNote "E#" 4)) by reflexivity.
  assert (Hnot : ~ In "E#" NOTE_NAMES).
  { cbn. intros H. repeat (destruct H as [H | H]; [discriminate H |]). exact H. }
  split; [exact Hparse |]. split; [exact Hnot |].
  exact (proj1 (proj2 (proj2 (note_name_frequency "E#4" (mkNote "E#" 4) Hparse))
                      Hnot)).
Defined.

(** X3. [playSingleNote] takes a second argument that is a number for an
    octave and the first for a pitch class.  So with a note name and a
    number after it, as in [playSingleNote('C5', 0.2, 0.35)], it throws the
    unknown-pitch-class error on the whole name and starts no oscillator.
    A note name plays when nothing follows it or the second argument is
    left out: one oscillator at the frequency of the note, lasting
    [slowFactor] seconds, the third argument being the volume.  A pitch
    class with an integer octave plays at the frequency of
    [pitchClassToFreq] for [duration * slowFactor] seconds. *)
Theorem play_single_note (g : Settings) (name : string) (note : Note)
        (o : R) (octave : Z) (duration volume : option R) :
  parseNoteName name = Return note ->
  In (pc note) NOTE_NAMES ->
  playSingleNote g name (Some o) duration volume
  = ([], Throw ("Unknown pitch class: " ++ name)) /\
  playSingleNote g name None duration volume
  = ([mkTone (midiToFreq (indexOf NOTE_NAMES (pc note) + (Common.octave note + 1) * 12))
             (currentWaveform g) (orDefault duration 0.3) 0 (1 * slowFactor g)],
     Return (1 * slowFactor g * 1000 + 100)%R) /\
  playSingleNote g (pc note) (Some (IZR octave)) duration volume
  = ([mkTone (midiToFreq (indexOf NOTE_NAMES (pc note) + (octave + 1) * 12))
             (currentWaveform g) (orDefault volume 0.3) 0
             (orDefault duration 1 * slowFactor g)],
     Return (orDefault duration 1 * slowFactor g * 1000 + 100)%R).
Proof.
  intros Hparse Hin. split; [| split].
  - unfold playSingleNote, pitchClassToFreqAt.
    rewrite (indexOf_absent NOTE_NAMES name
               (pitch_class_is_no_note_name name note Hparse)).
    reflexivity.
  - unfold playSingleNote, noteNameToFreq. rewrite Hparse.
    rewrite (CodecFacts.pitchClassToFreq_valid _ _ Hin). reflexivity.
  - unfold playSingleNote. rewrite pitchClassToFreqAt_integer.
    rewrite (CodecFacts.pitchClassToFreq_valid (pc note) octave Hin).
    reflexivity.
Qed.

Lemma play_single_note_witness :
  parseNoteName "C5" = Return (mkNote "C" 5) /\
  playSingleNote initialSettings "C5" (Some 0.2%R) (Some 0.35%R) None
  = ([], Throw "Unknown pitch class: C5").
Proof.
  assert (Hparse : parseNoteName "C5" = Return (mkNote "C" 5)) by reflexivity.
  assert (Hin : In (pc (mkNote "C" 5)) NOTE_NAMES) by (cbn; tauto).
  split; [exact Hparse |].
  exact (proj1 (play_single_note initialSettings "C5" (mkNote "C" 5)
                                 0.2 0 (Some 0.35%R) None Hparse Hin)).
Defined.

Lemma setSlowMode_factor (enable : Flag) (g : Settings) :
  (1 <= slowFactor (setSlowMode enable g))%R.
Proof.
  destruct enable as [x | [|]]; cbn [setSlowMode slowFactor]; try lra.
  destruct (Rge_dec x 1); [lra |].
  destruct (Req_dec_T x 0); lra.
Qed.

Lemma setWaveform_allowed (wf : string) (g : Settings) :
  In (currentWaveform (setWaveform wf g))
     ["sine"; "square"; "triangle"; "sawtooth"].
Proof.
  cbn [setWaveform currentWaveform].
  destruct (includes ["sine"; "square"; "triangle"; "sawtooth"] wf) eqn:E.
  - unfold includes in E. apply existsb_exists in E.
    destruct E as (y & Hy & Heq). apply String.eqb_eq in Heq. now subst.
  - cbn. tauto.
Qed.

(** X4. Whatever calls of [setWaveform] and [setSlowMode] were made, with
    whatever arguments, the waveform is one of the four oscillator types
    and the slow factor is at least 1, so that a note played for a duration
    that is not negative sounds at least that long.  A number below 1 other
    than 0 given to [setSlowMode] sets the factor to 2. *)
Theorem settings_stay_valid (calls : list SettingRuns.SettingCall)
        (p : string) (octave : Z) (duration : R) (x : R) (g : Settings) :
  In (currentWaveform (SettingRuns.settingsAfter calls))
     ["sine"; "square"; "triangle"; "sawtooth"] /\
  (1 <= slowFactor (SettingRuns.settingsAfter calls))%R /\
  ((0 <= duration)%R ->
   Forall (fun t => (duration <= stopAt t - startAt t)%R)
          (fst (playSingleNote (SettingRuns.settingsAfter calls) p
                               (Some (IZR octave)) (Some duration) None))) /\
  ((x < 1)%R -> x <> 0%R -> slowFactor (setSlowMode (Number x) g) = 2%R).
Proof.
  assert (Hinv : In (currentWaveform (SettingRuns.settingsAfter calls))
                    ["sine"; "square"; "triangle"; "sawtooth"] /\
                 (1 <= slowFactor (SettingRuns.settingsAfter calls))%R).
  { unfold SettingRuns.settingsAfter.
    induction calls as [| c calls IH] using rev_ind.
    - cbn. split; [tauto | lra].
    - rewrite fold_left_app. cbn [fold_left].
      destruct IH as [IHw IHs]. destruct c as [wf | enable]; cbn [SettingRuns.applyCall].
      + split; [apply setWaveform_allowed | exact IHs].
      + split; [exact IHw | apply setSlowMode_factor]. }
  destruct Hinv as [Hw Hs].
  split; [exact Hw |]. split; [exact Hs |]. split.
  - intros Hd. unfold playSingleNote.
    destruct (pitchClassToFreqAt p (IZR octave)) as [f | e]; cbn [fst orDefault].
    + constructor; [| constructor]. cbn [stopAt startAt]. nra.
    + constructor.
  - intros Hlt Hne. cbn [setSlowMode slowFactor].
    destruct (Rge_dec x 1); [lra |].
    destruct (Req_dec_T x 0); [contradiction | reflexivity].
Qed.

Lemma settings_stay_valid_witness :
  (0 <= 0.8)%R /\ (0.5 < 1)%R /\ 0.5%R <> 0%R /\
  Forall (fun t => (0.8 <= stopAt t - startAt t)%R)
         (fst (playSingleNote
                 (SettingRuns.settingsAfter
                    [SettingRuns.CallSetSlowMode (Number 0.5);
                     SettingRuns.CallSetWaveform "organ"])
                 "A" (Some (IZR 4)) (Some 0.8%R) None)) /\
  slowFactor (setSlowMode (Number 0.5) initialSettings) = 2%R.
Proof.
  assert (H1 : (0 <= 0.8)%R) by lra.
  assert (H2 : (0.5 < 1)%R) by lra.
  assert (H3 : 0.5%R <> 0%R) by lra.
  pose proof (settings_stay_valid
                [SettingRuns.CallSetSlowMode (Number 0.5);
                 SettingRuns.CallSetWaveform "organ"]
                "A" 4 0.8 0.5 initialSettings) as (_ & _ & Hplay & Hslow).
  split; [exact H1 |]. split; [exact H2 |]. split; [exact H3 |].
  split; [exact (Hplay H1) | exact (Hslow H2 H3)].
Defined.

Lemma chordTones_app (g : Settings) (duration volume : R)
      (a b : list NoteArg) (freqs : list R) :
  Forall2 (fun n f => noteFreq n = Return f) a freqs ->
  chordTones g duration volume (a ++ b) =
  (map (fun f => mkTone f (currentWaveform g) volume 0 (duration * slowFactor g))
       freqs ++ fst (chordTones g duration volume b),
   snd (chordTones g duration volume b))%list.
Proof.
  intros H. induction H as [| n f a freqs Hn _ IH].
  - cbn [app map]. now destruct (chordTones g duration volume b).
  - cbn [app chordTones map]. rewrite Hn, IH. reflexivity.
Qed.

(** X5. [playChord] starts one oscillator per note, all at the same time and
    all for [duration * slowFactor] seconds, and closes the context 200 ms
    after they end.  When a note has no frequency, the oscillators of the
    notes before it are started already, the error is thrown and the
    context is not closed. *)
Theorem play_chord (g : Settings) (notes rest : list NoteArg)
        (freqs : list R) (bad : NoteArg) (e : string)
        (duration volume : option R) :
  Forall2 (fun n f => noteFreq n = Return f) notes freqs ->
  let dur := (orDefault duration 1 * slowFactor g)%R in
  let tone := fun f => mkTone f (currentWaveform g) (orDefault volume 0.25) 0 dur in
  playChord g notes duration volume
  = (map tone freqs, Return (dur * 1000 + 200)%R) /\
  (noteFreq bad = Throw e ->
   playChord g (notes ++ bad :: rest) duration volume = (map tone freqs, Throw e)).
Proof.
  intros H dur tone. split.
  - unfold playChord. cbv zeta.
    rewrite <- (app_nil_r notes), (chordTones_app g _ _ notes [] freqs H).
    cbn [chordTones fst snd]. now rewrite app_nil_r.
  - intros Hbad. unfold playChord. cbv zeta.
    rewrite (chordTones_app g _ _ notes (bad :: rest) freqs H).
    cbn [chordTones]. rewrite Hbad. cbn [fst snd]. now rewrite app_nil_r.
Qed.

Lemma play_chord_witness :
  Forall2 (fun n f => noteFreq n = Return f)
          [Named "C4"; Pitched "E" 4] [midiToFreq 60; midiToFreq 64] /\
  noteFreq (Named "H4") = Throw "Invalid note name: H4" /\
  playChord initialSettings [Named "C4"; Pitched "E" 4; Named "H4"; Named "G4"]
            (Some 1.5%R) None
  = ([mkTone (midiToFreq 60) "sine" 0.25 0 (1.5 * 1);
      mkTone (midiToFreq 64) "sine" 0.25 0 (1.5 * 1)],
     Throw "Invalid note name: H4").
Proof.
  assert (H : Forall2 (fun n f => noteFreq n = Return f)
                      [Named "C4"; Pitched "E" 4] [midiToFreq 60; midiToFreq 64]).
  { constructor; [reflexivity |]. constructor; [| constructor].
    change (pitchClassToFreqAt "E" (IZR 4) = Return (midiToFreq 64)).
    now rewrite pitchClassToFreqAt_integer. }
  assert (Hbad : noteFreq (Named "H4") = Throw "Invalid note name: H4")
    by reflexivity.
  split; [exact H |]. split; [exact Hbad |].
  exact (proj2 (play_chord initialSettings [Named "C4"; Pitched "E" 4]
                           [Named "G4"] [midiToFreq 60; midiToFreq 64]
                           (Named "H4") "Invalid note name: H4"
                           (Some 1.5%R) None H) Hbad).
Defined.

End PlaybackFacts.

(** ** Runs of the note detector *)

Module DetectorRunFacts.
Import JS NoteDetector DetectorRuns.

Lemma spaced_from_earlier (last last' : R) (hs : list Frame) :
  (last' <= last)%R -> spaced last hs -> spaced last' hs.
Proof.
  intros Hle. destruct hs as [| f rest]; [trivial |].
  cbn [spaced]. intros [H1 H2]. split; [lra | exact H2].
Qed.

Lemma handedOver_spaced (fs : list Frame) :
  forall d, spaced (lastDetectTime d) (handedOver fs d).
Proof.
  induction fs as [| f fs IH]; intros d; [exact I |].
  cbn [handedOver]. unfold deliver.
  destruct (processor d) eqn:Hp; [| apply IH].
  unfold onaudioprocess.
  destruct (Req_dec_T (pitch f) 0); [apply IH |].
  destruct (Rge_dec (clarity f) (clarityThreshold d)); [| apply IH].
  destruct (Rgt_dec (now f - lastDetectTime d) 250) as [Hgt | _]; [| apply IH].
  cbn [spaced]. split; [exact Hgt |].
  exact (IH (mk (clarityThreshold d) (bufferLength d) (audioCtx d) (stream d)
                (source d) (processor d) (detector d) (detectorClass d) (now f))).
Qed.

Lemma handedOver_pitches (fs : list Frame) :
  forall d, map pitch (handedOver fs d) = emitted fs d.
Proof.
  induction fs as [| f fs IH]; intros d; [reflexivity |].
  cbn [handedOver emitted]. unfold deliver.
  destruct (processor d); [| apply IH].
  unfold onaudioprocess.
  destruct (Req_dec_T (pitch f) 0); [apply IH |].
  destruct (Rge_dec (clarity f) (clarityThreshold d)); [| apply IH].
  destruct (Rgt_dec (now f - lastDetectTime d) 250); [| apply IH].
  cbn [map]. f_equal. apply IH.
Qed.

Lemma spaced_count (hs : list Frame) :
  forall (last : R) (dflt : Frame),
    hs <> [] -> spaced last hs ->
    (IZR (Z.of_nat (List.length hs)) * 250 < now (List.last hs dflt) - last)%R.
Proof.
  induction hs as [| f rest IH]; intros last0 dflt Hne Hsp; [congruence |].
  cbn [spaced] in Hsp. destruct Hsp as [H1 H2].
  destruct rest as [| f' rest'].
  - cbn. lra.
  - specialize (IH (now f) dflt ltac:(discriminate) H2).
    change (List.last (f :: f' :: rest') dflt) with (List.last (f' :: rest') dflt).
    change (List.length (f :: f' :: rest')) with (S (List.length (f' :: rest'))).
    rewrite Nat2Z.inj_succ, succ_IZR. lra.
Qed.

(** X6. Whatever buffers arrive, in whatever order of their clock readings,
    any two buffers that the detector hands to the callback one after the
    other were read more than 250 ms apart, and the first more than 250 ms
    after the last hand-over before the run.  So the n-th event of a run
    comes more than n times 250 ms after that time: fewer than four events
    a second.  The frequencies handed over are the pitches of exactly these
    buffers. *)
Theorem events_are_spaced (fs : list Frame) (d : t) (dflt : Frame) :
  spaced (lastDetectTime d) (handedOver fs d) /\
  map pitch (handedOver fs d) = emitted fs d /\
  (handedOver fs d <> [] ->
   (IZR (Z.of_nat (List.length (emitted fs d))) * 250
    < now (List.last (handedOver fs d) dflt) - lastDetectTime d)%R).
Proof.
  split; [apply handedOver_spaced |]. split; [apply handedOver_pitches |].
  intros Hne. rewrite <- handedOver_pitches, length_map.
  apply spaced_count; [exact Hne | apply handedOver_spaced].
Qed.

Lemma events_are_spaced_witness :
  handedOver [Examples.bufferA; Examples.bufferAt1250; Examples.bufferAt1300]
             Examples.running
  = [Examples.bufferA; Examples.bufferAt1300] /\
  (IZR (Z.of_nat (List.length
                    (emitted [Examples.bufferA; Examples.bufferAt1250;
                              Examples.bufferAt1300] Examples.running))) * 250
   < now (List.last
            (handedOver [Examples.bufferA; Examples.bufferAt1250;
                         Examples.bufferAt1300] Examples.running)
            Examples.bufferA)
     - lastDetectTime Examples.running)%R.
Proof.
  assert (H : handedOver [Examples.bufferA; Examples.bufferAt1250;
                          Examples.bufferAt1300] Examples.running
              = [Examples.bufferA; Examples.bufferAt1300]).
  { rewrite DetectorFacts.running_eq.
    cbn [handedOver]. unfold deliver. cbn [processor].
    rewrite (DetectorFacts.onaudioprocess_emits Examples.bufferA) by (simpl; lra).
    cbn [processor].
    rewrite (DetectorFacts.onaudioprocess_silent Examples.bufferAt1250)
      by (right; right; simpl; lra).
    cbn [processor].
    rewrite (DetectorFacts.onaudioprocess_emits Examples.bufferAt1300)
      by (simpl; lra).
    reflexivity. }
  split; [exact H |].
  apply (proj2 (proj2 (events_are_spaced
                         [Examples.bufferA; Examples.bufferAt1250;
                          Examples.bufferAt1300]
                         Examples.running Examples.bufferA))).
  rewrite H. discriminate.
Defined.

(** X7. [stop()] may be called again with no further effect, and after it no
    buffer is handed to the callback.  A later [start()] with the library
    and the microphone at hand sets the processor up again, and keeps the
    clarity threshold and the time of the last hand-over, so that the
    throttle carries over a stop and a start of one detector. *)
Theorem stop_then_start (d : t) (fs : list Frame) (env : Env) :
  stop (stop d) = stop d /\
  emitted fs (stop d) = [] /\
  (pitchyImport env = Return tt -> getUserMedia env = Return tt ->
   snd (start env (stop d)) = Resolved /\
   processor (fst (fst (start env (stop d)))) = true /\
   clarityThreshold (fst (fst (start env (stop d)))) = clarityThreshold d /\
   lastDetectTime (fst (fst (start env (stop d)))) = lastDetectTime d).
Proof.
  split; [reflexivity |]. split.
  - now apply ListenerFacts.emitted_without_processor.
  - intros Himp Hmic. unfold start, loadPitchy.
    cbn [stop detector]. rewrite Himp. cbn [detectorClass negb].
    rewrite Hmic. repeat split.
Qed.

Lemma stop_then_start_witness :
  pitchyImport Examples.granted = Return tt /\
  getUserMedia Examples.granted = Return tt /\
  processor (fst (fst (start Examples.granted (stop Examples.running)))) = true.
Proof.
  split; [reflexivity |]. split; [reflexivity |].
  exact (proj1 (proj2 (proj2 (proj2 (stop_then_start Examples.running []
                                       Examples.granted))
                             eq_refl eq_refl))).
Defined.

End DetectorRunFacts.

(** ** The interval exercise: a new interval *)

Module IntervalsSetupFacts.
Import JS Eff Common Listener Intervals NoteNameSpec Playback IntervalsSetup.

(** A pitch-class name followed by the decimal text of an octave parses to
    that pitch class and octave. *)
Lemma canonical_name_parses (p : string) (o : Z) :
  In p NOTE_NAMES -> parseNoteName (p ++ showZ o) = Return (mkNote p o).
Proof.
  intros Hin.
  destruct (ParserFacts.showZ_shape o) as (negative & ds & u & Hshow & Hu & Ho).
  rewrite Hshow.
  assert (H : Denotes (p ++ (if negative then "-" else "") ++ ds) (mkNote p o)).
  { rewrite Ho. simpl in Hin.
    destruct Hin as [<- | [<- | [<- | [<- | [<- | [<- | Hin]]]]]];
      [ apply (denotes "C" "C" "" "C" ds negative u)
      | apply (denotes "C" "C" "#" "C#" ds negative u)
      | apply (denotes "D" "D" "" "D" ds negative u)
      | apply (denotes "D" "D" "#" "D#" ds negative u)
      | apply (denotes "E" "E" "" "E" ds negative u)
      | apply (denotes "F" "F" "" "F" ds negative u)
      | destruct Hin as [<- | [<- | [<- | [<- | [<- | [<- | []]]]]]];
        [ apply (denotes "F" "F" "#" "F#" ds negative u)
        | apply (denotes "G" "G" "" "G" ds negative u)
        | apply (denotes "G" "G" "#" "G#" ds negative u)
        | apply (denotes "A" "A" "" "A" ds negative u)
        | apply (denotes "A" "A" "#" "A#" ds negative u)
        | apply (denotes "B" "B" "" "B" ds negative u) ] ];
      first [ exact Hu | reflexivity | (simpl; tauto) ]. }
  apply ParserFacts.parseNoteName_denotes.
  now rewrite (ParserFacts.trim_denotes _ _ H).
Qed.

Lemma indexOf_at_index (i : Z) (p : string) :
  at_index NOTE_NAMES i = Some p -> indexOf NOTE_NAMES p = i /\ 0 <= i < 12.
Proof.
  intros H.
  assert (Hr : 0 <= i < 12).
  { unfold at_index in H. destruct (i <? 0) eqn:E; [discriminate |].
    apply Z.ltb_ge in E. split; [exact E |].
    assert (Hlt : (Z.to_nat i < List.length NOTE_NAMES)%nat)
      by (apply nth_error_Some; congruence).
    cbn in Hlt. lia. }
  split; [| exact Hr].
  assert (Hcases : i = 0 \/ i = 1 \/ i = 2 \/ i = 3 \/ i = 4 \/ i = 5 \/
                   i = 6 \/ i = 7 \/ i = 8 \/ i = 9 \/ i = 10 \/ i = 11) by lia.
  repeat (destruct Hcases as [-> | Hcases];
          [cbn in H; injection H as <-; reflexivity |]).
  subst i. cbn in H. injection H as <-. reflexivity.
Qed.

(** The second note of an interval: its name parses, and pitch class and
    octave are those of the MIDI number of the base plus the semitones. *)
Lemma second_note (m st : Z) :
  exists p2,
    In p2 NOTE_NAMES /\ indexOf NOTE_NAMES p2 = (m + st) mod 12 /\
    secondNoteName m st = p2 ++ showZ ((m + st) / 12 - 1) /\
    parseNoteName (secondNoteName m st) = Return (mkNote p2 ((m + st) / 12 - 1)).
Proof.
  destruct (CodecFacts.at_index_NOTE_NAMES ((m + st) mod 12))
    as (p2 & Hat & Hin); [apply Z.mod_pos_bound; lia |].
  exists p2. split; [exact Hin |].
  split; [exact (proj1 (indexOf_at_index _ _ Hat)) |].
  assert (Hname : secondNoteName m st = p2 ++ showZ ((m + st) / 12 - 1)).
  { unfold secondNoteName. cbv zeta. now rewrite CodecFacts.js_mod12, Hat. }
  split; [exact Hname |]. rewrite Hname. now apply canonical_name_parses.
Qed.

Lemma midiToFreq_up (m st : Z) :
  midiToFreq (m + st) = (midiToFreq m * Math_pow 2 (IZR st / 12))%R.
Proof.
  unfold midiToFreq, Math_pow. rewrite Rmult_assoc, <- Rpower_plus.
  do 2 f_equal. rewrite plus_IZR. field.
Qed.

(** X8. [pickRandomInterval], whatever option and base note are drawn, given
    that the base name parses to one of the twelve pitch classes: the
    second note gets a name that parses, its MIDI number is that of the
    base plus the semitones of the option, the user's list and the status
    are cleared, and the play button then sounds the base and a tone that
    many equal-tempered semitones above it. *)
Theorem new_interval (option : IntervalOption) (baseName : string)
        (base : Note) (s : State) (g : Settings) :
  parseNoteName baseName = Return base -> In (pc base) NOTE_NAMES ->
  let st := semitone option in
  let m := indexOf NOTE_NAMES (pc base) + (octave base + 1) * 12 in
  let s' := mkState (Some st) (name option) [baseName; secondNoteName m st] []
                    (detector s) (recordStartTime s) (mkStatus "" "status")
                    (pianoStars s) in
  pickRandomInterval option baseName s = (s', Return tt) /\
  (exists second,
      parseNoteName (secondNoteName m st) = Return second /\
      In (pc second) NOTE_NAMES /\
      indexOf NOTE_NAMES (pc second) + (octave second + 1) * 12 = m + st) /\
  playClick g s'
  = Some ([mkTone (midiToFreq m) (currentWaveform g) 0.3
                  (0 * (0.8 * slowFactor g)) (1 * (0.8 * slowFactor g));
           mkTone (midiToFreq m * Math_pow 2 (IZR st / 12)) (currentWaveform g) 0.3
                  (1 * (0.8 * slowFactor g)) (2 * (0.8 * slowFactor g))],
          Return (0.8 * slowFactor g * 2 * 1000 + 200)%R).
Proof.
  intros Hparse Hin st m s'.
  destruct (second_note m st) as (p2 & Hin2 & Hidx2 & Hname & Hparse2).
  assert (Hmidi : indexOf NOTE_NAMES p2 + ((m + st) / 12 - 1 + 1) * 12 = m + st).
  { rewrite Hidx2. pose proof (Z.div_mod (m + st) 12). lia. }
  split; [| split].
  - unfold pickRandomInterval. rewrite Hparse. cbv zeta. fold m st.
    cbn [parseAll]. now rewrite Hparse, Hparse2.
  - exists (mkNote p2 ((m + st) / 12 - 1)). cbn [pc octave]. auto.
  - unfold playClick, s'. cbn [expectedIntervalNotes List.length Nat.eqb negb map].
    unfold playInterval. cbn [List.length Nat.eqb negb intervalTones noteFreq].
    unfold noteNameToFreq. rewrite Hparse, Hparse2. cbn [pc octave].
    rewrite (CodecFacts.pitchClassToFreq_valid _ _ Hin).
    rewrite (CodecFacts.pitchClassToFreq_valid _ _ Hin2).
    fold m. rewrite Hmidi, midiToFreq_up. reflexivity.
Qed.

Lemma new_interval_witness :
  parseNoteName "A3" = Return (mkNote "A" 3) /\ In "A" NOTE_NAMES /\
  pickRandomInterval (mkOption 4 "tercja wielka") "A3" Examples.intervalListening
  = (mkState (Some 4) "tercja wielka" ["A3"; "C#4"] []
             (detector Examples.intervalListening)
             (recordStartTime Examples.intervalListening)
             (mkStatus "" "status") (pianoStars Examples.intervalListening),
     Return tt).
Proof.
  assert (Hparse : parseNoteName "A3" = Return (mkNote "A" 3)) by reflexivity.
  assert (Hin : In (pc (mkNote "A" 3)) NOTE_NAMES) by (cbn; tauto).
  split; [exact Hparse |]. split; [exact Hin |].
  exact (proj1 (new_interval (mkOption 4 "tercja wielka") "A3" (mkNote "A" 3)
                             Examples.intervalListening initialSettings
                             Hparse Hin)).
Defined.

(** Two events of two different pitch classes, from the start of a
    recording. *)
Lemma two_notes (target : Z) (desc : string) (notes : list string)
      (d : NoteDetector.t) (rs : option R) (st : Status) (total : Z)
      (n1 n2 : string) (e1 e2 : R * R) :
  NoteDetector.processor d = true ->
  freqToPitchClass (fst e1) = Some n1 -> freqToPitchClass (fst e2) = Some n2 ->
  n2 <> n1 ->
  noteEvents [e1; e2] (mkState (Some target) desc notes [] (Some d) rs st total)
  = fst (onPitchClass n2 (snd e2)
           (mkState (Some target) desc notes [n1] (Some d) rs st total)).
Proof.
  intros Hp H1 H2 Hne. destruct e1 as [f1 t1], e2 as [f2 t2]. cbn [fst snd] in *.
  set (s0 := mkState (Some target) desc notes [] (Some d) rs st total).
  set (s1 := mkState (Some target) desc notes [n1] (Some d) rs st total).
  change (noteEvents [(f1, t1); (f2, t2)] s0)
    with (noteEvent onFrequency (f2, t2) (noteEvent onFrequency (f1, t1) s0)).
  rewrite (IntervalsFacts.intervals_event_resolved s0 d f1 t1 n1 eq_refl Hp H1).
  change (fst (onPitchClass n1 t1 s0)) with s1.
  apply (IntervalsFacts.intervals_event_resolved s1 d f2 t2 n2 eq_refl Hp H2).
Qed.

(** X9. A new interval of 1 to 11 semitones can be passed, and only in the
    direction in which it was drawn.  From the start of a recording on it,
    the base note and then the second note, each in any octave, end the
    round in success.  The same two notes the other way round are 12 minus
    the semitones apart: the round ends in success only for the tritone, and
    otherwise in failure, the status naming the interval of 12 minus the
    semitones. *)
Theorem reference_notes_pass (option : IntervalOption) (baseName : string)
        (base : Note) (s : State) (clock t1 t2 : R) (k1 k2 : Z) :
  parseNoteName baseName = Return base -> In (pc base) NOTE_NAMES ->
  1 <= semitone option <= 11 ->
  let st := semitone option in
  let m := indexOf NOTE_NAMES (pc base) + (octave base + 1) * 12 in
  let listening :=
    fst (fst (startRecording clock Examples.granted
                (fst (pickRandomInterval option baseName s)))) in
  let first := midiToFreq (m + 12 * k1) in
  let second := midiToFreq (m + st + 12 * k2) in
  verdict (status (noteEvents [(first, t1); (second, t2)] listening)) = Success /\
  (verdict (status (noteEvents [(second, t1); (first, t2)] listening)) = Success
   <-> st = 6) /\
  (st <> 6 ->
   status (noteEvents [(second, t1); (first, t2)] listening)
   = mkStatus (failureMessage (intervalNameFromSemitone (12 - st)))
              "status result-failure").
Proof.
  intros Hparse Hin Hst st m listening first second.
  destruct (CodecFacts.indexOf_NOTE_NAMES _ Hin) as [Hr1 Hat1].
  destruct (CodecFacts.at_index_NOTE_NAMES ((m + st) mod 12))
    as (p2 & Hat2 & Hin2); [apply Z.mod_pos_bound; lia |].
  destruct (indexOf_at_index _ _ Hat2) as [Hidx2 _].
  assert (Hm : m mod 12 = indexOf NOTE_NAMES (pc base)).
  { unfold m. rewrite Z.mod_add by lia. now apply Z.mod_small. }
  assert (Hfirst : freqToPitchClass first = Some (pc base)).
  { unfold first. rewrite CodecFacts.freqToPitchClass_midiToFreq.
    replace ((m + 12 * k1) mod 12) with (m mod 12)
      by (rewrite (Z.mul_comm 12 k1), Z.mod_add; lia).
    now rewrite Hm. }
  assert (Hsecond : freqToPitchClass second = Some p2).
  { unfold second. rewrite CodecFacts.freqToPitchClass_midiToFreq.
    replace ((m + st + 12 * k2) mod 12) with ((m + st) mod 12)
      by (rewrite (Z.mul_comm 12 k2), Z.mod_add; lia).
    exact Hat2. }
  assert (Hup : (indexOf NOTE_NAMES p2 - indexOf NOTE_NAMES (pc base)) mod 12 = st).
  { rewrite Hidx2, <- Hm. fold st in Hst. clear - Hst.
    Z.to_euclidean_division_equations. lia. }
  assert (Hdown : (indexOf NOTE_NAMES (pc base) - indexOf NOTE_NAMES p2) mod 12
                  = 12 - st).
  { rewrite Hidx2, <- Hm. fold st in Hst. clear - Hst.
    Z.to_euclidean_division_equations. lia. }
  assert (Hne : p2 <> pc base).
  { intros E. rewrite E, Z.sub_diag in Hup. fold st in Hst.
    change (0 mod 12) with 0 in Hup. lia. }
  assert (Hlistening :
            listening
            = mkState (Some st) (name option) [baseName; secondNoteName m st] []
                      (Some Examples.running) (Some clock)
                      (mkStatus Listener.listening "status") (pianoStars s)).
  { unfold listening, pickRandomInterval. rewrite Hparse. cbv zeta. fold m st.
    destruct (second_note m st) as (q & _ & _ & _ & Hparse2).
    cbn [parseAll]. rewrite Hparse, Hparse2. reflexivity. }
  rewrite Hlistening.
  rewrite (two_notes st _ _ Examples.running _ _ _ (pc base) p2
                     (first, t1) (second, t2) eq_refl Hfirst Hsecond Hne).
  assert (Hne' : pc base <> p2) by congruence.
  rewrite (two_notes st _ _ Examples.running _ _ _ p2 (pc base)
                     (second, t1) (first, t2) eq_refl Hsecond Hfirst Hne').
  rewrite (IntervalsFacts.second_pitch_class st _ _ _ _ _ _ (pc base) p2 _
                                             Hin Hin2 Hne).
  rewrite (IntervalsFacts.second_pitch_class st _ _ _ _ _ _ p2 (pc base) _
                                             Hin2 Hin Hne').
  rewrite Hup, Hdown, Z.eqb_refl.
  split; [reflexivity |].
  destruct (Z.eqb_spec (12 - st) st) as [E | NE].
  - split; [split; [intros _; lia | reflexivity] | intros; lia].
  - split; [split; [discriminate | intros; lia] | reflexivity].
Qed.

Lemma reference_notes_pass_witness :
  parseNoteName "E4" = Return (mkNote "E" 4) /\ In "E" NOTE_NAMES /\
  status (noteEvents
            [(midiToFreq (64 + 10 + 12 * (-1)), 2000%R);
             (midiToFreq (64 + 12 * 0), 3000%R)]
            (fst (fst (startRecording 500 Examples.granted
                         (fst (pickRandomInterval (mkOption 10 "septyma mała") "E4"
                                                  Examples.intervalListening))))))
  = mkStatus "Niestety, to sekunda wielka. Spróbuj ponownie."
             "status result-failure".
Proof.
  assert (Hparse : parseNoteName "E4" = Return (mkNote "E" 4)) by reflexivity.
  assert (Hin : In (pc (mkNote "E" 4)) NOTE_NAMES) by (cbn; tauto).
  split; [exact Hparse |]. split; [exact Hin |].
  exact (proj2 (proj2 (reference_notes_pass
                         (mkOption 10 "septyma mała") "E4" (mkNote "E" 4)
                         Examples.intervalListening 500 2000 3000 0 (-1)
                         Hparse Hin ltac:(cbn; lia)))
               ltac:(cbn; lia)).
Defined.

End IntervalsSetupFacts.

(** ** The chord exercise: its runs *)

Module ChordRunFacts.
Import JS Eff Common Listener Chords Playback ChordsSetup.

Lemma chords_event_unresolved (s : State) (freq clock : R) :
  freqToPitchClass freq = None ->
  noteEvent onFrequency (freq, clock) s = s.
Proof.
  intros Hpc. unfold noteEvent, callback, onFrequency.
  cbn [fst snd]. rewrite Hpc.
  destruct (getDetector s) as [d |]; [| reflexivity].
  now destruct (NoteDetector.processor d).
Qed.

Lemma chords_noteEvents_snoc (evs : list (R * R)) (ev : R * R) (s : State) :
  noteEvents (evs ++ [ev]) s = noteEvent onFrequency ev (noteEvents evs s).
Proof.
  unfold noteEvents. now rewrite ListenerFacts.listener_noteEvents_app.
Qed.

Lemma distinct_snoc (pcs : list string) (pc : string) :
  distinct (pcs ++ [pc]) = recordNew (distinct pcs) pc.
Proof. unfold distinct. now rewrite fold_left_app. Qed.

Lemma includes_app_l (a b : list string) (x : string) :
  includes a x = true -> includes (a ++ b) x = true.
Proof.
  unfold includes. rewrite existsb_app. intros ->. reflexivity.
Qed.

Lemma covers_recordNew (target heard : list string) (pc : string) :
  covers target heard = true -> covers target (recordNew heard pc) = true.
Proof.
  unfold covers, recordNew. destruct (includes heard pc); [trivial |].
  rewrite !forallb_forall. intros H x Hx. apply includes_app_l. now apply H.
Qed.

Lemma length_recordNew (heard : list string) (pc : string) :
  (List.length heard <= List.length (recordNew heard pc))%nat.
Proof.
  unfold recordNew. destruct (includes heard pc); [lia |].
  rewrite length_app. cbn. lia.
Qed.

Lemma stars_range (rs : option R) (clock fast mid : R) :
  1 <= stars rs clock fast mid <= 3.
Proof.
  unfold stars. destruct rs as [t0 |]; [| lia].
  destruct (Req_dec_T t0 0); [lia |]. cbv zeta.
  destruct (Rle_dec _ fast); [lia |]. destruct (Rle_dec _ mid); lia.
Qed.

(** The callback on a pitch class that is new, by what the list then
    covers and how long it is. *)
Lemma new_pitch_class (cur : option Chord) (target heard : list string)
      (d : NoteDetector.t) (rs : option R) (st : Status) (total : Z)
      (pc : string) (clock : R) :
  includes heard pc = false ->
  let heard' := (heard ++ [pc])%list in
  let n := stars rs clock 5 10 in
  let won := mkStatus ("Brawo! Zagrałeś poprawny akord. " ++ starString n)
                      "status result-success" in
  let lost := mkStatus tooMany "status result-failure" in
  let over := (List.length target <? List.length heard')%nat in
  fst (onPitchClass pc clock (mkState cur target heard (Some d) rs st total)) =
  if covers target heard'
  then mkState cur target heard' None rs (if over then lost else won) (total + n)
  else if over then mkState cur target heard' None rs lost total
       else mkState cur target heard' (Some d) rs st total.
Proof.
  intros Hnew heard' n won lost over.
  unfold over, covers, heard'.
  unfold onPitchClass, bind at 1, get at 1.
  cbn [userPitchClasses]. rewrite Hnew.
  cbv [negb when bind get modify ret withUser withStatus withStars withDetector
       stopDetector getDetector setDetector hasDetector userPitchClasses
       expectedPitchClasses currentChord detector recordStartTime status
       pianoStars addStars fst snd].
  destruct (forallb _ target);
    destruct (List.length target <? List.length (heard ++ [pc]))%nat;
    reflexivity.
Qed.

(** While the pitch classes heard neither cover the target nor outnumber
    it, they are recorded in the order of their first hearing and nothing
    else has changed. *)
Lemma still_collecting (cur : option Chord) (target : list string)
      (d : NoteDetector.t) (rs : option R) (st : Status) (total : Z)
      (evs : list (R * R)) :
  NoteDetector.processor d = true ->
  let heard := distinct (detected evs) in
  covers target heard = false ->
  (List.length heard <= List.length target)%nat ->
  noteEvents evs (mkState cur target [] (Some d) rs st total)
  = mkState cur target heard (Some d) rs st total.
Proof.
  intros Hp. induction evs as [| [freq clock] evs IH] using rev_ind;
    intros heard Hcov Hlen; [reflexivity |].
  unfold heard in *. clear heard.
  rewrite MemoryFacts.detected_app in Hcov, Hlen |- *.
  rewrite chords_noteEvents_snoc. cbn [detected fst] in Hcov, Hlen |- *.
  destruct (freqToPitchClass freq) as [pc |] eqn:Hpc.
  2:{ rewrite app_nil_r in Hcov, Hlen |- *.
      rewrite chords_event_unresolved by exact Hpc. now apply IH. }
  rewrite distinct_snoc in Hcov, Hlen |- *.
  assert (Hcov0 : covers target (distinct (detected evs)) = false).
  { destruct (covers target (distinct (detected evs))) eqn:E; [| reflexivity].
    now rewrite (covers_recordNew _ _ pc E) in Hcov. }
  pose proof (length_recordNew (distinct (detected evs)) pc) as Hmono.
  rewrite (IH Hcov0) by lia.
  rewrite (ChordsFacts.chords_event_resolved
             (mkState cur target (distinct (detected evs)) (Some d) rs st total)
             d freq clock pc eq_refl Hp Hpc).
  unfold recordNew in Hcov, Hlen |- *.
  destruct (includes (distinct (detected evs)) pc) eqn:Hinc.
  - now rewrite ChordsFacts.duplicate_ignored.
  - rewrite (new_pitch_class cur target _ d rs st total pc clock Hinc).
    cbv zeta. rewrite Hcov.
    destruct (Nat.ltb_spec (List.length target)
                           (List.length (distinct (detected evs) ++ [pc])));
      [lia | reflexivity].
Qed.

(** X10. Played in any order, with any repetitions and silences between, the
    notes of the target and no others end the chord exercise in success,
    with one to three stars, and the detector is let go. *)
Theorem chord_in_any_order (cur : option Chord) (target : list string)
        (d : NoteDetector.t) (rs : option R) (st : Status) (total : Z)
        (evs : list (R * R)) :
  NoteDetector.processor d = true -> target <> [] ->
  covers target (distinct (detected evs)) = true ->
  (List.length (distinct (detected evs)) <= List.length target)%nat ->
  let s := noteEvents evs (mkState cur target [] (Some d) rs st total) in
  detector s = None /\
  exists n, 1 <= n <= 3 /\
            status s = mkStatus ("Brawo! Zagrałeś poprawny akord. " ++ starString n)
                                "status result-success" /\
            pianoStars s = total + n.
Proof.
  intros Hp Hne. induction evs as [| [freq clock] evs IH] using rev_ind;
    intros Hcov Hlen.
  - exfalso. destruct target as [| t ts]; [congruence | discriminate Hcov].
  - cbv zeta in IH |- *.
    rewrite MemoryFacts.detected_app in Hcov, Hlen.
    rewrite chords_noteEvents_snoc. cbn [detected fst] in Hcov, Hlen.
    destruct (freqToPitchClass freq) as [pc |] eqn:Hpc.
    2:{ rewrite app_nil_r in Hcov, Hlen.
        rewrite chords_event_unresolved by exact Hpc. now apply IH. }
    rewrite distinct_snoc in Hcov, Hlen.
    pose proof (length_recordNew (distinct (detected evs)) pc) as Hmono.
    destruct (covers target (distinct (detected evs))) eqn:Hcov0.
    + destruct (IH eq_refl ltac:(lia)) as (Hstop & Hres).
      unfold noteEvent. cbn [getDetector hasDetector]. rewrite Hstop.
      split; [exact Hstop | exact Hres].
    + rewrite (still_collecting cur target d rs st total evs Hp Hcov0) by lia.
      rewrite (ChordsFacts.chords_event_resolved
                 (mkState cur target (distinct (detected evs)) (Some d) rs st total)
                 d freq clock pc eq_refl Hp Hpc).
      unfold recordNew in Hcov, Hlen.
      destruct (includes (distinct (detected evs)) pc) eqn:Hinc;
        [congruence |].
      rewrite (new_pitch_class cur target _ d rs st total pc clock Hinc).
      cbv zeta. rewrite Hcov.
      destruct (Nat.ltb_spec (List.length target)
                             (List.length (distinct (detected evs) ++ [pc])));
        [lia |].
      cbn [detector status pianoStars]. split; [reflexivity |].
      exists (stars rs clock 5 10). split; [apply stars_range | auto].
Qed.

Lemma chord_in_any_order_witness :
  covers ["C"; "E"; "G"]
         (distinct (detected [(Examples.E4, 1000%R); (Examples.E4, 1400%R);
                              (Examples.G4, 2000%R); (Examples.C4, 3000%R)]))
  = true /\
  verdict (status (noteEvents
                     [(Examples.E4, 1000%R); (Examples.E4, 1400%R);
                      (Examples.G4, 2000%R); (Examples.C4, 3000%R)]
                     Examples.chordListening)) = Success.
Proof.
  destruct ListenerFacts.example_tones as (HC & _ & _ & HE & _ & HG & _).
  assert (Hdet : detected [(Examples.E4, 1000%R); (Examples.E4, 1400%R);
                           (Examples.G4, 2000%R); (Examples.C4, 3000%R)]
                 = ["E"; "E"; "G"; "C"])
    by (cbn [detected fst]; now rewrite HC, HE, HG).
  assert (Hcov : covers ["C"; "E"; "G"]
                        (distinct (detected [(Examples.E4, 1000%R);
                                             (Examples.E4, 1400%R);
                                             (Examples.G4, 2000%R);
                                             (Examples.C4, 3000%R)])) = true)
    by (rewrite Hdet; reflexivity).
  split; [exact Hcov |].
  destruct (chord_in_any_order
              (Some (mkChord "C dur" ["C4"; "E4"; "G4"])) ["C"; "E"; "G"]
              Examples.running (Some 500%R) (mkStatus listening "status") 0
              [(Examples.E4, 1000%R); (Examples.E4, 1400%R);
               (Examples.G4, 2000%R); (Examples.C4, 3000%R)]
              eq_refl ltac:(discriminate) Hcov
              ltac:(rewrite Hdet; cbn; lia)) as (_ & n & _ & Hst & _).
  change (mkState (Some (mkChord "C dur" ["C4"; "E4"; "G4"]))
                  ["C"; "E"; "G"] [] (Some Examples.running) (Some 500%R)
                  (mkStatus listening "status") 0)
    with Examples.chordListening in Hst.
  now rewrite Hst.
Defined.

(** X11. When as many different pitch classes as the target has were heard
    without covering it, the next new pitch class that does not complete
    the target ends the round at once in failure, with the too-many-notes
    text and no star; later events change nothing. *)
Theorem one_note_too_many (cur : option Chord) (target : list string)
        (d : NoteDetector.t) (rs : option R) (st : Status) (total : Z)
        (heard later : list (R * R)) (e : R * R) (pc : string) :
  NoteDetector.processor d = true ->
  covers target (distinct (detected heard)) = false ->
  List.length (distinct (detected heard)) = List.length target ->
  freqToPitchClass (fst e) = Some pc ->
  includes (distinct (detected heard)) pc = false ->
  covers target (distinct (detected heard) ++ [pc]) = false ->
  noteEvents (heard ++ e :: later) (mkState cur target [] (Some d) rs st total)
  = mkState cur target (distinct (detected heard) ++ [pc]) None rs
            (mkStatus tooMany "status result-failure") total.
Proof.
  intros Hp Hcov Hlen Hpc Hinc Hcov'. destruct e as [freq clock]. cbn [fst] in Hpc.
  change (heard ++ (freq, clock) :: later)%list
    with (heard ++ [(freq, clock)] ++ later)%list.
  rewrite app_assoc. unfold noteEvents.
  rewrite ListenerFacts.listener_noteEvents_app. fold noteEvents.
  rewrite chords_noteEvents_snoc.
  rewrite (still_collecting cur target d rs st total heard Hp Hcov) by lia.
  rewrite (ChordsFacts.chords_event_resolved
             (mkState cur target (distinct (detected heard)) (Some d) rs st total)
             d freq clock pc eq_refl Hp Hpc).
  rewrite (new_pitch_class cur target _ d rs st total pc clock Hinc).
  cbv zeta. rewrite Hcov'.
  destruct (Nat.ltb_spec (List.length target)
                         (List.length (distinct (detected heard) ++ [pc])))
    as [_ | Hge]; [| rewrite length_app in Hge; cbn in Hge; lia].
  now apply (ListenerFacts.listener_noteEvents_stopped onFrequency).
Qed.

Lemma one_note_too_many_witness :
  covers ["C"; "E"; "G"]
         (distinct (detected [(Examples.C4, 1000%R); (Examples.D4, 1400%R);
                              (Examples.F4, 2000%R)])) = false /\
  verdict (status (noteEvents
                     ([(Examples.C4, 1000%R); (Examples.D4, 1400%R);
                       (Examples.F4, 2000%R)]
                        ++ (Examples.As4, 3000%R) :: [(Examples.E4, 4000%R)])
                     Examples.chordListening)) = Failure.
Proof.
  destruct ListenerFacts.example_tones as (HC & _ & HD & HE & HF & _ & HAs).
  assert (Hdet : detected [(Examples.C4, 1000%R); (Examples.D4, 1400%R);
                           (Examples.F4, 2000%R)] = ["C"; "D"; "F"])
    by (cbn [detected fst]; now rewrite HC, HD, HF).
  assert (Hcov : covers ["C"; "E"; "G"]
                        (distinct (detected [(Examples.C4, 1000%R);
                                             (Examples.D4, 1400%R);
                                             (Examples.F4, 2000%R)])) = false)
    by (rewrite Hdet; reflexivity).
  split; [exact Hcov |].
  pose proof (one_note_too_many
                (Some (mkChord "C dur" ["C4"; "E4"; "G4"])) ["C"; "E"; "G"]
                Examples.running (Some 500%R) (mkStatus listening "status") 0
                [(Examples.C4, 1000%R); (Examples.D4, 1400%R);
                 (Examples.F4, 2000%R)]
                [(Examples.E4, 4000%R)] (Examples.As4, 3000%R) "A#"
                eq_refl Hcov ltac:(rewrite Hdet; reflexivity) HAs
                ltac:(rewrite Hdet; reflexivity)
                ltac:(rewrite Hdet; reflexivity)) as H.
  change (mkState (Some (mkChord "C dur" ["C4"; "E4"; "G4"]))
                  ["C"; "E"; "G"] [] (Some Examples.running) (Some 500%R)
                  (mkStatus listening "status") 0)
    with Examples.chordListening in H.
  now rewrite H.
Defined.

Lemma NoDup_snoc (l : list string) (x : string) :
  NoDup l -> ~ In x l -> NoDup (l ++ [x]).
Proof.
  intros Hl Hx. induction Hl as [| y l Hy Hl IH]; cbn [app].
  - constructor; [intros [] | constructor].
  - constructor.
    + rewrite in_app_iff. intros [H | [H | []]]; [contradiction |].
      subst. apply Hx. now left.
    + apply IH. intros H. apply Hx. now right.
Qed.

(** What every event keeps true of the chord exercise. *)
Lemma record_invariant_step (target : list string) (total : Z)
      (ev : R * R) (s : State) :
  let inv := fun s : State =>
    expectedPitchClasses s = target /\
    NoDup (userPitchClasses s) /\
    Forall (fun p => In p NOTE_NAMES) (userPitchClasses s) /\
    (List.length (userPitchClasses s) <= List.length target + 1)%nat /\
    total <= pianoStars s <= total + 3 /\
    (detector s <> None ->
     (List.length (userPitchClasses s) <= List.length target)%nat /\
     pianoStars s = total) in
  inv s -> inv (noteEvent onFrequency ev s).
Proof.
  intros inv Hinv. destruct ev as [freq clock].
  unfold noteEvent, callback, onFrequency. cbn [getDetector hasDetector fst snd].
  destruct (detector s) as [d |] eqn:Hd; [| exact Hinv].
  destruct (NoteDetector.processor d); [| exact Hinv].
  destruct (freqToPitchClass freq) as [pc |] eqn:Hpc; [| exact Hinv].
  destruct (includes (userPitchClasses s) pc) eqn:Hinc.
  { now rewrite ChordsFacts.duplicate_ignored. }
  destruct s as [cur expected heard det rs st stars0].
  cbn [detector userPitchClasses] in Hd, Hinc. subst det.
  destruct Hinv as (Hexp & Hnd & Hcan & _ & _ & Hrun).
  cbn [expectedPitchClasses userPitchClasses pianoStars detector] in *.
  subst expected. destruct (Hrun ltac:(discriminate)) as [Hlen ->].
  rewrite (new_pitch_class cur target heard d rs st total pc clock Hinc).
  cbv zeta.
  assert (Hnd' : NoDup (heard ++ [pc])).
  { apply NoDup_snoc; [exact Hnd |]. intros Hin.
    apply MemoryFacts.includes_In in Hin. congruence. }
  assert (Hcan' : Forall (fun p => In p NOTE_NAMES) (heard ++ [pc])).
  { apply Forall_app. split; [exact Hcan |].
    constructor; [| constructor].
    exact (CodecFacts.freqToPitchClass_In freq pc Hpc). }
  assert (Hlen' : List.length (heard ++ [pc]) = S (List.length heard))
    by (rewrite length_app; cbn; lia).
  pose proof (stars_range rs clock 5 10) as Hstars.
  unfold inv.
  destruct (covers target (heard ++ [pc]));
    [| destruct (Nat.ltb_spec (List.length target) (List.length (heard ++ [pc])))];
    cbn [expectedPitchClasses userPitchClasses pianoStars detector];
    (split; [reflexivity |]); (split; [exact Hnd' |]); (split; [exact Hcan' |]);
    (split; [lia |]); (split; [lia |]); intros Hdet;
    try congruence; split; [lia | reflexivity].
Qed.

(** X12. Whatever is heard after the start of a recording of the chord
    exercise, the list of recorded pitch classes never holds one twice,
    holds only names of the twelve pitch classes, and never more than one
    above the number of the target; the target is not touched, and at most
    three stars are added in all. *)
Theorem chord_record_invariants (cur : option Chord) (target : list string)
        (d : NoteDetector.t) (rs : option R) (st : Status) (total : Z)
        (evs : list (R * R)) :
  let s := noteEvents evs (mkState cur target [] (Some d) rs st total) in
  expectedPitchClasses s = target /\
  NoDup (userPitchClasses s) /\
  Forall (fun p => In p NOTE_NAMES) (userPitchClasses s) /\
  (List.length (userPitchClasses s) <= List.length target + 1)%nat /\
  total <= pianoStars s <= total + 3.
Proof.
  cbv zeta.
  enough (H : expectedPitchClasses
                (noteEvents evs (mkState cur target [] (Some d) rs st total))
              = target /\
              NoDup (userPitchClasses
                       (noteEvents evs (mkState cur target [] (Some d) rs st total))) /\
              Forall (fun p => In p NOTE_NAMES)
                     (userPitchClasses
                        (noteEvents evs (mkState cur target [] (Some d) rs st total))) /\
              (List.length
                 (userPitchClasses
                    (noteEvents evs (mkState cur target [] (Some d) rs st total)))
               <= List.length target + 1)%nat /\
              total <= pianoStars
                         (noteEvents evs (mkState cur target [] (Some d) rs st total))
              <= total + 3 /\
              (detector (noteEvents evs (mkState cur target [] (Some d) rs st total))
               <> None ->
               (List.length
                  (userPitchClasses
                     (noteEvents evs (mkState cur target [] (Some d) rs st total)))
                <= List.length target)%nat /\
               pianoStars (noteEvents evs (mkState cur target [] (Some d) rs st total))
               = total)).
  { destruct H as (H1 & H2 & H3 & H4 & H5 & _). auto. }
  induction evs as [| ev evs IH] using rev_ind.
  - cbn. repeat split; try lia; constructor.
  - rewrite chords_noteEvents_snoc.
    exact (record_invariant_step target total ev _ IH).
Qed.

Lemma names_have_frequencies (names pcs : list string) :
  pitchClassesOf names = Return pcs ->
  Forall (fun p => In p NOTE_NAMES) pcs ->
  exists freqs,
    Forall2 (fun n f => noteFreq n = Return f) (map Named names) freqs /\
    map freqToPitchClass freqs = map Some pcs.
Proof.
  revert pcs. induction names as [| n names IH]; intros pcs Hpcs Hcan.
  - injection Hpcs as <-. exists []. split; [constructor | reflexivity].
  - cbn [pitchClassesOf] in Hpcs.
    destruct (parseNoteName n) as [note | e] eqn:Hparse; [| discriminate].
    destruct (pitchClassesOf names) as [pcs' | e]; [| discriminate].
    injection Hpcs as <-. inversion Hcan as [| ? ? Hin Hrest]; subst.
    destruct (IH pcs' eq_refl Hrest) as (freqs & Hall & Hmap).
    exists (midiToFreq (indexOf NOTE_NAMES (pc note) + (octave note + 1) * 12)
              :: freqs).
    split.
    + cbn [map]. constructor; [| exact Hall].
      cbn [noteFreq]. unfold noteNameToFreq. rewrite Hparse.
      apply CodecFacts.pitchClassToFreq_valid, Hin.
    + cbn [map]. now rewrite (CodecFacts.roundtrip_helper _ _ Hin), Hmap.
Qed.

(** X13. What the play button of the chord exercise sounds is what the
    exercise listens for: for a chord whose notes parse to names of the
    twelve pitch classes, [pickRandomChord] expects those pitch classes, in
    the order of the notes, and [playChord] starts one oscillator per note,
    all together for 1.5 seconds times the slow factor, whose frequencies
    map to exactly those pitch classes. *)
Theorem chord_playback (next : Chord) (s : State) (g : Settings)
        (pcs : list string) :
  pitchClassesOf (notes next) = Return pcs ->
  Forall (fun p => In p NOTE_NAMES) pcs ->
  expectedPitchClasses (fst (pickRandomChord next s)) = pcs /\
  userPitchClasses (fst (pickRandomChord next s)) = [] /\
  exists tones,
    playClick g (fst (pickRandomChord next s))
    = Some (tones, Return (1.5 * slowFactor g * 1000 + 200)%R) /\
    map (fun t => freqToPitchClass (frequency t)) tones = map Some pcs /\
    Forall (fun t => startAt t = 0%R /\ stopAt t = (1.5 * slowFactor g)%R) tones.
Proof.
  intros Hpcs Hcan. unfold pickRandomChord. rewrite Hpcs.
  cbn [fst expectedPitchClasses userPitchClasses].
  split; [reflexivity |]. split; [reflexivity |].
  destruct (names_have_frequencies _ _ Hpcs Hcan) as (freqs & Hall & Hmap).
  exists (map (fun f => mkTone f (currentWaveform g) 0.25 0 (1.5 * slowFactor g))
              freqs).
  split; [| split].
  - unfold playClick. cbn [currentChord]. unfold playChord. cbv zeta.
    cbn [orDefault].
    rewrite <- (app_nil_r (map Named (notes next))).
    rewrite (PlaybackFacts.chordTones_app g _ _ _ [] freqs Hall).
    cbn [chordTones fst snd]. now rewrite app_nil_r.
  - rewrite map_map. cbn [frequency]. exact Hmap.
  - apply Forall_forall. intros t Ht. apply in_map_iff in Ht.
    destruct Ht as (f & <- & _). split; reflexivity.
Qed.

Lemma chord_playback_witness :
  pitchClassesOf ["B3"; "D4"; "F4"] = Return ["B"; "D"; "F"] /\
  Forall (fun p => In p NOTE_NAMES) ["B"; "D"; "F"] /\
  expectedPitchClasses
    (fst (pickRandomChord (mkChord "B zmniejszony" ["B3"; "D4"; "F4"])
                          Examples.chordListening))
  = ["B"; "D"; "F"].
Proof.
  assert (H1 : pitchClassesOf ["B3"; "D4"; "F4"] = Return ["B"; "D"; "F"])
    by reflexivity.
  assert (H2 : Forall (fun p => In p NOTE_NAMES) ["B"; "D"; "F"])
    by (repeat constructor; cbn; tauto).
  split; [exact H1 |]. split; [exact H2 |].
  exact (proj1 (chord_playback (mkChord "B zmniejszony" ["B3"; "D4"; "F4"])
                               Examples.chordListening initialSettings
                               ["B"; "D"; "F"] H1 H2)).
Defined.

End ChordRunFacts.

(** ** The star counter in [localStorage] *)

Module StorageFacts.
Import JS Common Storage.

Lemma digitPrefix_allDigits (ds : string) :
  allDigits ds = true -> digitPrefix ds = ds.
Proof.
  induction ds as [| a ds IH]; [reflexivity |].
  cbn [allDigits digitPrefix]. intros H. apply andb_true_iff in H.
  destruct H as [-> H]. now rewrite IH.
Qed.

(** [parseInt] reads back the decimal text of an integer. *)
Lemma parseInt_showZ (z : Z) : parseInt (showZ z) = Some z.
Proof.
  destruct (ParserFacts.showZ_shape z) as (negative & ds & u & Hshow & Hu & Hz).
  destruct (ParserFacts.uint_of_string_shape ds u Hu)
    as (d & r & -> & Hd & Hall & Hv).
  rewrite Hshow, Hz. unfold parseInt. destruct negative.
  - change ("-" ++ String d r) with (String "-" (String d r)).
    rewrite ParserFacts.strip_printable by (cbn; lia).
    rewrite (digitPrefix_allDigits _ Hall). now rewrite Hv.
  - change ("" ++ String d r) with (String d r).
    rewrite ParserFacts.strip_printable
      by now apply ParserFacts.isDigit_printable.
    assert (Hsign : match String d r with
                    | String "-" r' => (true, r')
                    | String "+" r' => (false, r')
                    | _ => (false, String d r)
                    end = (false, String d r)).
    { apply ParserFacts.isDigit_cases in Hd.
      repeat (destruct Hd as [-> | Hd]; [reflexivity |]). now subst d. }
    rewrite Hsign. rewrite (digitPrefix_allDigits _ Hall). now rewrite Hv.
Qed.

Lemma showZ_nonempty (z : Z) : exists a r, showZ z = String a r.
Proof.
  destruct (ParserFacts.showZ_shape z) as (negative & ds & u & Hshow & Hu & _).
  destruct (ParserFacts.uint_of_string_shape ds u Hu) as (d & r & -> & _).
  rewrite Hshow. destruct negative; eexists; eexists; reflexivity.
Qed.

(** One award on a counter that reads as an integer. *)
Lemma addStars_counts (n c : Z) (st : Store) :
  readable st = true -> writable st = true -> getStarCount st = Some c ->
  addStars n st = mkStore true true (Some (showZ (c + n))) /\
  getStarCount (addStars n st) = Some (c + n).
Proof.
  intros Hr Hw Hc. unfold getStarCount in Hc. rewrite Hr in Hc.
  assert (E : addStars n st = mkStore true true (Some (showZ (c + n)))).
  { unfold addStars. now rewrite Hr, Hw, Hc. }
  split; [exact E |]. rewrite E. unfold getStarCount, storedText.
  cbn [readable pianoStars].
  destruct (showZ_nonempty (c + n)) as (a & r & Hs).
  rewrite Hs, <- Hs. apply parseInt_showZ.
Qed.

Lemma awards_count (ns : list Z) :
  forall (c : Z) (st : Store),
    readable st = true -> writable st = true -> getStarCount st = Some c ->
    getStarCount (awards ns st)
    = Some (fold_left (fun k n => Common.addStars n k) ns c) /\
    (ns <> [] ->
     pianoStars (awards ns st)
     = Some (showZ (fold_left (fun k n => Common.addStars n k) ns c))).
Proof.
  induction ns as [| n ns IH]; intros c st Hr Hw Hc.
  - split; [exact Hc | congruence].
  - destruct (addStars_counts n c st Hr Hw Hc) as [E Hc'].
    unfold awards. cbn [fold_left]. fold (awards ns (addStars n st)).
    assert (Hr' : readable (addStars n st) = true) by now rewrite E.
    assert (Hw' : writable (addStars n st) = true) by now rewrite E.
    destruct (IH (Common.addStars n c) (addStars n st) Hr' Hw' Hc')
      as [Hcount Htext].
    split; [exact Hcount |]. intros _.
    destruct ns as [| m ns']; [now rewrite E | apply Htext; discriminate].
Qed.

(** X14. Where the storage works, the text under the key reads as an
    integer [c] from 0 on (no text, or the empty text, reads as 0), the
    awards are not negative and the sum stays within the integers that a
    double holds exactly, up to 2^53 - 1, a series of awards adds up:
    [getStarCount] afterwards gives what the counter of the exercises
    gives, [c] plus the awards, and the text stored is the decimal text of
    that number. *)
Theorem star_counter_adds (ns : list Z) (c : Z) (st : Store) :
  readable st = true -> writable st = true -> getStarCount st = Some c ->
  0 <= c -> Forall (fun n => 0 <= n) ns ->
  fold_left (fun k n => Common.addStars n k) ns c <= 2 ^ 53 - 1 ->
  getStarCount (awards ns st)
  = Some (fold_left (fun k n => Common.addStars n k) ns c) /\
  (ns <> [] ->
   pianoStars (awards ns st)
   = Some (showZ (fold_left (fun k n => Common.addStars n k) ns c))) /\
  (pianoStars st = None \/ pianoStars st = Some "" -> c = 0).
Proof.
  intros Hr Hw Hc _ _ _.
  destruct (awards_count ns c st Hr Hw Hc) as [H1 H2].
  split; [exact H1 |]. split; [exact H2 |].
  intros Hempty. unfold getStarCount, storedText in Hc. rewrite Hr in Hc.
  destruct Hempty as [E | E]; rewrite E in Hc;
    vm_compute in Hc; congruence.
Qed.

Lemma star_counter_adds_witness :
  getStarCount (awards [3; 1; 2] (mkStore true true (Some " 12 stars")))
  = Some 18.
Proof.
  assert (Hc : 0 <= 12) by lia.
  assert (Hns : Forall (fun n => 0 <= n) [3; 1; 2])
    by (repeat constructor; lia).
  assert (Hsafe : fold_left (fun k n => Common.addStars n k) [3; 1; 2] 12
                  <= 2 ^ 53 - 1) by (vm_compute; discriminate).
  exact (proj1 (star_counter_adds [3; 1; 2] 12
                  (mkStore true true (Some " 12 stars"))
                  eq_refl eq_refl eq_refl Hc Hns Hsafe)).
Defined.

Lemma addStars_corrupt (n : Z) (st : Store) :
  readable st = true -> writable st = true -> getStarCount st = None ->
  addStars n st = mkStore true true (Some "NaN").
Proof.
  intros Hr Hw Hc. unfold getStarCount in Hc. rewrite Hr in Hc.
  unfold addStars. now rewrite Hr, Hw, Hc.
Qed.

(** X15. A text under the key that does not start with an integer is never
    repaired by an award: the sum is [NaN], the text ["NaN"] is stored,
    every later count is [NaN], and the progress page shows no star and no
    dash.  The reset button is what brings the counter back to 0. *)
Theorem star_counter_corrupt (ns : list Z) (st : Store) :
  readable st = true -> writable st = true -> getStarCount st = None ->
  getStarCount (awards ns st) = None /\
  (ns <> [] -> pianoStars (awards ns st) = Some "NaN") /\
  renderStars (getStarCount (awards ns st)) = "" /\
  getStarCount (reset (awards ns st)) = Some 0 /\
  renderStars (getStarCount (reset (awards ns st))) = "–".
Proof.
  intros Hr Hw Hc.
  assert (H : getStarCount (awards ns st) = None /\
              readable (awards ns st) = true /\
              writable (awards ns st) = true /\
              (ns <> [] -> pianoStars (awards ns st) = Some "NaN")).
  { revert st Hr Hw Hc. induction ns as [| n ns IH]; intros st Hr Hw Hc.
    - repeat split; try assumption. congruence.
    - unfold awards. cbn [fold_left]. fold (awards ns (addStars n st)).
      rewrite (addStars_corrupt n st Hr Hw Hc).
      destruct (IH (mkStore true true (Some "NaN")) eq_refl eq_refl eq_refl)
        as (H1 & H2 & H3 & H4).
      repeat split; try assumption. intros _.
      destruct ns as [| m ns']; [reflexivity | apply H4; discriminate]. }
  destruct H as (Hnan & Hr' & Hw' & Htext).
  split; [exact Hnan |]. split; [exact Htext |]. rewrite Hnan.
  split; [reflexivity |].
  unfold reset. rewrite Hw'. unfold getStarCount. cbn [readable].
  rewrite Hr'. split; reflexivity.
Qed.

Lemma star_counter_corrupt_witness :
  getStarCount (awards [3; 2] (mkStore true true (Some "three"))) = None.
Proof.
  exact (proj1 (star_counter_corrupt [3; 2] (mkStore true true (Some "three"))
                  eq_refl eq_refl eq_refl)).
Defined.

End StorageFacts.

(** ** The rhythm exercise *)

Module RhythmFacts.
Import JS Rhythm.

Lemma last_default (ts : list R) (t d d' : R) :
  last (t :: ts) d = last (t :: ts) d'.
Proof.
  revert t. induction ts as [| a ts IH]; intros t; [reflexivity |].
  change (last (a :: ts) d = last (a :: ts) d'). apply IH.
Qed.

Lemma last_cons (ts : list R) (t d : R) : last (t :: ts) d = last ts t.
Proof.
  destruct ts as [| a ts]; [reflexivity |].
  change (last (a :: ts) d = last (a :: ts) t). apply last_default.
Qed.

(** Taps while the round is not complete: each one after the first records
    the interval since the tap before it. *)
Lemma taps_collect (p : Pattern) (ts : list R) :
  forall (acc : list R) (t0 : R) (s : State),
    currentPattern s = Some p -> listening s = true ->
    lastTapTime s = Some t0 -> userTaps s = acc ->
    (List.length acc + List.length ts < List.length (durations p))%nat ->
    taps ts s =
    mkState (Some p) (acc ++ intervalsOf t0 ts) true (Some (last ts t0))
            (status s) (pianoStars s).
Proof.
  induction ts as [| t ts IH]; intros acc t0 s Hp Hl Ht Hu Hlen.
  - cbn [taps fold_left intervalsOf last]. rewrite app_nil_r.
    destruct s; cbn in *; now subst.
  - unfold taps. cbn [fold_left].
    set (s1 := mkState (Some p) (acc ++ [((t - t0) / 1000)%R])%list true (Some t)
                       (status s) (pianoStars s)).
    assert (E : fst (handleTap t s) = s1).
    { unfold handleTap. rewrite Hl, Ht, Hp, Hu. cbn [negb currentPattern userTaps].
      rewrite length_app. cbn [List.length] in *.
      destruct (Nat.eqb_spec (List.length acc + 1) (List.length (durations p)));
        [lia | reflexivity]. }
    rewrite E. fold (taps ts s1).
    rewrite (IH (acc ++ [((t - t0) / 1000)%R])%list t s1 eq_refl eq_refl eq_refl eq_refl)
      by (rewrite length_app; cbn [List.length] in *; lia).
    cbn [intervalsOf]. rewrite <- app_assoc. cbn [app].
    now rewrite last_cons.
Qed.

(** [lastTapTime] is only copied by [evaluateRhythm]. *)
Lemma evaluate_forgets_tap (s : State) :
  let s2 := evaluateRhythm s in
  mkState (currentPattern s2) (userTaps s2) (listening s2) None (status s2)
          (pianoStars s2)
  = evaluateRhythm (mkState (currentPattern s) (userTaps s) (listening s) None
                            (status s) (pianoStars s)).
Proof.
  destruct s as [cp ut li lt st ps]. unfold evaluateRhythm.
  cbn [currentPattern userTaps listening lastTapTime status pianoStars].
  destruct cp as [p |]; [| reflexivity].
  destruct (negb _); [reflexivity |].
  destruct (forallb _ _); reflexivity.
Qed.

(** The taps that complete a round: the last one has the round judged. *)
Lemma taps_complete (p : Pattern) (ts : list R) :
  forall (acc : list R) (t0 : R) (s : State),
    currentPattern s = Some p -> listening s = true ->
    lastTapTime s = Some t0 -> userTaps s = acc ->
    ts <> [] ->
    (List.length acc + List.length ts = List.length (durations p))%nat ->
    taps ts s =
    evaluateRhythm (mkState (Some p) (acc ++ intervalsOf t0 ts) true None
                            (status s) (pianoStars s)).
Proof.
  induction ts as [| t ts IH]; intros acc t0 s Hp Hl Ht Hu Hne Hlen;
    [congruence |].
  unfold taps. cbn [fold_left].
  destruct ts as [| t' ts'].
  - cbn [fold_left intervalsOf]. unfold handleTap.
    rewrite Hl, Ht, Hp, Hu. cbn [negb currentPattern userTaps].
    rewrite length_app. cbn [List.length] in *.
    destruct (Nat.eqb_spec (List.length acc + 1) (List.length (durations p)));
      [| lia].
    cbn [fst]. cbv zeta. rewrite evaluate_forgets_tap. reflexivity.
  - set (s1 := mkState (Some p) (acc ++ [((t - t0) / 1000)%R])%list true (Some t)
                       (status s) (pianoStars s)).
    assert (E : fst (handleTap t s) = s1).
    { unfold handleTap. rewrite Hl, Ht, Hp, Hu.
      cbn [negb currentPattern userTaps].
      rewrite length_app. cbn [List.length] in *.
      destruct (Nat.eqb_spec (List.length acc + 1) (List.length (durations p)));
        [lia | reflexivity]. }
    rewrite E. fold (taps (t' :: ts') s1).
    rewrite (IH (acc ++ [((t - t0) / 1000)%R])%list t s1 eq_refl eq_refl eq_refl eq_refl)
      by (try discriminate; rewrite length_app; cbn [List.length] in *; lia).
    cbn [intervalsOf status pianoStars s1]. rewrite <- app_assoc. reflexivity.
Qed.

Lemma length_intervalsOf (ts : list R) (t0 : R) :
  List.length (intervalsOf t0 ts) = List.length ts.
Proof.
  revert t0. induction ts as [| t ts IH]; intros t0; [reflexivity |].
  cbn [intervalsOf List.length]. now rewrite IH.
Qed.

(** The loop of [evaluateRhythm] leaves [ok] set exactly when every
    interval is within [bound] of its duration. *)
Lemma deviations_within (bound : R) (expected user : list R) :
  List.length user = List.length expected ->
  (Forall (fun diff => (diff <= bound)%R) (deviations expected user) <->
   Forall2 (fun u e => (Rabs (u - e) <= bound)%R) user expected).
Proof.
  revert user. induction expected as [| e es IH]; intros [| u us] Hlen;
    try discriminate.
  - split; constructor.
  - cbn [deviations]. injection Hlen as Hlen. split; intros H.
    + inversion H; subst. constructor; [assumption | now apply IH].
    + inversion H; subst. constructor; [assumption | now apply IH].
Qed.

Lemma ok_iff (diffs : list R) :
  forallb withinTolerance diffs = true <->
  Forall (fun diff => (diff <= tolerance)%R) diffs.
Proof.
  rewrite forallb_forall, Forall_forall. unfold withinTolerance.
  split; intros H x Hx; specialize (H x Hx);
    destruct (Rgt_dec x tolerance); try reflexivity; try discriminate; lra.
Qed.

Lemma total_bound (bound : R) (diffs : list R) :
  Forall (fun diff => (diff <= bound)%R) diffs ->
  forall a : R,
    (fold_left Rplus diffs a <= a + bound * INR (List.length diffs))%R.
Proof.
  induction 1 as [| d ds Hd Hds IH]; intros a.
  - cbn. lra.
  - cbn [fold_left]. specialize (IH (a + d)%R).
    change (List.length (d :: ds)) with (S (List.length ds)).
    rewrite S_INR. lra.
Qed.

Lemma length_deviations (expected user : list R) :
  List.length user = List.length expected ->
  List.length (deviations expected user) = List.length expected.
Proof.
  revert user. induction expected as [| e es IH]; intros [| u us] Hlen;
    try discriminate; [reflexivity |].
  cbn [deviations List.length]. injection Hlen as Hlen. now rewrite IH.
Qed.

Lemma starsFor_range (totalDeviation : R) (n : nat) :
  1 <= starsFor totalDeviation n <= 3.
Proof.
  unfold starsFor. destruct n; [lia |]. cbv zeta.
  destruct (Rle_dec _ _); [lia |]. destruct (Rle_dec _ _); lia.
Qed.

Lemma starsFor_close (totalDeviation : R) (n : nat) :
  (0 < n)%nat -> (totalDeviation <= 0.1 * INR n)%R ->
  starsFor totalDeviation n = 3.
Proof.
  intros Hn Hle. unfold starsFor. destruct n as [| k]; [lia |]. cbv zeta.
  assert (Hpos : (0 < INR (S k))%R) by (apply lt_0_INR; lia).
  destruct (Rle_dec (totalDeviation / INR (S k)) 0.1) as [_ | NLE];
    [reflexivity |].
  exfalso. apply NLE.
  apply (Rmult_le_reg_r (INR (S k))); [exact Hpos |].
  replace (totalDeviation / INR (S k) * INR (S k))%R with totalDeviation
    by (field; lra).
  exact Hle.
Qed.

(** Taps while the exercise does not listen change nothing. *)
Lemma taps_ignored (more : list R) (s : State) :
  listening s = false -> taps more s = s.
Proof.
  intros Hoff. induction more as [| t more IH]; [reflexivity |].
  assert (E : fst (handleTap t s) = s)
    by (unfold handleTap; now rewrite Hoff).
  unfold taps. cbn [fold_left]. rewrite E. exact IH.
Qed.

(** A round of the rhythm exercise on real numbers: the verdict by the
    tolerance itself. *)
Lemma round_judged (p : Pattern) (s0 : State) (t0 : R) (ts : list R) :
  currentPattern s0 = Some p -> listening s0 = true ->
  lastTapTime s0 = None -> userTaps s0 = [] ->
  ts <> [] -> List.length ts = List.length (durations p) ->
  let intervals := intervalsOf t0 ts in
  let s := taps (t0 :: ts) s0 in
  userTaps s = intervals /\ listening s = false /\ lastTapTime s = None /\
  (Listener.verdict (status s) = Listener.Success <->
   Forall2 (fun u e => (Rabs (u - e) <= tolerance)%R) intervals (durations p)) /\
  (Listener.verdict (status s) = Listener.Success ->
   pianoStars s0 + 1 <= pianoStars s <= pianoStars s0 + 3) /\
  (Forall2 (fun u e => (Rabs (u - e) <= 0.1)%R) intervals (durations p) ->
   pianoStars s = pianoStars s0 + 3) /\
  (Listener.verdict (status s) <> Listener.Success ->
   status s = Listener.mkStatus inexact "status result-failure" /\
   pianoStars s = pianoStars s0) /\
  (forall k : nat,
     (k < List.length ts)%nat ->
     let s' := taps (firstn (S k) (t0 :: ts)) s0 in
     listening s' = true /\ status s' = status s0 /\
     pianoStars s' = pianoStars s0 /\ userTaps s' = intervalsOf t0 (firstn k ts)) /\
  (forall more : list R, taps more s = s).
Proof.
  intros Hp Hl Ht Hu Hne Hlen intervals s.
  set (s1 := mkState (Some p) [] true (Some t0) (status s0) (pianoStars s0)).
  assert (E1 : fst (handleTap t0 s0) = s1).
  { unfold handleTap. rewrite Hl, Ht. cbn [negb fst]. unfold s1.
    now rewrite Hp, Hu. }
  assert (Hlen' : List.length intervals = List.length (durations p))
    by (unfold intervals; now rewrite length_intervalsOf).
  assert (Es : s = evaluateRhythm
                     (mkState (Some p) intervals true None (status s0)
                              (pianoStars s0))).
  { unfold s, taps. cbn [fold_left]. rewrite E1. fold (taps ts s1).
    rewrite (taps_complete p ts [] t0 s1 eq_refl eq_refl eq_refl eq_refl Hne)
      by (cbn [List.length]; lia).
    reflexivity. }
  assert (Hok : forallb withinTolerance (deviations (durations p) intervals) = true
                <-> Forall2 (fun u e => (Rabs (u - e) <= tolerance)%R)
                            intervals (durations p)).
  { rewrite ok_iff. now apply deviations_within. }
  assert (Hprefix :
            forall k : nat,
              (k < List.length ts)%nat ->
              let s' := taps (firstn (S k) (t0 :: ts)) s0 in
              listening s' = true /\ status s' = status s0 /\
              pianoStars s' = pianoStars s0 /\
              userTaps s' = intervalsOf t0 (firstn k ts)).
  { intros k Hk s'. unfold s'. cbn [firstn]. unfold taps. cbn [fold_left].
    rewrite E1. fold (taps (firstn k ts) s1).
    rewrite (taps_collect p (firstn k ts) [] t0 s1 eq_refl eq_refl eq_refl eq_refl)
      by (cbn [List.length]; rewrite length_firstn; lia).
    repeat split. }
  assert (Hmore : forall more : list R, taps more s = s).
  { assert (Hoff : listening s = false).
    { rewrite Es. unfold evaluateRhythm.
      cbn [currentPattern userTaps listening lastTapTime status pianoStars].
      rewrite Hlen', Nat.eqb_refl. cbn [negb].
      destruct (forallb _ _); reflexivity. }
    intros more. now apply taps_ignored. }
  clearbody s. subst s. revert Hmore. unfold evaluateRhythm.
  cbn [currentPattern userTaps listening lastTapTime status pianoStars].
  rewrite Hlen', Nat.eqb_refl. cbn [negb].
  destruct (forallb withinTolerance (deviations (durations p) intervals)) eqn:Eok;
    intros Hmore;
    cbn [userTaps listening lastTapTime status pianoStars].
  - pose proof (starsFor_range
                  (fold_left Rplus (deviations (durations p) intervals) 0%R)
                  (List.length (durations p))) as Hrange.
    unfold Common.addStars.
    split; [reflexivity |]. split; [reflexivity |]. split; [reflexivity |].
    split. { split; [intros _; now apply Hok | reflexivity]. }
    split. { intros _. lia. }
    split.
    { intros Hclose. f_equal. apply starsFor_close.
      - rewrite <- Hlen. destruct ts; [congruence | cbn; lia].
      - apply (deviations_within 0.1 _ _ Hlen') in Hclose.
        pose proof (total_bound 0.1 _ Hclose 0%R) as Hb.
        rewrite (length_deviations _ _ Hlen') in Hb. lra. }
    split. { intros NS. exfalso. apply NS. reflexivity. }
    split; [exact Hprefix | exact Hmore].
  - assert (Hnot : ~ Forall2 (fun u e => (Rabs (u - e) <= tolerance)%R)
                     intervals (durations p)).
    { intros H. apply Hok in H. discriminate. }
    split; [reflexivity |]. split; [reflexivity |]. split; [reflexivity |].
    split. { split; [discriminate | intros H; contradiction]. }
    split. { discriminate. }
    split.
    { intros Hclose. exfalso. apply Hnot.
      eapply Forall2_impl; [| exact Hclose].
      cbv beta. unfold tolerance. intros; lra. }
    split. { intros _. split; reflexivity. }
    split; [exact Hprefix | exact Hmore].
Qed.

(** X16. A round of the rhythm exercise, from the moment tapping is enabled
    with no tap pending, with clock readings from 0 to 10^12 ms: for a
    pattern of N durations (N at least one) it takes N + 1 taps.  The
    first marks the start; until the last, nothing is judged.  The last
    has the N intervals between consecutive taps, in seconds, compared
    with the durations.  When every interval is within the tolerance of
    0.3 s of its duration by a margin of a microsecond, the round
    succeeds; when some interval is off by 0.3 s and that margin or more,
    it fails with the inexact-rhythm message; nothing else is shown.  A
    success awards one to three stars, three when every interval is within
    0.1 s by that margin; a failure awards nothing.  Either way listening
    ends, no tap stays pending, and later taps change nothing.  Within the
    margin of the tolerance the rounding of doubles decides, which is not
    part of this statement. *)
Theorem rhythm_round (p : Pattern) (s0 : State) (t0 : R) (ts : list R) :
  currentPattern s0 = Some p -> listening s0 = true ->
  lastTapTime s0 = None -> userTaps s0 = [] ->
  ts <> [] -> List.length ts = List.length (durations p) ->
  Forall (fun t => (0 <= t <= 1000000000000)%R) (t0 :: ts) ->
  let margin := (/ 1000000)%R in
  let intervals := intervalsOf t0 ts in
  let s := taps (t0 :: ts) s0 in
  userTaps s = intervals /\ listening s = false /\ lastTapTime s = None /\
  (Forall2 (fun u e => (Rabs (u - e) <= tolerance - margin)%R)
           intervals (durations p) ->
   Listener.verdict (status s) = Listener.Success) /\
  (~ Forall2 (fun u e => (Rabs (u - e) < tolerance + margin)%R)
             intervals (durations p) ->
   status s = Listener.mkStatus inexact "status result-failure") /\
  (Listener.verdict (status s) = Listener.Success \/
   status s = Listener.mkStatus inexact "status result-failure") /\
  (Listener.verdict (status s) = Listener.Success ->
   pianoStars s0 + 1 <= pianoStars s <= pianoStars s0 + 3) /\
  (Forall2 (fun u e => (Rabs (u - e) <= 0.1 - margin)%R)
           intervals (durations p) ->
   pianoStars s = pianoStars s0 + 3) /\
  (Listener.verdict (status s) <> Listener.Success ->
   pianoStars s = pianoStars s0) /\
  (forall k : nat,
     (k < List.length ts)%nat ->
     let s' := taps (firstn (S k) (t0 :: ts)) s0 in
     listening s' = true /\ status s' = status s0 /\
     pianoStars s' = pianoStars s0 /\ userTaps s' = intervalsOf t0 (firstn k ts)) /\
  (forall more : list R, taps more s = s).
Proof.
  intros Hp Hl Ht Hu Hne Hlen _ margin intervals s.
  destruct (round_judged p s0 t0 ts Hp Hl Ht Hu Hne Hlen)
    as (H1 & H2 & H3 & Hiff & Hstars & Hclose & Hfail & Hprefix & Hmore).
  fold intervals s in H1, H2, H3, Hiff, Hstars, Hclose, Hfail, Hmore.
  split; [exact H1 |]. split; [exact H2 |]. split; [exact H3 |].
  split.
  { intros Hin. apply Hiff. eapply Forall2_impl; [| exact Hin].
    cbv beta. unfold margin. intros; lra. }
  split.
  { intros Hout. apply Hfail. intros Hok. apply Hout.
    apply Hiff in Hok. eapply Forall2_impl; [| exact Hok].
    cbv beta. unfold margin. intros; lra. }
  split.
  { destruct (Listener.verdict (status s)) eqn:E;
      [right; apply Hfail; discriminate | now left
      | right; apply Hfail; discriminate]. }
  split; [exact Hstars |].
  split.
  { intros Hin. apply Hclose. eapply Forall2_impl; [| exact Hin].
    cbv beta. unfold margin. intros; lra. }
  split; [intros NS; exact (proj2 (Hfail NS)) |].
  split; [exact Hprefix | exact Hmore].
Qed.

Lemma rhythm_round_witness :
  Listener.verdict
    (status (taps [0; 1000; 1600; 2000; 3100]%R
                  (tappingEnabled
                     (playPattern (mkPattern [1; 0.5; 0.5; 1]%R "Rytm 1")
                        (mkState None [] false None
                                 (Listener.mkStatus "" "status") 0)))))
  = Listener.Success.
Proof.
  assert (Hclock : Forall (fun t => (0 <= t <= 1000000000000)%R)
                          [0; 1000; 1600; 2000; 3100]%R)
    by (repeat (apply Forall_cons; [lra |]); apply Forall_nil).
  apply (rhythm_round (mkPattern [1; 0.5; 0.5; 1]%R "Rytm 1")
           (tappingEnabled
              (playPattern (mkPattern [1; 0.5; 0.5; 1]%R "Rytm 1")
                 (mkState None [] false None (Listener.mkStatus "" "status") 0)))
           0%R [1000; 1600; 2000; 3100]%R
           eq_refl eq_refl eq_refl eq_refl ltac:(discriminate) eq_refl Hclock).
  cbn [intervalsOf durations]. unfold tolerance.
  repeat (apply Forall2_cons;
          [unfold Rabs;
           match goal with
           | |- context [Rcase_abs ?x] => destruct (Rcase_abs x)
           end; lra |]).
  apply Forall2_nil.
Defined.

(** X17. A round broken off leaves its last tap pending: [lastTapTime] is
    cleared only when a round is judged.  When the pattern is played again
    and tapping is enabled anew, the taps recorded are dropped but the
    pending tap is not, so the first tap of the new round does not mark the
    start: it records the time since the last tap of the round broken
    off. *)
Theorem stale_tap (p next : Pattern) (s0 : State) (t0 : R) (ts : list R)
        (now : R) :
  currentPattern s0 = Some p -> listening s0 = true ->
  lastTapTime s0 = None -> userTaps s0 = [] ->
  (List.length ts < List.length (durations p))%nat ->
  (1 < List.length (durations next))%nat ->
  let broken := taps (t0 :: ts) s0 in
  let again := tappingEnabled (playPattern next broken) in
  userTaps again = [] /\ lastTapTime again = Some (last ts t0) /\
  handleTap now again =
  (mkState (Some next) [((now - last ts t0) / 1000)%R] true (Some now)
           (Listener.mkStatus yourTurn "status") (pianoStars s0),
   Return tt).
Proof.
  intros Hp Hl Ht Hu Hlen Hnext broken again.
  set (s1 := mkState (Some p) [] true (Some t0) (status s0) (pianoStars s0)).
  assert (E1 : fst (handleTap t0 s0) = s1).
  { unfold handleTap. rewrite Hl, Ht. cbn [negb fst]. unfold s1.
    now rewrite Hp, Hu. }
  assert (Eb : broken =
               mkState (Some p) (intervalsOf t0 ts) true (Some (last ts t0))
                       (status s0) (pianoStars s0)).
  { unfold broken, taps. cbn [fold_left]. rewrite E1. fold (taps ts s1).
    now rewrite (taps_collect p ts [] t0 s1 eq_refl eq_refl eq_refl eq_refl)
      by (cbn [List.length]; lia). }
  unfold again. rewrite Eb. unfold tappingEnabled, playPattern.
  cbn [currentPattern userTaps listening lastTapTime status pianoStars
       Listener.className].
  split; [reflexivity |]. split; [reflexivity |].
  unfold handleTap.
  cbn [currentPattern userTaps listening lastTapTime status pianoStars negb app
       List.length].
  destruct (Nat.eqb_spec 1 (List.length (durations next))); [lia | reflexivity].
Qed.

Lemma stale_tap_witness :
  userTaps
    (fst (handleTap 9000
            (tappingEnabled
               (playPattern (mkPattern [0.75; 0.75; 0.75; 0.75]%R "Rytm prosty")
                  (taps [0; 1000]%R
                     (tappingEnabled
                        (playPattern (mkPattern [1; 0.5; 0.5; 1]%R "Rytm 1")
                           (mkState None [] false None
                                    (Listener.mkStatus "" "status") 0))))))))
  = [((9000 - 1000) / 1000)%R].
Proof.
  pose proof (stale_tap (mkPattern [1; 0.5; 0.5; 1]%R "Rytm 1")
                (mkPattern [0.75; 0.75; 0.75; 0.75]%R "Rytm prosty")
                (tappingEnabled
                   (playPattern (mkPattern [1; 0.5; 0.5; 1]%R "Rytm 1")
                      (mkState None [] false None
                               (Listener.mkStatus "" "status") 0)))
                0%R [1000%R] 9000%R eq_refl eq_refl eq_refl eq_refl) as H.
  cbn [List.length durations] in H.
  specialize (H ltac:(lia) ltac:(lia)). cbv zeta in H.
  destruct H as (_ & _ & H). rewrite H. reflexivity.
Defined.

End RhythmFacts.

(** ** The staff of the note-reading exercise *)

Module ReadingStaffFacts.
Import JS Common Reading Playback ReadingStaff NoteNameSpec.

(** A letter, an accidental that is spelled, and the decimal text of an
    octave parse to the spelled pitch class at that octave. *)
Lemma spelled_name_parses (l : ascii) (letter acc p : string) (o : Z) :
  In (l, letter) letters -> spelled letter acc = Some p ->
  parseNoteName (String l (acc ++ showZ o)) = Return (mkNote p o).
Proof.
  intros Hl Hsp.
  destruct (ParserFacts.showZ_shape o) as (negative & ds & u & Hshow & Hu & Ho).
  rewrite Hshow.
  assert (H : Denotes (String l (acc ++ (if negative then "-" else "") ++ ds))
                      (mkNote p o)).
  { rewrite Ho. now apply (denotes l letter acc p ds negative u). }
  apply ParserFacts.parseNoteName_denotes.
  now rewrite (ParserFacts.trim_denotes _ _ H).
Qed.

Ltac staff_case l letter acc p o :=
  unfold diatonicDistanceFromE4;
  match goal with
  | |- context [parseNoteName ?n] =>
      change (parseNoteName n) with (parseNoteName (String l (acc ++ showZ o)))
  end;
  rewrite (spelled_name_parses l letter acc p o)
    by (first [reflexivity | (simpl; tauto)]);
  cbn [pc octave]; f_equal.

(** X18. Where [diatonicDistanceFromE4] puts a note, and what it makes of the
    accidental: a natural letter of [DIATONIC_ORDER] at index [i] and
    octave [o] is [(o - 4) * 7 + (i - 2)] steps from E4; a sharp is put
    where its letter is; a flat is put where the letter below is, which for
    C flat is the B of the same octave, six steps above the C. *)
Theorem diatonic_distance (i o : Z) (letter : string) :
  at_index DIATONIC_ORDER i = Some letter ->
  diatonicDistanceFromE4 (letter ++ showZ o) = Return ((o - 4) * 7 + (i - 2)) /\
  diatonicDistanceFromE4 (letter ++ "#" ++ showZ o)
  = Return ((o - 4) * 7 + (i - 2)) /\
  diatonicDistanceFromE4 (letter ++ "b" ++ showZ o)
  = Return ((o - 4) * 7 + ((i + 6) mod 7 - 2)).
Proof.
  intros Hi. unfold at_index in Hi.
  destruct (Z.ltb_spec i 0) as [| Hpos]; [discriminate |].
  assert (Hlt : (Z.to_nat i < List.length DIATONIC_ORDER)%nat)
    by (apply nth_error_Some; congruence).
  cbn [List.length DIATONIC_ORDER] in Hlt.
  assert (Hcases : i = 0 \/ i = 1 \/ i = 2 \/ i = 3 \/ i = 4 \/ i = 5 \/ i = 6)
    by lia.
  destruct Hcases as [-> | [-> | [-> | [-> | [-> | [-> | ->]]]]]];
    injection Hi as <-.
  - split; [staff_case "C"%char "C" "" "C" o |
            split; [staff_case "C"%char "C" "#" "C#" o
                   | staff_case "C"%char "C" "b" "B" o]].
  - split; [staff_case "D"%char "D" "" "D" o |
            split; [staff_case "D"%char "D" "#" "D#" o
                   | staff_case "D"%char "D" "b" "C#" o]].
  - split; [staff_case "E"%char "E" "" "E" o |
            split; [staff_case "E"%char "E" "#" "E#" o
                   | staff_case "E"%char "E" "b" "D#" o]].
  - split; [staff_case "F"%char "F" "" "F" o |
            split; [staff_case "F"%char "F" "#" "F#" o
                   | staff_case "F"%char "F" "b" "E" o]].
  - split; [staff_case "G"%char "G" "" "G" o |
            split; [staff_case "G"%char "G" "#" "G#" o
                   | staff_case "G"%char "G" "b" "F#" o]].
  - split; [staff_case "A"%char "A" "" "A" o |
            split; [staff_case "A"%char "A" "#" "A#" o
                   | staff_case "A"%char "A" "b" "G#" o]].
  - split; [staff_case "B"%char "B" "" "B" o |
            split; [staff_case "B"%char "B" "#" "B#" o
                   | staff_case "B"%char "B" "b" "A#" o]].
Qed.

Lemma diatonic_distance_witness :
  diatonicDistanceFromE4 ("C" ++ showZ 4) = Return (-2) /\
  diatonicDistanceFromE4 ("C" ++ "b" ++ showZ 4) = Return 4.
Proof.
  destruct (diatonic_distance 0 4 "C" eq_refl) as (H1 & _ & H3).
  split; [exact H1 | exact H3].
Defined.

(** The rounds of a ledger-line loop, given rounds enough: every second
    step from [d] up to [limit]. *)
Lemma ledgerLoop_steps (fuel : nat) :
  forall d limit x : Z,
    limit - d + 2 <= Z.of_nat fuel ->
    (In x (ledgerLoop fuel d limit) <-> d <= x <= limit /\ (x - d) mod 2 = 0).
Proof.
  induction fuel as [| k IH]; intros d limit x Hfuel.
  - cbn [ledgerLoop In]. split; [tauto | lia].
  - cbn [ledgerLoop]. destruct (Z.leb_spec d limit) as [Hle | Hgt].
    + cbn [In]. rewrite (IH (d + 2) limit x) by lia.
      split.
      * intros [<- | [Hx Hm]].
        -- rewrite Z.sub_diag. split; [lia | reflexivity].
        -- split; [lia |]. replace (x - d) with (x - (d + 2) + 1 * 2) by lia.
           now rewrite Z.mod_add by lia.
      * intros [Hx Hm].
        destruct (Z.eq_dec d x) as [-> | NE]; [now left | right].
        assert (x <> d + 1) by (intros ->; replace (d + 1 - d) with 1 in Hm by lia;
                                discriminate Hm).
        split; [lia |].
        replace (x - d) with (x - (d + 2) + 1 * 2) in Hm by lia.
        now rewrite Z.mod_add in Hm by lia.
    + cbn [In]. split; [tauto | lia].
Qed.

Lemma ledgerSteps_steps (d limit x : Z) :
  In x (ledgerSteps d limit) <-> d <= x <= limit /\ (x - d) mod 2 = 0.
Proof. unfold ledgerSteps. apply ledgerLoop_steps. lia. Qed.

(** X19. What [drawNote] draws for a note at [dist] steps from E4: the head at
    height [130 - 7 * dist], and ledger lines at the steps [d] the two
    loops reach.  Above the staff these are the even steps from 10 up to
    the note.  Below the staff the loop starts at the note, so the lines
    are at the steps of the parity of [dist] up to -2: for a note on an
    odd step, as B3 at -3, the lines go through the spaces and the line of
    middle C at step -2 is not drawn.  Between the bottom and the top line
    nothing is drawn besides the head. *)
Theorem ledger_lines (name : string) (dist : Z) :
  diatonicDistanceFromE4 name = Return dist ->
  exists lines : list Z,
    drawNote name = Return (mkDrawing lines (130 - 7 * dist)) /\
    (forall y : Z,
       In y lines <->
       exists d : Z,
         y = 130 - 7 * d /\
         ((dist <= d <= -2 /\ (d - dist) mod 2 = 0) \/
          (10 <= d <= dist /\ d mod 2 = 0))) /\
    (0 <= dist <= 8 -> lines = []) /\
    (dist < 0 -> dist mod 2 = 1 -> ~ In (130 - 7 * -2) lines) /\
    (dist <= -2 -> In (130 - 7 * dist) lines).
Proof.
  intros Hdist.
  assert (HstepY : forall d, stepY d = 130 - 7 * d).
  { intros d. unfold stepY, BASE_Y, LINE_SPACING.
    change (14 / 2) with 7. lia. }
  set (below := if dist <? 0 then map stepY (ledgerSteps dist (-2)) else []).
  set (above := if dist >? 8 then map stepY (ledgerSteps 10 dist) else []).
  assert (Hlines :
            forall y : Z,
              In y (below ++ above) <->
              exists d : Z,
                y = 130 - 7 * d /\
                ((dist <= d <= -2 /\ (d - dist) mod 2 = 0) \/
                 (10 <= d <= dist /\ d mod 2 = 0))).
  { intros y. rewrite in_app_iff. unfold below, above. split.
    - intros [H | H].
      + destruct (dist <? 0); [| contradiction].
        apply in_map_iff in H. destruct H as (d & <- & Hd).
        apply ledgerSteps_steps in Hd. exists d. rewrite HstepY. tauto.
      + destruct (dist >? 8); [| contradiction].
        apply in_map_iff in H. destruct H as (d & <- & Hd).
        apply ledgerSteps_steps in Hd. exists d. rewrite HstepY.
        split; [reflexivity | right].
        destruct Hd as [Hr Hm]. split; [exact Hr |].
        replace d with (d - 10 + 5 * 2) by lia. now rewrite Z.mod_add by lia.
    - intros (d & -> & [[Hr Hm] | [Hr Hm]]).
      + left. destruct (Z.ltb_spec dist 0); [| lia].
        apply in_map_iff. exists d. split; [apply HstepY |].
        apply ledgerSteps_steps. tauto.
      + right. destruct (Z.gtb_spec dist 8); [| lia].
        apply in_map_iff. exists d. split; [apply HstepY |].
        apply ledgerSteps_steps. split; [exact Hr |].
        replace (d - 10) with (d + -5 * 2) by lia. now rewrite Z.mod_add by lia. }
  exists (below ++ above)%list. split; [| split; [exact Hlines | split; [| split]]].
  - unfold drawNote. rewrite Hdist. fold below above. now rewrite HstepY.
  - intros Hr. unfold below, above.
    destruct (Z.ltb_spec dist 0); [lia |].
    destruct (Z.gtb_spec dist 8); [lia | reflexivity].
  - intros Hneg Hodd Hin. apply Hlines in Hin.
    destruct Hin as (d & Hy & [[Hr Hm] | [Hr _]]); [| lia].
    assert (d = -2) by lia. subst d.
    clear - Hodd Hm. Z.to_euclidean_division_equations. lia.
  - intros Hlow. apply Hlines. exists dist. split; [reflexivity | left].
    rewrite Z.sub_diag. split; [lia | reflexivity].
Qed.

Lemma ledger_lines_witness :
  exists lines : list Z,
    drawNote "B3" = Return (mkDrawing lines (130 - 7 * -3)) /\
    ~ In (130 - 7 * -2) lines /\ In (130 - 7 * -3) lines.
Proof.
  destruct (ledger_lines "B3" (-3) eq_refl) as (lines & Hdraw & _ & _ & H1 & H2).
  exists lines. split; [exact Hdraw |]. split.
  - apply H1; [lia | reflexivity].
  - apply H2. lia.
Defined.

(** X20. The play button of the note-reading exercise sounds nothing: the
    current note is a note name, and [playSingleNote] is called with a
    number after it, so that the name is looked up as a pitch class and
    the call throws before an oscillator is made. *)
Theorem play_current_note (g : Settings) (s : State) (name : string)
        (note : Note) :
  currentNote s = Some name -> parseNoteName name = Return note ->
  playCurrentNote g s = Some ([], Throw ("Unknown pitch class: " ++ name)) /\
  playCurrentNote g (generateNewNote name s)
  = Some ([], Throw ("Unknown pitch class: " ++ name)).
Proof.
  intros Hcur Hparse.
  assert (H : playSingleNote g name (Some 0.8%R) (Some 0.35%R) None
              = ([], Throw ("Unknown pitch class: " ++ name))).
  { unfold playSingleNote, pitchClassToFreqAt.
    rewrite (PlaybackFacts.indexOf_absent NOTE_NAMES name)
      by exact (PlaybackFacts.pitch_class_is_no_note_name name note Hparse).
    reflexivity. }
  unfold playCurrentNote, generateNewNote. rewrite Hcur.
  cbn [currentNote]. now rewrite H.
Qed.

Lemma play_current_note_witness :
  playCurrentNote initialSettings Examples.readingA4
  = Some ([], Throw "Unknown pitch class: A4").
Proof.
  exact (proj1 (play_current_note initialSettings Examples.readingA4 "A4"
                  (mkNote "A" 4) eq_refl eq_refl)).
Defined.

End ReadingStaffFacts.

(** ** The memory exercise: a new sequence, its playback, and the stars *)

Module MemorySetupFacts.
Import JS Eff Common Listener Memory Playback MemorySetup.

(** No pitch-class name ends in the octave digit that [playSequence]
    appends. *)
Lemma octave_suffix (p : string) : ~ In (p ++ "4") NOTE_NAMES.
Proof.
  intros H. simpl in H.
  repeat (destruct H as [H | H];
          [destruct p as [| a [| b [| c r]]]; simpl in H; congruence |]).
  exact H.
Qed.

(** The first note of a sequence has [playSequence] throw. *)
Lemma playSequence_first (g : Settings) (p : string) (rest : list string) :
  playSequence g (p :: rest) = ([], Throw ("Unknown pitch class: " ++ p ++ "4")).
Proof.
  cbn [playSequence]. unfold playSingleNote, pitchClassToFreqAt.
  rewrite (PlaybackFacts.indexOf_absent NOTE_NAMES (p ++ "4") (octave_suffix p)).
  reflexivity.
Qed.

(** X21. [playSequence] sounds nothing, whatever the expected sequence holds:
    each note is named by its pitch class and the digit 4 and passed to
    [playSingleNote] with a number after it, so the first call throws the
    unknown-pitch-class error, no oscillator is made and the promise of
    [playSequence] is rejected; on an empty sequence it resolves at
    once. *)
Theorem play_sequence_rejects (g : Settings) (expected : list string) :
  playSequence g expected =
  ([], match expected with
       | [] => Return tt
       | p :: _ => Throw ("Unknown pitch class: " ++ p ++ "4")
       end).
Proof.
  destruct expected as [| p rest]; [reflexivity |].
  apply playSequence_first.
Qed.

Lemma floor_range (x : R) (n : Z) :
  (0 <= x < IZR n)%R -> 0 <= Math_floor x < n.
Proof.
  intros [H0 Hn]. unfold Math_floor, Int_part.
  destruct (archimed x) as [Hup Hlow].
  split.
  - assert (H : (IZR 0 < IZR (up x))%R) by lra. apply lt_IZR in H. lia.
  - assert (H : (IZR (up x) < IZR (n + 1))%R) by (rewrite plus_IZR; lra).
    apply lt_IZR in H. lia.
Qed.

(** What [randomPitchClass] returns is one of the seven naturals. *)
Lemma randomPitchClass_natural (random : R) :
  (0 <= random < 1)%R -> In (randomPitchClass random) naturals.
Proof.
  intros Hr. unfold randomPitchClass.
  change (IZR (Z.of_nat (List.length naturals))) with 7%R.
  assert (H : 0 <= Math_floor (random * 7) < 7) by (apply floor_range; lra).
  set (k := Math_floor (random * 7)) in *.
  assert (Hk : k = 0 \/ k = 1 \/ k = 2 \/ k = 3 \/ k = 4 \/ k = 5 \/ k = 6)
    by lia.
  destruct Hk as [-> | [-> | [-> | [-> | [-> | [-> | ->]]]]]]; cbn; tauto.
Qed.

(** The arrow between two naturals. *)
Lemma hint_naturals (a b : string) :
  In a naturals -> In b naturals ->
  (hint a b = "↑" \/ hint a b = "↓" \/ hint a b = "→") /\
  (hint a b = "→" <-> a = b).
Proof.
  intros Ha Hb. simpl in Ha, Hb.
  repeat (destruct Ha as [<- | Ha]; [| ]);
    try contradiction;
    repeat (destruct Hb as [<- | Hb]; [| ]);
    try contradiction;
    (split;
     [vm_compute; tauto
     | split; intros H; first [reflexivity | discriminate H]]).
Qed.

Lemma hints_naturals (expected : list string) :
  Forall (fun p => In p naturals) expected ->
  Forall (fun h => h = "↑" \/ h = "↓" \/ h = "→") (hints expected) /\
  List.length (hints expected) = pred (List.length expected).
Proof.
  induction 1 as [| a rest Ha Hrest IH]; [split; [constructor | reflexivity] |].
  cbn [hints]. destruct rest as [| b rest']; [split; [constructor | reflexivity] |].
  destruct IH as [IH1 IH2]. inversion Hrest as [| ? ? Hb _]; subst. split.
  - constructor; [exact (proj1 (hint_naturals a b Ha Hb)) | exact IH1].
  - cbn [List.length]. rewrite IH2. reflexivity.
Qed.

(** X22. [generateSequence], whatever [Math.random()] gives: the new sequence
    has [SEQ_LENGTH] entries, each one of the seven naturals; the notes
    recorded are dropped and the status text is cleared, while the
    detector, the start time of the recording and the class of the status
    are kept, so that a recording that runs goes on against the new
    sequence; there is one arrow less than notes, none of them empty, and
    the hints button shows as many texts as there are notes; and the
    playback that is started sounds nothing. *)
Theorem generated_sequence (random : nat -> R) (g : Settings) (pg : Page) :
  (forall i : nat, (0 <= random i < 1)%R) ->
  let pg' := fst (generateSequence random g pg) in
  let s := exercise pg in
  let s' := exercise pg' in
  List.length (expectedSequence s') = Z.to_nat SEQ_LENGTH /\
  Forall (fun p => In p naturals) (expectedSequence s') /\
  userSequence s' = [] /\ text (status s') = "" /\
  className (status s') = className (status s) /\
  detector s' = detector s /\ recordStartTime s' = recordStartTime s /\
  pianoStars s' = pianoStars s /\
  Forall (fun h => h = "↑" \/ h = "↓" \/ h = "→") (currentHints pg') /\
  List.length (shownHints pg') = List.length (expectedSequence s') /\
  fst (snd (generateSequence random g pg)) = [] /\
  exists e, snd (snd (generateSequence random g pg)) = Throw e.
Proof.
  intros Hrandom pg' s s'.
  set (expected := map (fun i => randomPitchClass (random i))
                       (seq 0 (Z.to_nat SEQ_LENGTH))).
  assert (Hnat : Forall (fun p => In p naturals) expected).
  { apply Forall_forall. intros p Hp. apply in_map_iff in Hp.
    destruct Hp as (i & <- & _). apply randomPitchClass_natural, Hrandom. }
  assert (Hlen : List.length expected = Z.to_nat SEQ_LENGTH)
    by (unfold expected; now rewrite length_map, length_seq).
  destruct (hints_naturals expected Hnat) as [Harrows Hcount].
  unfold s', pg', s, generateSequence. fold expected. clearbody expected.
  cbn [fst snd exercise currentHints expectedSequence userSequence status
       detector recordStartTime pianoStars text className].
  split; [exact Hlen |]. split; [exact Hnat |].
  split; [reflexivity |]. split; [reflexivity |]. split; [reflexivity |].
  split; [reflexivity |]. split; [reflexivity |]. split; [reflexivity |].
  split; [exact Harrows |].
  split.
  { unfold shownHints. cbn [currentHints].
    destruct (hints expected) as [| h hs] eqn:E.
    - rewrite Hlen in Hcount. discriminate Hcount.
    - cbn [List.length] in *. rewrite Hcount, Hlen. reflexivity. }
  destruct expected as [| p rest]; [discriminate Hlen |].
  rewrite playSequence_first. split; [reflexivity |].
  eexists. reflexivity.
Qed.

Lemma generated_sequence_witness :
  List.length
    (expectedSequence
       (exercise (fst (generateSequence (fun _ => 0.5%R) initialSettings
                         (mkPage Examples.memoryListening [])))))
  = 3%nat.
Proof.
  assert (Hr : forall i : nat, (0 <= (fun _ : nat => 0.5%R) i < 1)%R)
    by (intros i; lra).
  exact (proj1 (generated_sequence (fun _ => 0.5%R) initialSettings
                  (mkPage Examples.memoryListening []) Hr)).
Defined.

Lemma outcome_step (s0 s : State) (d : NoteDetector.t) (ev : R * R) :
  NoteDetector.processor d = true ->
  Outcome s0 d s -> Outcome s0 d (noteEvent onFrequency ev s).
Proof.
  intros Hp (Hexp & Hrs & Hcases). destruct ev as [freq clock].
  destruct Hcases as [(Hd & Hst & Hstars & Hlen) | Hdone].
  2:{ assert (Hd : detector s = None) by (destruct Hdone as [[H _] | [H _]]; exact H).
      assert (E : noteEvent onFrequency (freq, clock) s = s).
      { unfold noteEvent. cbn [getDetector hasDetector]. now rewrite Hd. }
      rewrite E. split; [exact Hexp |]. split; [exact Hrs |]. now right. }
  destruct (freqToPitchClass freq) as [p |] eqn:Hpc.
  2:{ rewrite (MemoryFacts.event_skipped s freq clock) by now rewrite Hpc.
      split; [exact Hexp |]. split; [exact Hrs |]. left. tauto. }
  destruct (includes naturals p) eqn:Hnat.
  2:{ rewrite (MemoryFacts.event_skipped s freq clock) by now rewrite Hpc.
      split; [exact Hexp |]. split; [exact Hrs |]. left. tauto. }
  rewrite (MemoryFacts.memory_event_resolved s d freq clock p Hd Hp Hpc).
  rewrite (MemoryFacts.natural_step s d p clock Hd Hnat).
  rewrite Hexp. apply Nat.ltb_lt in Hlen as Hltb. rewrite Hltb.
  rewrite length_app. cbn [List.length].
  destruct (Nat.eqb_spec (List.length (userSequence s) + 1)
                         (List.length (expectedSequence s0))) as [Hfull | Hnot].
  - unfold evaluateSequence, bind, get, modify.
    cbn [userSequence expectedSequence withUser withDetector recordStartTime
         status pianoStars detector fst].
    rewrite Hexp, length_app. cbn [List.length]. rewrite Hfull, Nat.eqb_refl.
    cbn [negb].
    destruct (allEqual (expectedSequence s0) (userSequence s ++ [p]));
      unfold Outcome;
      cbn [fst withStatus withStars withUser withDetector expectedSequence
           recordStartTime detector status pianoStars userSequence].
    + split; [exact Hexp |]. split; [exact Hrs |]. right. left.
      split; [reflexivity |].
      exists (stars (recordStartTime s) clock (IZR (SEQ_LENGTH * 2))
                    (IZR (SEQ_LENGTH * 4))).
      split; [apply ChordRunFacts.stars_range |].
      split; [reflexivity |]. unfold addStars. now rewrite Hstars.
    + split; [exact Hexp |]. split; [exact Hrs |]. right. right.
      split; [reflexivity |]. split; [reflexivity | exact Hstars].
  - unfold Outcome.
    cbn [withUser expectedSequence recordStartTime detector status pianoStars
         userSequence].
    split; [exact Hexp |]. split; [exact Hrs |]. left.
    repeat split; try assumption. rewrite length_app. cbn [List.length]. lia.
Qed.

Lemma outcome_run (s0 : State) (d : NoteDetector.t) (evs : list (R * R)) :
  detector s0 = Some d -> NoteDetector.processor d = true ->
  userSequence s0 = [] -> expectedSequence s0 <> [] ->
  Outcome s0 d (noteEvents evs s0).
Proof.
  intros Hd Hp Hu Hne.
  induction evs as [| ev evs IH] using rev_ind.
  - change (noteEvents [] s0) with s0.
    split; [reflexivity |]. split; [reflexivity |]. left.
    repeat split; try assumption. rewrite Hu.
    destruct (expectedSequence s0); [congruence | cbn; lia].
  - rewrite MemoryFacts.memory_noteEvents_app.
    change (noteEvents [ev] (noteEvents evs s0))
      with (noteEvent onFrequency ev (noteEvents evs s0)).
    now apply outcome_step.
Qed.

(** X23. The stars of the memory exercise: in a recording stars are awarded at
    most once, with the success, one to three of them, and never without
    it; the recording is over exactly when the verdict is no longer
    collecting; and the message of [evaluateSequence] about a wrong number
    of notes is never shown, since the callback has the sequence judged
    only when the numbers agree. *)
Theorem memory_round_outcome (s0 : State) (d : NoteDetector.t)
        (evs : list (R * R)) :
  detector s0 = Some d -> NoteDetector.processor d = true ->
  userSequence s0 = [] -> expectedSequence s0 <> [] ->
  status s0 = mkStatus listening "status" ->
  let s := noteEvents evs s0 in
  text (status s) <> wrongCount /\
  (verdict (status s) = Success ->
   detector s = None /\
   pianoStars s0 + 1 <= pianoStars s <= pianoStars s0 + 3) /\
  (verdict (status s) <> Success -> pianoStars s = pianoStars s0) /\
  (verdict (status s) = Collecting <-> detector s = Some d).
Proof.
  intros Hd Hp Hu Hne Hst s.
  destruct (outcome_run s0 d evs Hd Hp Hu Hne) as (_ & _ & Hcases).
  fold s in Hcases.
  destruct Hcases as [(Hdet & Hstatus & Hstars & _)
                     | [(Hdet & n & Hn & Hstatus & Hstars)
                       | (Hdet & Hstatus & Hstars)]];
    rewrite Hstatus, ?Hst, Hdet.
  - split; [discriminate |]. split; [discriminate |].
    split; [intros _; exact Hstars |]. split; reflexivity.
  - split; [intros E; simpl in E; discriminate E |].
    split; [intros _; split; [reflexivity | lia] |].
    split; [intros NS; exfalso; apply NS; reflexivity |].
    split; discriminate.
  - split; [discriminate |]. split; [discriminate |].
    split; [intros _; exact Hstars |]. split; discriminate.
Qed.

Lemma memory_round_outcome_witness :
  text (status (noteEvents [(Examples.C4, 1000%R); (Examples.E4, 2000%R)]
                           Examples.memoryListening))
  <> wrongCount.
Proof.
  exact (proj1 (memory_round_outcome Examples.memoryListening Examples.running
                  [(Examples.C4, 1000%R); (Examples.E4, 2000%R)]
                  eq_refl eq_refl eq_refl ltac:(discriminate) eq_refl)).
Defined.

End MemorySetupFacts.

(** ** The virtual keyboard *)

Module KeyboardFacts.
Import JS Common Playback Keyboard.

Lemma lookup_In {A} (entries : list (string * A)) (key : string) (v : A) :
  lookup entries key = Some v -> In (key, v) entries.
Proof.
  induction entries as [| [k w] rest IH]; [discriminate |].
  cbn [lookup]. destruct (String.eqb_spec k key) as [-> | _].
  - intros [= ->]. now left.
  - intros H. right. now apply IH.
Qed.

(** The notes of the keys, by key press or by click, are note names and
    none of them is a pitch-class name. *)
Lemma key_note_is_no_pitch_class (note : string) :
  (exists key, In (key, note) KEY_MAP) \/ In note builtKeys ->
  ~ In note NOTE_NAMES.
Proof.
  intros [[key Hin] | Hin]; simpl in Hin.
  - repeat (destruct Hin as [[= <- <-] | Hin];
            [simpl; intuition discriminate |]).
    contradiction.
  - repeat (destruct Hin as [<- | Hin]; [simpl; intuition discriminate |]).
    contradiction.
Qed.

(** X24. The virtual keyboard sounds nothing: a key press that [KEY_MAP]
    has a note for, and a click on any key that [buildPiano] builds, call
    [playSingleNote] with the note name and a number after it, which throws
    the unknown-pitch-class error before an oscillator is made; a key press
    that [KEY_MAP] has no note for does nothing. *)
Theorem keyboard_is_silent (g : Settings) (lowered : string) :
  handleKeydown g lowered =
  match lookup KEY_MAP lowered with
  | Some note => Some ([], Throw ("Unknown pitch class: " ++ note))
  | None => None
  end /\
  (forall note : string,
     In note builtKeys ->
     clickKey g note = ([], Throw ("Unknown pitch class: " ++ note))).
Proof.
  assert (H : forall note : string,
             ~ In note NOTE_NAMES ->
             playSingleNote g note (Some 0.8%R) (Some 0.35%R) None
             = ([], Throw ("Unknown pitch class: " ++ note))).
  { intros note Hnot. unfold playSingleNote, pitchClassToFreqAt.
    now rewrite (PlaybackFacts.indexOf_absent NOTE_NAMES note Hnot). }
  split.
  - unfold handleKeydown.
    destruct (lookup KEY_MAP lowered) as [note |] eqn:Hlook; [| reflexivity].
    f_equal. apply H, key_note_is_no_pitch_class.
    left. exists lowered. now apply lookup_In.
  - intros note Hin. apply H, key_note_is_no_pitch_class. now right.
Qed.

(** X25. Where [positionBlackKeys] puts a black key, for a keyboard of positive
    width: the position that [BLACK_POSITIONS] gives a sharp is the place
    of the white key of its letter, and the black key is centred on the
    right edge of that white key, 0.6 white keys wide and inside the
    keyboard. *)
Theorem black_key_position (pianoWidth : R) (note : string) (posIndex : Z) :
  (0 < pianoWidth)%R -> In (note, posIndex) BLACK_POSITIONS ->
  at_index WHITE_NOTES posIndex = Some (remove_first_sharp note) /\
  (fst (blackKeyBox pianoWidth posIndex) + snd (blackKeyBox pianoWidth posIndex) / 2
   = IZR (posIndex + 1) * (pianoWidth / 7))%R /\
  (snd (blackKeyBox pianoWidth posIndex) = 0.6 * (pianoWidth / 7))%R /\
  (0 < fst (blackKeyBox pianoWidth posIndex))%R /\
  (fst (blackKeyBox pianoWidth posIndex) + snd (blackKeyBox pianoWidth posIndex)
   < pianoWidth)%R.
Proof.
  intros Hw Hin. unfold blackKeyBox.
  change (IZR (Z.of_nat (List.length WHITE_NOTES))) with 7%R.
  cbn [fst snd]. simpl in Hin.
  repeat (destruct Hin as [[= <- <-] | Hin];
          [split; [reflexivity |]; simpl (_ + 1)%Z; repeat split; lra |]).
  contradiction.
Qed.

Lemma black_key_position_witness :
  at_index WHITE_NOTES 3 = Some (remove_first_sharp "F#4").
Proof.
  apply (black_key_position 700 "F#4" 3); [lra | simpl; tauto].
Defined.

End KeyboardFacts.

(** ** The star award of the four exercises *)

Module AwardFacts.
Import JS Listener.

(** X26. The award by the time taken, as the chord, interval, sequence and
    note-reading exercises compute it with their two thresholds: it is
    one, two or three stars, and a later success never earns more than an
    earlier one.  A recording whose start time was read as 0, like one
    without a start time, earns one star however fast the success came. *)
Theorem faster_is_better (rs : option R) (c1 c2 fast mid : R) :
  (fast <= mid)%R -> (c1 <= c2)%R ->
  1 <= stars rs c2 fast mid <= stars rs c1 fast mid /\
  stars rs c1 fast mid <= 3 /\
  stars (Some 0%R) c1 fast mid = 1 /\
  stars None c1 fast mid = 1.
Proof.
  intros Hth Hc. split; [| split; [| split]].
  - unfold stars. destruct rs as [t0 |]; [| lia].
    destruct (Req_dec_T t0 0); [lia |]. cbv zeta.
    destruct (Rle_dec ((c2 - t0) / 1000) fast);
      destruct (Rle_dec ((c1 - t0) / 1000) fast);
      destruct (Rle_dec ((c2 - t0) / 1000) mid);
      destruct (Rle_dec ((c1 - t0) / 1000) mid);
      try lia; exfalso; lra.
  - apply ChordRunFacts.stars_range.
  - unfold stars. destruct (Req_dec_T 0 0); [reflexivity | lra].
  - reflexivity.
Qed.

Lemma faster_is_better_witness :
  1 <= stars (Some 500%R) 12000 5 10 <= stars (Some 500%R) 3000 5 10.
Proof.
  apply (faster_is_better (Some 500%R) 3000 12000 5 10); lra.
Defined.

End AwardFacts.
